(** * Penumbra: job orchestration of [get], [encrypt], [decrypt]

    A shallow embedding of [src/API.ts] (the calling context) and of the
    worker class (the worker-facing surface), with the properties the
    specification states about them.

    Conventions of the embedding:
    - a JavaScript number that counts bytes or jobs is an [N];
      [undefined] is [None]; array positions are [nat];
    - module-level mutable bindings ([jobID], [decryptionConfigs], the blob
      cache) are fields of an explicit state;
    - an [async] function is a computation that runs up to its first
      [await] when it is called and is resumed later by the event loop
      (see [Task]); what it does to the outside world is appended to a
      chronological log of events. *)

From stdpp Require Import base option list numbers strings pretty sorting gmap.

#[local] Set Warnings "-register-all".

(** * Asynchronous computations *)

(** The message of a thrown [Error]. *)
Definition Error : Type := string.

Section Async.
Context {St : Type}.

(** A promise seen from the event loop: fulfilled, rejected, or
    suspended at an [await] with the code that runs when it resumes. *)
Inductive Task (A : Type) : Type :=
| Fulfilled (a : A)
| Rejected (e : Error)
| Await (k : St → St * Task A).
Global Arguments Fulfilled {A} a.
Global Arguments Rejected {A} e.
Global Arguments Await {A} k.

(** Calling an [async] function runs it synchronously up to its first
    [await]. *)
Definition Async (A : Type) : Type := St → St * Task A.

Definition ret {A} (a : A) : Async A := λ s, (s, Fulfilled a).
Definition throw {A} (e : Error) : Async A := λ s, (s, Rejected e).
Definition modify (f : St → St) : Async unit := λ s, (f s, Fulfilled tt).

Fixpoint bind_task {A B} (t : Task A) (f : A → Async B) : Async B :=
  λ s,
    match t with
    | Fulfilled a => f a s
    | Rejected e => (s, Rejected e)
    | Await k =>
        (s, Await (λ s', let (s'', t') := k s' in bind_task t' f s''))
    end.

Definition bind {A B} (m : Async A) (f : A → Async B) : Async B :=
  λ s, let (s', t) := m s in bind_task t f s'.

(** The continuation after an [await] always runs in a later turn. *)
Definition yield : Async unit := λ s, (s, Await (λ s', (s', Fulfilled tt))).

(** [await p]: whether [p] is fulfilled or rejected, the awaiting code
    learns it one turn after [p] has settled. *)
Fixpoint await_task {A} (t : Task A) : Task A :=
  match t with
  | Await k => Await (λ s, let (s', t') := k s in (s', await_task t'))
  | _ => Await (λ s, (s, t))
  end.

(** [await m]: the promise [m] is created now (its code runs to its first
    [await]). *)
Definition await {A} (m : Async A) : Async A :=
  λ s, let (s', t) := m s in (s', await_task t).

(** [xs.forEach(...)] with a loop-carried value; a throw leaves the loop. *)
Fixpoint foldA {X B} (f : B → X → Async B) (xs : list X) (b : B) : Async B :=
  match xs with
  | [] => ret b
  | x :: xs' => bind (f b x) (foldA f xs')
  end.

(** [xs.map(f)] for a callback with effects. *)
Fixpoint mapA {X B} (f : X → Async B) (xs : list X) : Async (list B) :=
  match xs with
  | [] => ret []
  | x :: xs' => bind (f x) (λ y, bind (mapA f xs') (λ ys, ret (y :: ys)))
  end.

(** ** The event loop *)

(** [xs.map(async (x) => ...)]: every callback is started in turn and
    runs to its first [await]; the promises are collected. *)
Fixpoint spawn_all {X A} (f : X → Async A) (xs : list X) (s : St)
  : St * list (Task A) :=
  match xs with
  | [] => (s, [])
  | x :: xs' =>
      let (s1, t) := f x s in
      let (s2, ts) := spawn_all f xs' s1 in
      (s2, t :: ts)
  end.

Definition resume {A} (t : Task A) (s : St) : St * Task A :=
  match t with
  | Await k => k s
  | _ => (s, t)
  end.

(** One turn of the event loop: the suspended promises are resumed in the
    order in which they were created.  A turn stands for the time an
    awaited promise takes to settle: what the platform and the
    collaborators are asked for ([getWorker()], [import()], a remote
    constructor, the contents of a stream) is taken to arrive in the order
    in which it was asked for. *)
Fixpoint round {A} (ts : list (Task A)) (s : St) : St * list (Task A) :=
  match ts with
  | [] => (s, [])
  | t :: ts' =>
      let (s1, t1) := resume t s in
      let (s2, ts1) := round ts' s1 in
      (s2, t1 :: ts1)
  end.

Fixpoint first_rejected {A} (ts : list (Task A)) : option Error :=
  match ts with
  | [] => None
  | Rejected e :: _ => Some e
  | _ :: ts' => first_rejected ts'
  end.

Fixpoint values {A} (ts : list (Task A)) : option (list A) :=
  match ts with
  | [] => Some []
  | Fulfilled a :: ts' => cons a <$> values ts'
  | _ :: _ => None
  end.

(** What the caller of [Promise.all] observes. *)
Inductive Settled (A : Type) : Type :=
| Resolves (a : A)
| Rejects (e : Error)
| Pending.
Global Arguments Resolves {A} a.
Global Arguments Rejects {A} e.
Global Arguments Pending {A}.

(** [ticks] turns of the event loop; [rej] is the first rejection seen so
    far.  [Promise.all] rejects with the rejection that happens first,
    the other promises keep running. *)
Fixpoint event_loop {A} (ticks : nat) (ts : list (Task A))
    (rej : option Error) (s : St) : St * (list (Task A) * option Error) :=
  match ticks with
  | 0 => (s, (ts, rej))
  | S n =>
      let (s', ts') := round ts s in
      event_loop n ts'
        (match rej with Some e => Some e | None => first_rejected ts' end) s'
  end.

Definition outcome {A} (ts : list (Task A)) (rej : option Error)
  : Settled (list A) :=
  match rej with
  | Some e => Rejects e
  | None => match values ts with Some vs => Resolves vs | None => Pending end
  end.

(** [Promise.all(xs.map(async (x) => ...))], observed after [ticks]
    turns of the event loop. *)
Definition Promise_all {X A} (ticks : nat) (f : X → Async A) (xs : list X)
    (s : St) : St * Settled (list A) :=
  let (s1, ts) := spawn_all f xs s in
  let '(s2, (ts', rej)) := event_loop ticks ts (first_rejected ts) s1 in
  (s2, outcome ts' rej).
End Async.

Arguments ret {St A} a s /.
Arguments throw {St A} e s /.
Arguments modify {St} f s /.
Arguments bind {St A B} m f s /.
Arguments yield {St} s /.
Arguments await {St A} m s /.

Declare Scope async_scope.
Delimit Scope async_scope with async.
Notation "'let*' x ':=' m 'in' k" := (bind m (λ x, k))
  (at level 10, x binder, m at level 100, k at level 200) : async_scope.
Notation "'do' m 'then' k" := (bind m (λ _, k))
  (at level 10, m at level 100, k at level 200) : async_scope.

(** * Data model *)

(** Modelled from the spec: the declarations of [./types], of which only
    the import is known; a descriptor is the key, IV and authentication tag
    needed to decrypt a file. *)
Module PenumbraDecryptionInfo.
Record t : Type := mk { key : string; iv : string; authTag : string }.
End PenumbraDecryptionInfo.

(** Modelled from the spec: the options of [encrypt] carry an explicit key
    and IV; [null] (here [None]) asks for generated ones. *)
Module PenumbraEncryptionOptions.
Record t : Type := mk { key : string; iv : string }.
End PenumbraEncryptionOptions.

(** Modelled from the spec: a fetchable, optionally encrypted payload.
    [url] is optional here because the code tests ['url' in resource];
    [path] is the property that overrides the path derived from the URL. *)
Module RemoteResource.
Record t : Type := mk {
  url : option string;
  requestInit : option string;
  filePrefix : option string;
  mimetype : option string;
  decryptionOptions : option PenumbraDecryptionInfo.t;
  path : option string
}.
End RemoteResource.

(** The value of a file's [stream] property.  [ReadableStream h] and
    [ArrayBuffer h] are objects the caller holds, named by a handle. *)
Inductive Stream : Type :=
| ReadableStream (h : N)
| ArrayBuffer (h : N)
| readable (c : nat)
    (** [.readable] of the [RemoteReadableStream] number [c] *)
| arrayBuffer (resource : RemoteResource.t)
    (** [await new Response(await fetchAndDecrypt(resource)).arrayBuffer()] *)
| toWebReadableStream (stream : Stream)
    (** [toWebReadableStream(intoStreamOnlyOnce(stream))] *).

(** [stream instanceof ArrayBuffer] *)
Definition instanceof_ArrayBuffer (stream : Stream) : bool :=
  match stream with
  | ArrayBuffer _ | arrayBuffer _ => true
  | _ => false
  end.

(** [stream instanceof ReadableStream] *)
Definition instanceof_ReadableStream (stream : Stream) : bool :=
  match stream with
  | ReadableStream _ | readable _ | toWebReadableStream _ => true
  | _ => false
  end.

(** Modelled from the spec: [PenumbraFile] and [PenumbraEncryptedFile] of
    [./types] as one bag of optional properties.  Besides the properties
    the spec lists, the record has the ones that the object spreads of
    [API.ts] copy into a file: those of a resource ([url], [requestInit],
    [decryptionOptions]) and those of the encryption options ([key], [iv]). *)
Module PenumbraFile.
Record t : Type := mk {
  id : option N;
  stream : Stream;
  size : option N;
  mimetype : option string;
  filePrefix : option string;
  path : option string;
  url : option string;
  requestInit : option string;
  decryptionOptions : option PenumbraDecryptionInfo.t;
  key : option string;
  iv : option string
}.

(** [file.id = v], and [{ ...file, id: v }] *)
Definition with_id (v : option N) (file : t) : t :=
  mk v (stream file) (size file) (mimetype file) (filePrefix file)
     (path file) (url file) (requestInit file) (decryptionOptions file)
     (key file) (iv file).

(** [{ ...file, stream: v }] *)
Definition with_stream (v : Stream) (file : t) : t :=
  mk (id file) v (size file) (mimetype file) (filePrefix file)
     (path file) (url file) (requestInit file) (decryptionOptions file)
     (key file) (iv file).

(** [{ ...file, size: v }] *)
Definition with_size (v : option N) (file : t) : t :=
  mk (id file) (stream file) v (mimetype file) (filePrefix file)
     (path file) (url file) (requestInit file) (decryptionOptions file)
     (key file) (iv file).

(** [{ ...file, ...options }]: a [null] spreads nothing. *)
Definition with_options (options : option PenumbraEncryptionOptions.t)
    (file : t) : t :=
  match options with
  | None => file
  | Some o =>
      mk (id file) (stream file) (size file) (mimetype file)
         (filePrefix file) (path file) (url file) (requestInit file)
         (decryptionOptions file)
         (Some (PenumbraEncryptionOptions.key o))
         (Some (PenumbraEncryptionOptions.iv o))
  end.

(** [{ stream: v, path: p, ...resource }]: the properties of the resource
    come last, so its own [path] wins over [p]. *)
Definition of_resource (v : Stream) (p : option string)
    (resource : RemoteResource.t) : t :=
  mk None v None
     (RemoteResource.mimetype resource)
     (RemoteResource.filePrefix resource)
     (match RemoteResource.path resource with
      | Some q => Some q
      | None => p
      end)
     (RemoteResource.url resource)
     (RemoteResource.requestInit resource)
     (RemoteResource.decryptionOptions resource)
     None None.
End PenumbraFile.

(** JavaScript truthiness of an optional number: [undefined] and [0] are
    falsy. *)
Definition truthy (n : option N) : bool :=
  match n with
  | Some n => negb (n =? 0)%N
  | None => false
  end.

(** * The calling context: [API.ts] *)

(** What the calling context does to its surroundings, in order. *)
Inductive Event : Type :=
| GetWorker
    (** [getWorker()] *)
| Import (module : string)
    (** [import(module)] *)
| JobIDpp (n : N)
    (** [jobID++] evaluated to [n] *)
| NewRemoteReadableStream (c : nat)
| NewRemoteWritableStream (c : nat)
| NewChannel
    (** [new worker.comlink()] *)
| ThreadGet (writablePorts : list nat) (resources : list RemoteResource.t)
| ThreadEncrypt (options : option PenumbraEncryptionOptions.t)
    (ids sizes : list N) (readablePorts writablePorts : list nat)
| ThreadDecrypt (options : PenumbraDecryptionInfo.t)
    (ids sizes : list N) (readablePorts writablePorts : list nat)
| PipeTo (source : Stream) (c : nat)
    (** [source.pipeTo(w.writable)], [w] the [RemoteWritableStream] [c] *)
| FetchAndDecrypt (resource : RemoteResource.t)
| EncryptFile (options : option PenumbraEncryptionOptions.t)
    (file : PenumbraFile.t) (size : option N)
| DecryptFile (options : PenumbraDecryptionInfo.t)
    (file : PenumbraFile.t) (size : option N)
| ConsoleError (message : string).

(** [jobID] is the module-level counter; [streams] counts the remote
    streams constructed so far and names the next one. *)
Record State : Type := mkState {
  jobID : N;
  streams : nat;
  log : list Event
}.

Definition emit (e : Event) : Async unit :=
  modify (λ s, mkState (jobID s) (streams s) (log s ++ [e])).

(** [jobID++] *)
Definition jobIDpp : Async N :=
  λ s, (mkState (jobID s + 1) (streams s) (log s ++ [JobIDpp (jobID s)]),
        Fulfilled (jobID s)).

(** [new RemoteReadableStream()] *)
Definition newRemoteReadableStream : Async nat :=
  λ s, (mkState (jobID s) (S (streams s))
          (log s ++ [NewRemoteReadableStream (streams s)]),
        Fulfilled (streams s)).

(** [new RemoteWritableStream()] *)
Definition newRemoteWritableStream : Async nat :=
  λ s, (mkState (jobID s) (S (streams s))
          (log s ++ [NewRemoteWritableStream (streams s)]),
        Fulfilled (streams s)).

Definition getWorker : Async unit := emit GetWorker.
Definition import (module : string) : Async unit := emit (Import module).
Definition newChannel : Async unit := emit NewChannel.

Arguments emit e s /.
Arguments jobIDpp s /.
Arguments newRemoteReadableStream s /.
Arguments newRemoteWritableStream s /.
Arguments getWorker s /.
Arguments import module s /.
Arguments newChannel s /.

(** Maximum allowed resource size for encrypt/decrypt on the main thread *)
Definition MAX_ALLOWED_SIZE_MAIN_THREAD : N := 16 * 1024 * 1024.

Arguments MAX_ALLOWED_SIZE_MAIN_THREAD : simpl never.

(** [Promise.all(xs.map(...))] awaited inside a job.  The callbacks are
    started in turn.  A callback of the jobs below throws, if at all,
    before its first [await] and does nothing to the state after it, so
    the first rejection by position is the first in time and the promises
    can be awaited one after the other. *)
Fixpoint join {St A} (ts : list (Task A)) : Async (St:=St) (list A) :=
  match ts with
  | [] => ret []
  | t :: ts' =>
      bind (λ s, (s, t)) (λ a, bind (join ts') (λ vs, ret (a :: vs)))
  end.

Definition Promise_all_of {St X A} (f : X → Async (St:=St) A) (xs : list X)
  : Async (list A) :=
  λ s, let (s1, ts) := spawn_all f xs s in
       match first_rejected ts with
       | Some e => (s1, Rejected e)
       | None => join ts s1
       end.

Arguments Promise_all_of {St X A} f xs s /.


Section Coordinator.
Local Open Scope async_scope.

(** ['WritableStream' in self], decided once by the platform. *)
Variable writableStreamsSupported : bool.

(** [resolver.href = url; resolver.pathname]: URL parsing of the platform. *)
Variable pathname : option string → string.

(** [decrypt] of [./decrypt], a module of which only the import is known:
    taken as given. *)
Variable decryptFile :
  PenumbraDecryptionInfo.t → PenumbraFile.t → option N → PenumbraFile.t.

(** ** [getJob] *)

(** The callback of the buffered path of [getJob]. *)
Definition getJob_buffer (resource : RemoteResource.t)
  : Async PenumbraFile.t :=
  match RemoteResource.url resource with
  | None => throw "penumbra.get(): RemoteResource missing URL"
  | Some _ =>
      do await (emit (FetchAndDecrypt resource)) then
      do yield then
      ret (PenumbraFile.of_resource (arrayBuffer resource) None resource)
  end.

(** Retrieve and decrypt files (batch job).  On the streaming path the
    remote call [thread.get] is issued from a [.then] callback that nobody
    awaits; the log records it where it is registered. *)
Definition getJob (resources : list RemoteResource.t)
  : Async (list PenumbraFile.t) :=
  if length resources =? 0 then
    throw "penumbra.get() called without arguments"
  else if writableStreamsSupported then
    do await getWorker then
    let* remoteStreams := mapA (λ _, newRemoteReadableStream) resources in
    let readables :=
      zip_with
        (λ stream resource,
           let path := pathname (RemoteResource.url resource) in
           PenumbraFile.of_resource (readable stream) (Some path) resource)
        remoteStreams resources in
    let writablePorts := remoteStreams in
    do newChannel then
    do emit (ThreadGet writablePorts resources) then
    ret readables
  else
    do await (import "./fetchAndDecrypt") then
    let* decryptedFiles := await (Promise_all_of getJob_buffer resources) in
    ret decryptedFiles.

(** [async (resource) => (await getJob(resource))[0]] *)
Definition get_one (resource : RemoteResource.t)
  : Async (option PenumbraFile.t) :=
  let* files := await (getJob [resource]) in ret (files !! 0).

(** [penumbra.get()]: one job per resource.  The result is what the caller
    of [Promise.all] observes after [ticks] turns of the event loop. *)
Definition get (ticks : nat) (resources : list RemoteResource.t)
  : State → State * Settled (list (option PenumbraFile.t)) :=
  Promise_all ticks get_one resources.

(** ** [encryptJob] *)

(** The source of the pipe into a remote writable stream. *)
Definition pipe_source (stream : Stream) : Stream :=
  if instanceof_ReadableStream stream then stream
  else toWebReadableStream stream.

(** [remoteWritableStreams.forEach((remoteWritableStream, i) => ...)] *)
Definition pipe_all (remoteWritableStreams : list nat)
    (files : list PenumbraFile.t) : Async unit :=
  foldA (λ _ '(remoteWritableStream, file),
           emit (PipeTo (pipe_source (PenumbraFile.stream file))
                   remoteWritableStream))
    (zip remoteWritableStreams files) tt.

(** [remoteReadableStreams.map((stream, i) => ({ ...files[i],
    stream: stream.readable, size: sizes[i], id: ids[i] }))] *)
Definition readables_of (remoteReadableStreams : list nat)
    (files : list PenumbraFile.t) (sizes ids : list N)
  : list PenumbraFile.t :=
  imap (λ i '(stream, file),
          PenumbraFile.with_id (ids !! i)
            (PenumbraFile.with_size (sizes !! i)
               (PenumbraFile.with_stream (readable stream) file)))
    (zip remoteReadableStreams files).

(** The loop that collects file sizes and assigns job IDs; it carries the
    files as mutated so far, [ids] and [sizes]. *)
Definition collect_encrypt
    (acc : list PenumbraFile.t * list N * list N) (file : PenumbraFile.t)
  : Async (list PenumbraFile.t * list N * list N) :=
  let '(files, ids, sizes) := acc in
  let* n := jobIDpp in
  let file := PenumbraFile.with_id (Some n) file in
  let ids := ids ++ [n] in
  if truthy (PenumbraFile.size file) then
    ret (files ++ [file], ids, sizes ++ [default 0%N (PenumbraFile.size file)])
  else throw "penumbra.encrypt(): Unable to determine file size".

(** [filesWithIds.forEach(({ size = 0 }) => ...)] of the buffered path *)
Definition sum_encrypt (totalSize : N) (file : PenumbraFile.t) : Async N :=
  let totalSize := (totalSize + default 0 (PenumbraFile.size file))%N in
  if (MAX_ALLOWED_SIZE_MAIN_THREAD <? totalSize)%N then
    do emit (ConsoleError "Your browser doesn't support streaming encryption.")
    then throw
      "penumbra.encrypt(): File is too large to encrypt without writable streams"
  else ret totalSize.

(** The callback of the buffered path: [{ stream, ...file, ...options }].
    The file is spread after [stream], so the result keeps the stream of
    the file. *)
Definition encrypt_buffer (options : option PenumbraEncryptionOptions.t)
    (file : PenumbraFile.t) : Async PenumbraFile.t :=
  do emit (EncryptFile options file (PenumbraFile.size file)) then
  ret (PenumbraFile.with_options options file).

(** Encrypt files (batch job) *)
Definition encryptJob (options : option PenumbraEncryptionOptions.t)
    (files : list PenumbraFile.t) : Async (list PenumbraFile.t) :=
  if length files =? 0 then
    throw "penumbra.encrypt() called without arguments"
  else if existsb (λ file, instanceof_ArrayBuffer (PenumbraFile.stream file))
            files then
    throw "penumbra.encrypt() only supports ReadableStreams"
  else
    let* '(files, ids, sizes) := foldA collect_encrypt files ([], [], []) in
    if writableStreamsSupported then
      do await getWorker then
      let* remoteReadableStreams :=
        mapA (λ _, newRemoteReadableStream) files in
      let* remoteWritableStreams :=
        mapA (λ _, newRemoteWritableStream) files in
      let readablePorts := remoteWritableStreams in
      let writablePorts := remoteReadableStreams in
      do await (do await newChannel then
                emit (ThreadEncrypt options ids sizes
                        readablePorts writablePorts)) then
      do pipe_all remoteWritableStreams files then
      ret (readables_of remoteReadableStreams files sizes ids)
    else
      let* _ := foldA sum_encrypt files 0%N in
      do await (import "./encrypt") then
      let* encryptedFiles := await (mapA (encrypt_buffer options) files) in
      ret encryptedFiles.

(** [async (file) => (await encryptJob(options, file))[0]] *)
Definition encrypt_one (options : option PenumbraEncryptionOptions.t)
    (file : PenumbraFile.t) : Async (option PenumbraFile.t) :=
  let* files := await (encryptJob options [file]) in ret (files !! 0).

(** [penumbra.encrypt()]: one job per file. *)
Definition encrypt (ticks : nat) (options : option PenumbraEncryptionOptions.t)
    (files : list PenumbraFile.t)
  : State → State * Settled (list (option PenumbraFile.t)) :=
  Promise_all ticks (encrypt_one options) files.

(** ** [decryptJob] *)

(** [file.id || jobID++] *)
Definition id_or_next (file : PenumbraFile.t) : Async N :=
  if truthy (PenumbraFile.id file) then ret (default 0%N (PenumbraFile.id file))
  else jobIDpp.

Definition collect_decrypt
    (acc : list PenumbraFile.t * list N * list N) (file : PenumbraFile.t)
  : Async (list PenumbraFile.t * list N * list N) :=
  let '(files, ids, sizes) := acc in
  let* n := id_or_next file in
  let file := PenumbraFile.with_id (Some n) file in
  let ids := ids ++ [n] in
  if truthy (PenumbraFile.size file) then
    ret (files ++ [file], ids, sizes ++ [default 0%N (PenumbraFile.size file)])
  else throw "penumbra.decrypt(): Unable to determine file size".

(** [files.forEach(({ size = 0 }) => ...)] of the buffered path *)
Definition check_decrypt (_ : unit) (file : PenumbraFile.t) : Async unit :=
  if (MAX_ALLOWED_SIZE_MAIN_THREAD <? default 0 (PenumbraFile.size file))%N then
    do emit (ConsoleError "Your browser doesn't support streaming decryption.")
    then throw
      "penumbra.decrypt(): File is too large to decrypt without writable streams"
  else ret tt.

Definition decrypt_buffer (options : PenumbraDecryptionInfo.t)
    (file : PenumbraFile.t) : Async PenumbraFile.t :=
  do emit (DecryptFile options file (PenumbraFile.size file)) then
  ret (decryptFile options file (PenumbraFile.size file)).

(** Decrypt files encrypted by penumbra.encrypt() (batch job) *)
Definition decryptJob (options : PenumbraDecryptionInfo.t)
    (files : list PenumbraFile.t) : Async (list PenumbraFile.t) :=
  if length files =? 0 then
    throw "penumbra.decrypt() called without arguments"
  else if writableStreamsSupported then
    do await getWorker then
    let* remoteReadableStreams := mapA (λ _, newRemoteReadableStream) files in
    let* remoteWritableStreams := mapA (λ _, newRemoteWritableStream) files in
    let* '(files, ids, sizes) := foldA collect_decrypt files ([], [], []) in
    let readablePorts := remoteWritableStreams in
    let writablePorts := remoteReadableStreams in
    do await (do await newChannel then
              emit (ThreadDecrypt options ids sizes
                      readablePorts writablePorts)) then
    do pipe_all remoteWritableStreams files then
    ret (readables_of remoteReadableStreams files sizes ids)
  else
    do foldA check_decrypt files tt then
    do await (import "./decrypt") then
    let* decryptedFiles := await (Promise_all_of (decrypt_buffer options) files) in
    ret decryptedFiles.

(** [async (file) => (await decryptJob(options, file))[0]] *)
Definition decrypt_one (options : PenumbraDecryptionInfo.t)
    (file : PenumbraFile.t) : Async (option PenumbraFile.t) :=
  let* files := await (decryptJob options [file]) in ret (files !! 0).

(** [penumbra.decrypt()]: one job per file. *)
Definition decrypt (ticks : nat) (options : PenumbraDecryptionInfo.t)
    (files : list PenumbraFile.t)
  : State → State * Settled (list (option PenumbraFile.t)) :=
  Promise_all ticks (decrypt_one options) files.

End Coordinator.


(** * The worker-facing surface: [PenumbraWorker] *)

Module PenumbraWorker.
Local Open Scope async_scope.

(** What a job of the worker pipes into a writable port. *)
Inductive Source : Type :=
| Fetched (resource : RemoteResource.t)
    (** the stream of [fetchAndDecrypt(resource, requestInit)] *)
| Encrypted (readablePort : nat)
    (** [encrypt(options, { stream, size, id }).stream], [stream] read from
        the port *)
| Decrypted (readablePort : nat).

Inductive Event : Type :=
| ConsoleWarn (message : string)
| FromWritablePort (port : nat)
| FromReadablePort (port : nat)
| FetchAndDecrypt (resource : RemoteResource.t) (requestInit : option string)
| Encrypt (options : option PenumbraEncryptionOptions.t) (readablePort : nat)
    (size id : option N)
| Decrypt (options : PenumbraDecryptionInfo.t) (readablePort : nat)
    (size id : option N)
| PipeTo (source : Source) (writablePort : nat).

Definition State : Type := list Event.

Definition emit (e : Event) : Async unit := modify (λ log : State, log ++ [e]).

Arguments emit e s /.

(** [xs.forEach(async (x, i) => ...)]: the callbacks are started in turn;
    nobody awaits their promises, which are returned here to be observed. *)
Definition forEach_async {X} (f : X → nat → Async unit) (xs : list X)
  : Async (St:=State) (list (Task unit)) :=
  λ s, let (s', ts) := spawn_all (λ ix, f ix.2 ix.1) (imap pair xs) s in
       (s', Fulfilled ts).

Arguments forEach_async {X} f xs s /.

(** The template literal of the warning:
    [`${left} (${a}) <-> ${right} (${b}) count mismatch. Truncating to
    common subset (${n}).`] *)
Definition count_mismatch (left right : string) (a b n : nat) : string :=
  left +:+ " (" +:+ pretty a +:+ ") <-> " +:+ right +:+ " (" +:+ pretty b +:+
  ") count mismatch. Truncating to common subset (" +:+ pretty n +:+ ").".

(** [fromWritablePort(writablePorts[i])]; out of range the port is
    [undefined] and the call throws. *)
Definition fromWritablePort (writablePorts : list nat) (i : nat) : Async nat :=
  match writablePorts !! i with
  | Some port => do emit (FromWritablePort port) then ret port
  | None => throw "TypeError"
  end.

Definition fromReadablePort (readablePorts : list nat) (i : nat) : Async nat :=
  match readablePorts !! i with
  | Some port => do emit (FromReadablePort port) then ret port
  | None => throw "TypeError"
  end.

(** Fetches remote files from URLs, deciphers them (if encrypted), and
    pipes them into the writable ports. *)
Definition get (writablePorts : list nat) (resources : list RemoteResource.t)
  : Async (list (Task unit)) :=
  let writableCount := length writablePorts in
  let resourceCount := length resources in
  let* '(writablePorts, resources) :=
    if negb (writableCount =? resourceCount) then
      let n := writableCount `min` resourceCount in
      let writablePorts := take n writablePorts in
      let resources := take n resources in
      do emit (ConsoleWarn
                 (count_mismatch "Writable ports" "Resources"
                    writableCount resourceCount (length writablePorts)))
      then ret (writablePorts, resources)
    else ret (writablePorts, resources) in
  forEach_async
    (λ resource i,
       match RemoteResource.url resource with
       | None =>
           throw "PenumbraDecryptionWorker.get(): RemoteResource missing URL"
       | Some _ =>
           let requestInit := RemoteResource.requestInit resource in
           let* remoteStream := fromWritablePort writablePorts i in
           do await (emit (FetchAndDecrypt resource requestInit)) then
           emit (PipeTo (Fetched resource) remoteStream)
       end)
    resources.

(** The count check shared by [decrypt] and [encrypt].  The message names
    the two counts in the order in which the source prints them. *)
Definition truncate_ports (readablePorts writablePorts : list nat)
  : Async (list nat * list nat) :=
  let writableCount := length writablePorts in
  let readableCount := length readablePorts in
  if negb (writableCount =? readableCount) then
    let n := writableCount `min` readableCount in
    let readablePorts := take n readablePorts in
    let writablePorts := take n writablePorts in
    do emit (ConsoleWarn
               (count_mismatch "Readable ports" "Writable ports"
                  writableCount readableCount (length writablePorts)))
    then ret (readablePorts, writablePorts)
  else ret (readablePorts, writablePorts).

(** Streaming decryption of ReadableStreams *)
Definition decrypt (options : PenumbraDecryptionInfo.t) (ids sizes : list N)
    (readablePorts writablePorts : list nat) : Async (list (Task unit)) :=
  let* '(readablePorts, writablePorts) :=
    truncate_ports readablePorts writablePorts in
  forEach_async
    (λ (readablePort : nat) i,
       let* stream := fromReadablePort readablePorts i in
       let* writable := fromWritablePort writablePorts i in
       let id := ids !! i in
       let size := sizes !! i in
       do emit (Decrypt options stream size id) then
       emit (PipeTo (Decrypted stream) writable))
    readablePorts.

(** Streaming encryption of ReadableStreams *)
Definition encrypt (options : option PenumbraEncryptionOptions.t)
    (ids sizes : list N) (readablePorts writablePorts : list nat)
  : Async (list (Task unit)) :=
  let* '(readablePorts, writablePorts) :=
    truncate_ports readablePorts writablePorts in
  forEach_async
    (λ (readablePort : nat) i,
       let* stream := fromReadablePort readablePorts i in
       let* writable := fromWritablePort writablePorts i in
       let id := ids !! i in
       let size := sizes !! i in
       do emit (Encrypt options stream size id) then
       emit (PipeTo (Encrypted stream) writable))
    readablePorts.

(** The warnings in a log, oldest first. *)
Definition warnings (log : State) : list string :=
  omap (λ e, match e with ConsoleWarn message => Some message | _ => None end)
    log.

(** Nothing is added to the warnings between [s] and [s']. *)
Definition same_warnings (s s' : State) : Prop := warnings s' = warnings s.

(** The promises of the callbacks, [ticks] turns later. *)
Definition run (ticks : nat) (m : Async (list (Task unit)))
  : State → State * (Task (list (Task unit))) :=
  λ s, let (s1, t) := m s in
       match t with
       | Fulfilled ts =>
           let '(s2, (ts', _)) := event_loop ticks ts None s1 in
           (s2, Fulfilled ts')
       | _ => (s1, t)
       end.

End PenumbraWorker.

(** * Job completion and [getDecryptionInfo] *)

Module Completion.

(** The [id] of a completion event and the key of [decryptionConfigs]:
    [string | number], the numbers being natural numbers as the values of
    [jobID++] are.  As keys of a [Map] a number and a string are always
    different. *)
Inductive ID : Type :=
| Num (n : N)
| Str (s : string).

#[global] Instance ID_eq_dec : EqDecision ID.
Proof. solve_decision. Defined.

#[global] Instance ID_countable : Countable ID.
Proof.
  refine (inj_countable'
            (λ i, match i with Num n => inl n | Str s => inr s end)
            (λ x, match x with inl n => Num n | inr s => Str s end) _).
  by intros [].
Defined.

(** The [detail] of a [penumbra-complete] event. *)
Record JobCompletionEmit : Type := mkEmit {
  id : ID;
  decryptionInfo : PenumbraDecryptionInfo.t
}.

(** A listener added by [trackJobCompletion]; [promise] names the promise
    that its [complete] resolves. *)
Record Listener : Type := mkListener {
  promise : nat;
  searchForID : option ID
}.

#[global] Instance Listener_eq_dec : EqDecision Listener.
Proof. solve_decision. Defined.

Record State : Type := mkState {
  decryptionConfigs : gmap ID PenumbraDecryptionInfo.t;
  listeners : list Listener;
      (** the [penumbra-complete] listeners of [self], in the order added *)
  resolved : gmap nat PenumbraDecryptionInfo.t;
      (** the promises of [trackJobCompletion] resolved so far *)
  promises : nat
      (** how many promises [trackJobCompletion] has created *)
}.

(** What [getDecryptionInfo] returns: a promise already fulfilled, or the
    promise of [trackJobCompletion]. *)
Inductive Promise : Type :=
| Fulfilled_with (info : PenumbraDecryptionInfo.t)
| Tracking (promise : nat).

(** [complete(decryptionInfo)]: resolving a promise again does nothing. *)
Definition complete (p : nat) (info : PenumbraDecryptionInfo.t)
    (resolved : gmap nat PenumbraDecryptionInfo.t)
  : gmap nat PenumbraDecryptionInfo.t :=
  match resolved !! p with
  | Some _ => resolved
  | None => <[p := info]> resolved
  end.

(** Decimal digits: what [Number::toString] yields for the natural
    numbers below 10^21 (from 10^21 on JavaScript prints an exponent).
    It stands for [Number::toString] in the examples, on small numbers. *)
Definition decimal (n : N) : string := pretty n.

Section Dispatch.

(** What [ToString] makes of a number: [Number::toString] of the
    platform, taken as given. *)
Variable Number_toString : N → string.

(** The template literal [`${id}`]. *)
Definition template (i : ID) : string :=
  match i with
  | Num n => Number_toString n
  | Str s => s
  end.

(** The body of [listener]. *)
Definition listener (l : Listener) (e : JobCompletionEmit) (s : State)
  : State :=
  let configs := <[id e := decryptionInfo e]> (decryptionConfigs s) in
  match searchForID l with
  | Some searchForID =>
      if decide (template (id e) = template searchForID) then
        mkState configs
          (filter (λ l', promise l' ≠ promise l) (listeners s))
          (complete (promise l) (decryptionInfo e) (resolved s))
          (promises s)
      else mkState configs (listeners s) (resolved s) (promises s)
  | None => mkState configs (listeners s) (resolved s) (promises s)
  end.

(** A [penumbra-complete] event is dispatched on [self]: the listeners
    registered at that moment run in the order in which they were added
    (a listener removes nothing but itself). *)
Definition dispatch (e : JobCompletionEmit) (s : State) : State :=
  foldl (λ s l, listener l e s) s (listeners s).

Definition dispatch_all (es : list JobCompletionEmit) (s : State) : State :=
  foldl (λ s e, dispatch e s) s es.

(** The event [e] is one that a listener searching for [i] accepts. *)
Definition matches (i : ID) (e : JobCompletionEmit) : Prop :=
  template (id e) = template i.

End Dispatch.

Definition trackJobCompletion (searchForID : option ID) (s : State)
  : State * Promise :=
  (mkState (decryptionConfigs s)
     (listeners s ++ [mkListener (promises s) searchForID])
     (resolved s) (S (promises s)),
   Tracking (promises s)).

(** Get the decryption config for an encrypted file *)
Definition getDecryptionInfo (id : option ID) (s : State) : State * Promise :=
  match id ≫= λ id, decryptionConfigs s !! id with
  | None => trackJobCompletion id s
  | Some info => (s, Fulfilled_with info)
  end.

(** The value a promise has been fulfilled with, if any. *)
Definition value (s : State) (p : Promise) : option PenumbraDecryptionInfo.t :=
  match p with
  | Fulfilled_with info => Some info
  | Tracking p => resolved s !! p
  end.

(** The promises that exist are those handed out so far: every listener
    resolves one of them, and none of the others is resolved. *)
Definition promises_ok (s : State) : Prop :=
  Forall (λ l, promise l < promises s) (listeners s) ∧
  ∀ p, promises s ≤ p → resolved s !! p = None.

(** The listener of promise [p], which searches for [i], is registered and
    has not resolved [p] yet; no other listener resolves [p]. *)
Definition waiting (p : nat) (i : ID) (s : State) : Prop :=
  mkListener p (Some i) ∈ listeners s ∧
  resolved s !! p = None ∧
  Forall (λ l, promise l = p → l = mkListener p (Some i)) (listeners s).

(** The state when the module is loaded. *)
Definition initial : State := mkState ∅ [] ∅ 0.

End Completion.

(** * [getBlob] and [getTextOrURI] *)

Module TextOrURI.
Local Open Scope async_scope.

Definition DEFAULT_MIME_TYPE : string := "application/octet-stream".

(** A [Blob], named by how it was made. *)
Inductive Blob : Type :=
| BlobOfBuffer (stream : Stream)
    (** [new Blob([new Uint8Array(file.stream, 0, file.stream.byteLength)])] *)
| BlobOfResponse (rs : Stream) (contentType : string)
    (** [new Response(rs, { headers }).blob()] *).

(** Modelled from the spec: [blobCache] of [./utils] is the process-wide
    list of the object URLs that are to be revoked later; [get] returns the
    list and [set] stores it.  [objectURLs] is the URL store of the
    platform: [URL.createObjectURL] registers the blob under a URL that was
    never handed out before, here [blob:] followed by a serial number. *)
Record State : Type := mkState {
  objectURLs : list Blob;
  blobCache : list string
}.

Inductive Kind : Type := text | uri.

Record PenumbraTextOrURI : Type := mk {
  type : Kind;
  data : string;
  mimetype : string
}.

(** The argument of [getBlob]: [PenumbraFile[] | PenumbraFile |
    ReadableStream]. *)
Inductive Files : Type :=
| Array (files : list PenumbraFile.t)
| File (file : PenumbraFile.t)
| Readable (rs : Stream).

(** [a || b] on optional strings: [undefined] and the empty string are
    falsy. *)
Definition or_string (a : option string) (b : string) : string :=
  match a with
  | Some s => if decide (s = "") then b else s
  | None => b
  end.

Definition blob_of_file (file : PenumbraFile.t) (type : option string)
  : Async (St:=State) Blob :=
  if instanceof_ArrayBuffer (PenumbraFile.stream file) then
    ret (BlobOfBuffer (PenumbraFile.stream file))
  else
    let rs := PenumbraFile.stream file in
    let fileType := PenumbraFile.mimetype file in
    await (ret (BlobOfResponse rs
                  (or_string type (or_string fileType DEFAULT_MIME_TYPE)))).

(** Load files retrieved by Penumbra into memory as a Blob *)
Definition getBlob (files : Files) (type : option string)
  : Async (St:=State) Blob :=
  match files with
  | Array (_ :: _ :: _) =>
      throw "penumbra.getBlob(): Called with multiple files"
  | Readable rs =>
      await (ret (BlobOfResponse rs (or_string type DEFAULT_MIME_TYPE)))
  | Array [] => throw "TypeError"
  | Array [file] => blob_of_file file type
  | File file => blob_of_file file type
  end.

(** [URL.createObjectURL(blob)] *)
Definition createObjectURL (blob : Blob) : Async (St:=State) string :=
  λ s, (mkState (objectURLs s ++ [blob]) (blobCache s),
        Fulfilled ("blob:" +:+ pretty (length (objectURLs s)))).

(** [const cache = blobCache.get(); cache.push(new URL(url));
    blobCache.set(cache);] *)
Definition cache_push (url : string) : Async (St:=State) unit :=
  modify (λ s, let cache := blobCache s in
               let cache := cache ++ [url] in
               mkState (objectURLs s) cache).

Arguments createObjectURL blob s /.
Arguments cache_push url s /.

Section GetTextOrURI.

(** [isViewableText] of [./utils], of which only the import is known: the
    MIME types designated viewable text. *)
Variable isViewableText : string → bool.

(** [await new Response(stream).text()]: the contents of the stream. *)
Variable responseText : Stream → string.

(** The callback of [getTextOrURI]. *)
Definition textOrURI (file : PenumbraFile.t) : Async PenumbraTextOrURI :=
  let mimetype := default "" (PenumbraFile.mimetype file) in
  if isViewableText mimetype then
    let* data := await (ret (responseText (PenumbraFile.stream file))) in
    ret (mk text data mimetype)
  else
    let* blob := await (getBlob (File file) None) in
    let* url := createObjectURL blob in
    do cache_push url then
    ret (mk uri url mimetype).

(** Get file text (if content is viewable) or URI (if content is not
    viewable): the promises, as they are when the function returns. *)
Definition getTextOrURI (files : list PenumbraFile.t)
  : State → State * list (Task PenumbraTextOrURI) :=
  spawn_all textOrURI files.

(** The same promises [ticks] turns later. *)
Definition getTextOrURI_after (ticks : nat) (files : list PenumbraFile.t)
  : State → State * list (Task PenumbraTextOrURI) :=
  λ s, let (s1, ts) := getTextOrURI files s in
       let '(s2, (ts', _)) := event_loop ticks ts None s1 in
       (s2, ts').

End GetTextOrURI.

(** The URI of a result, if it has one. *)
Definition uri_of (r : PenumbraTextOrURI) : list string :=
  match type r with
  | uri => [data r]
  | text => []
  end.

(** The cache holds object URLs that the platform has handed out, each
    once. *)
Definition cache_ok (s : State) : Prop :=
  NoDup (blobCache s) ∧
  Forall (λ u, ∃ k, u = "blob:" +:+ pretty k ∧ k < length (objectURLs s))
    (blobCache s).

(** Between [s] and [s'] the cache has stayed in order. *)
Definition keeps_cache (s s' : State) : Prop := cache_ok s → cache_ok s'.

(** The result for [file]: text exactly for a MIME type that is viewable
    text, with the contents of the file inline. *)
Definition result_for (isViewableText : string → bool)
    (responseText : Stream → string) (file : PenumbraFile.t)
    (r : PenumbraTextOrURI) : Prop :=
  mimetype r = default "" (PenumbraFile.mimetype file) ∧
  type r = (if isViewableText (mimetype r) then text else uri) ∧
  (isViewableText (mimetype r) = true →
   data r = responseText (PenumbraFile.stream file)).

(** The state when the module is loaded. *)
Definition initial : State := mkState [] [].

End TextOrURI.

(** * Vocabulary of the properties *)

Section AsyncSpec.
Context {St : Type}.

(** [t] is fulfilled within [n] turns, whatever the state it is resumed
    in, with a value that satisfies [Φ]. *)
Fixpoint resolves_within {A} (n : nat) (Φ : A → Prop) (t : Task (St:=St) A)
  {struct t} : Prop :=
  match t with
  | Fulfilled a => Φ a
  | Rejected _ => False
  | Await k =>
      match n with
      | 0 => False
      | S n' => ∀ s, resolves_within n' Φ (k s).2
      end
  end.

(** [t] is rejected with [e] at turn [p] exactly. *)
Fixpoint rejects_at {A} (p : nat) (e : Error) (t : Task (St:=St) A)
  {struct t} : Prop :=
  match t with
  | Fulfilled _ => False
  | Rejected e' => p = 0 ∧ e' = e
  | Await k =>
      match p with
      | 0 => False
      | S p' => ∀ s, rejects_at p' e (k s).2
      end
  end.

(** [t] is not rejected before turn [p]. *)
Fixpoint quiet {A} (p : nat) (t : Task (St:=St) A) {struct t} : Prop :=
  match t with
  | Fulfilled _ => True
  | Rejected _ => p = 0
  | Await k =>
      match p with
      | 0 => True
      | S p' => ∀ s, quiet p' (k s).2
      end
  end.

(** Every turn of [t] changes the state within [G], and the turn in which
    [t] is fulfilled with [a] changes it within [R a]. *)
Fixpoint runs {A} (G : St → St → Prop) (R : A → St → St → Prop)
    (t : Task (St:=St) A) {struct t} : Prop :=
  match t with
  | Await k =>
      ∀ s, match (k s).2 with
           | Fulfilled a => R a s (k s).1
           | _ => G s (k s).1
           end ∧ runs G R (k s).2
  | _ => True
  end.

(** The same for a call: the code up to the first [await] included. *)
Definition Runs {A} (G : St → St → Prop) (R : A → St → St → Prop)
    (m : Async (St:=St) A) : Prop :=
  ∀ s, match (m s).2 with
       | Fulfilled a => R a s (m s).1
       | _ => G s (m s).1
       end ∧ runs G R (m s).2.

(** What the fulfilled promises among [ts] have put out, when a promise
    fulfilled with [a] has put out [out a]. *)
Definition outputs {A B} (out : A → list B) (ts : list (Task (St:=St) A))
  : list B :=
  ts ≫= λ t, match t with Fulfilled a => out a | _ => [] end.

(** The values of a counter of the state before each of the calls that
    [spawn_all] or [round] makes for [xs], when the call for [x] moves the
    counter from [c] to [next x c]. *)
Fixpoint counter_trace {X C} (next : X → C → C) (c : C) (xs : list X)
  : list C :=
  match xs with
  | [] => []
  | x :: xs' => c :: counter_trace next (next x c) xs'
  end.

(** From the state [s] on, [t] changes the state within [G] in every
    turn, whatever is done to the state within [G] between its turns, and
    when it is fulfilled with [a], [Ψ a] holds of the state. *)
Fixpoint delivers {A} (G : St → St → Prop) (Ψ : A → St → Prop)
    (t : Task (St:=St) A) (s : St) {struct t} : Prop :=
  match t with
  | Fulfilled a => Ψ a s
  | Rejected _ => True
  | Await k =>
      ∀ s1, G s s1 → G s1 (k s1).1 ∧ delivers G Ψ (k s1).2 (k s1).1
  end.

(** Until it is fulfilled, [t] adds [n] to the count [cnt] of the state,
    in whatever state it is resumed; nothing is said of a promise that is
    rejected. *)
Fixpoint spends {A} (cnt : St → nat) (n : nat) (t : Task (St:=St) A)
  {struct t} : Prop :=
  match t with
  | Fulfilled _ => n = 0
  | Rejected _ => True
  | Await k =>
      ∀ s, ∃ m, m ≤ n ∧ cnt (k s).1 = cnt s + m ∧ spends cnt (n - m) (k s).2
  end.

End AsyncSpec.

Arguments outputs {St A B} out ts : simpl never.

(** ** Batches and their results *)

(** A resource that can be fetched. *)
Definition valid_resource (resource : RemoteResource.t) : Prop :=
  is_Some (RemoteResource.url resource).

(** A file that [encrypt] and [decrypt] accept: a live stream of known,
    non-zero size, which is within the ceiling of the buffered path when
    that path is taken. *)
Definition valid_file (writableStreamsSupported : bool)
    (file : PenumbraFile.t) : Prop :=
  instanceof_ArrayBuffer (PenumbraFile.stream file) = false ∧
  truthy (PenumbraFile.size file) = true ∧
  (writableStreamsSupported = false →
   (default 0 (PenumbraFile.size file) ≤ MAX_ALLOWED_SIZE_MAIN_THREAD)%N).

(** The result of [get] that corresponds to [resource]: the resource with
    the stream that delivers it. *)
Definition get_result (writableStreamsSupported : bool)
    (pathname : option string → string)
    (resource : RemoteResource.t) (r : option PenumbraFile.t) : Prop :=
  if writableStreamsSupported then
    ∃ c, r = Some (PenumbraFile.of_resource (readable c)
                     (Some (pathname (RemoteResource.url resource))) resource)
  else r = Some (PenumbraFile.of_resource (arrayBuffer resource) None resource).

(** The result of [encrypt] that corresponds to [file], with job id [n]. *)
Definition encrypt_result (writableStreamsSupported : bool)
    (options : option PenumbraEncryptionOptions.t)
    (file : PenumbraFile.t) (n : N) (r : option PenumbraFile.t) : Prop :=
  if writableStreamsSupported then
    ∃ c, r = Some (PenumbraFile.with_id (Some n)
                     (PenumbraFile.with_stream (readable c) file))
  else r = Some (PenumbraFile.with_options options
                   (PenumbraFile.with_id (Some n) file)).

(** The result of the streaming [decrypt] that corresponds to [file], with
    job id [n]. *)
Definition decrypt_stream_result (file : PenumbraFile.t) (n : N)
    (r : option PenumbraFile.t) : Prop :=
  ∃ c, r = Some (PenumbraFile.with_id (Some n)
                   (PenumbraFile.with_stream (readable c) file)).

(** The result of [decrypt] that corresponds to [file]. *)
Definition decrypt_result (writableStreamsSupported : bool)
    (decryptFile :
       PenumbraDecryptionInfo.t → PenumbraFile.t → option N → PenumbraFile.t)
    (options : PenumbraDecryptionInfo.t)
    (file : PenumbraFile.t) (r : option PenumbraFile.t) : Prop :=
  if writableStreamsSupported then ∃ n, decrypt_stream_result file n r
  else r = Some (decryptFile options file (PenumbraFile.size file)).

(** ** The counter and the log *)

(** The values of [jobID++] in a log, oldest first. *)
Definition drawn (log : list Event) : list N :=
  omap (λ e, match e with JobIDpp n => Some n | _ => None end) log.

(** The identifiers drawn so far increase strictly and lie below the
    counter. *)
Definition counter_ok (s : State) : Prop :=
  StronglySorted N.lt (drawn (log s)) ∧
  Forall (λ n, (n < jobID s)%N) (drawn (log s)).

(** An event that respects the ceiling of the buffered path: a file handed
    to [encryptFile] or [decryptFile] declares at most 16 MiB. *)
Definition within_ceiling (e : Event) : Prop :=
  match e with
  | EncryptFile _ file _ | DecryptFile _ file _ =>
      (default 0 (PenumbraFile.size file) ≤ MAX_ALLOWED_SIZE_MAIN_THREAD)%N
  | _ => True
  end.

(** [steps P s s']: the calling context has gone from [s] to [s'] by
    evaluating [jobID++] and by doing things that satisfy [P]. *)
Inductive steps (P : Event → Prop) (s : State) : State → Prop :=
| steps_start c : steps P s (mkState (jobID s) c (log s))
| steps_draw j c l c' :
    steps P s (mkState j c l) →
    steps P s (mkState (j + 1) c' (l ++ [JobIDpp j]))
| steps_emit j c l c' e :
    steps P s (mkState j c l) →
    match e with JobIDpp _ => False | _ => P e end →
    steps P s (mkState j c' (l ++ [e])).

(** The log entries of [s'] that [s] does not have. *)
Definition log_since (s s' : State) : list Event :=
  drop (length (log s)) (log s').

(** The files without a truthy [id] among the first [i]: the number of
    identifiers that [decrypt] draws for them. *)
Definition drawn_before (files : list PenumbraFile.t) (i : nat) : N :=
  N.of_nat (length (filter (λ file, truthy (PenumbraFile.id file) = false)
                      (take i files))).

(** The log of [s'] continues the log of [s]. *)
Definition grows (s s' : State) : Prop := log s `prefix_of` log s'.

(** ** Results and footprints, by position *)

(** The handle that [get] returns for [resource]: on the streaming path
    it reads from the remote stream [c]. *)
Definition get_handle (w : bool) (pathname : option string → string)
    (resource : RemoteResource.t) (c : nat) : PenumbraFile.t :=
  if w then
    PenumbraFile.of_resource (readable c)
      (Some (pathname (RemoteResource.url resource))) resource
  else PenumbraFile.of_resource (arrayBuffer resource) None resource.

(** What [get] does for [resource]: on the streaming path it makes the
    remote stream [c] and hands its port to the worker together with the
    resource; on the buffered path it fetches the resource itself. *)
Definition get_footprint (w : bool) (resource : RemoteResource.t) (c : nat)
  : list Event :=
  if w then [NewRemoteReadableStream c; ThreadGet [c] [resource]]
  else [FetchAndDecrypt resource].

(** The handle that [encrypt] returns for [file] with job id [n]: on the
    streaming path it reads from the remote stream [c]. *)
Definition encrypt_handle (w : bool)
    (options : option PenumbraEncryptionOptions.t) (file : PenumbraFile.t)
    (n : N) (c : nat) : PenumbraFile.t :=
  if w then PenumbraFile.with_id (Some n)
              (PenumbraFile.with_stream (readable c) file)
  else PenumbraFile.with_options options (PenumbraFile.with_id (Some n) file).

(** What [encrypt] does for [file] with job id [n]: on the streaming path
    it makes the remote streams [c] and [c + 1], hands their ports to the
    worker with the id and the size of the file, and pipes the stream of
    the file into [c + 1]; on the buffered path it encrypts the file
    itself. *)
Definition encrypt_footprint (w : bool)
    (options : option PenumbraEncryptionOptions.t) (file : PenumbraFile.t)
    (n : N) (c : nat) : list Event :=
  if w then
    [NewRemoteReadableStream c; NewRemoteWritableStream (S c);
     ThreadEncrypt options [n] [default 0%N (PenumbraFile.size file)]
       [S c] [c];
     PipeTo (pipe_source (PenumbraFile.stream file)) (S c)]
  else
    [EncryptFile options (PenumbraFile.with_id (Some n) file)
       (PenumbraFile.size file)].

(** The handle that [decrypt] returns for [file]. *)
Definition decrypt_handle (w : bool)
    (decryptFile :
       PenumbraDecryptionInfo.t → PenumbraFile.t → option N → PenumbraFile.t)
    (options : PenumbraDecryptionInfo.t) (file : PenumbraFile.t)
    (n : N) (c : nat) : PenumbraFile.t :=
  if w then PenumbraFile.with_id (Some n)
              (PenumbraFile.with_stream (readable c) file)
  else decryptFile options file (PenumbraFile.size file).

(** What [decrypt] does for [file]. *)
Definition decrypt_footprint (w : bool)
    (options : PenumbraDecryptionInfo.t) (file : PenumbraFile.t)
    (n : N) (c : nat) : list Event :=
  if w then
    [NewRemoteReadableStream c; NewRemoteWritableStream (S c);
     ThreadDecrypt options [n] [default 0%N (PenumbraFile.size file)]
       [S c] [c];
     PipeTo (pipe_source (PenumbraFile.stream file)) (S c)]
  else [DecryptFile options file (PenumbraFile.size file)].

(** The job id of the [i]-th file of a streaming [decrypt] that starts in
    [s]: [file.id || jobID++]. *)
Definition id_or_drawn (s : State) (files : list PenumbraFile.t) (i : nat)
    (file : PenumbraFile.t) : N :=
  if truthy (PenumbraFile.id file) then default 0%N (PenumbraFile.id file)
  else (jobID s + drawn_before files i)%N.

(** ** Sample inputs *)

(** The calling context when the module is loaded. *)
Definition initial : State := mkState 0 0 [].

Definition sample_resource : RemoteResource.t :=
  RemoteResource.mk (Some "https://example.com/NYT.txt.enc") None
    (Some "NYT") (Some "text/plain") None None.

Definition other_resource : RemoteResource.t :=
  RemoteResource.mk (Some "https://example.com/tortoise.jpg.enc") None
    (Some "tortoise") (Some "image/jpeg") None None.

(** A live stream [h] with the declared [size]. *)
Definition sample_file (h : N) (size : option N) : PenumbraFile.t :=
  PenumbraFile.mk None (ReadableStream h) size None None None None None None
    None None.

(** A materialized buffer [h] with the declared [size]. *)
Definition sample_buffer (h : N) (size : option N) : PenumbraFile.t :=
  PenumbraFile.mk None (ArrayBuffer h) size None None None None None None
    None None.

Definition sample_info : PenumbraDecryptionInfo.t :=
  PenumbraDecryptionInfo.mk "key" "iv" "tag".

Definition other_info : PenumbraDecryptionInfo.t :=
  PenumbraDecryptionInfo.mk "key2" "iv2" "tag2".

Definition sample_pathname (url : option string) : string := "/NYT.txt.enc".

(** A stand-in for [decrypt] of [./decrypt]: the file with its id kept. *)
Definition sample_decryptFile (options : PenumbraDecryptionInfo.t)
    (file : PenumbraFile.t) (size : option N) : PenumbraFile.t :=
  file.

Definition MiB : N := 1024 * 1024.

(** * The batch jobs on their own *)

Section Alone.
Context {St : Type}.

(** [ticks] turns of an event loop that holds the one promise [t]. *)
Fixpoint settle {A} (ticks : nat) (t : Task (St:=St) A) (s : St)
  : St * Task A :=
  match ticks with
  | 0 => (s, t)
  | S n => let (s', t') := resume t s in settle n t' s'
  end.

(** The call [m] and [ticks] turns after it, nothing else running. *)
Definition alone {A} (ticks : nat) (m : Async (St:=St) A) (s : St)
  : St * Task A :=
  let (s1, t) := m s in settle ticks t s1.
End Alone.

(** The identifiers [j], [j + 1], ... that [n] evaluations of [jobID++]
    yield. *)
Definition ids_from (j : N) (n : nat) : list N :=
  (λ i, (j + N.of_nat i)%N) <$> seq 0 n.

(** The declared sizes of a batch, an absent size counting as 0. *)
Definition sizes_of (files : list PenumbraFile.t) : list N :=
  (λ file, default 0%N (PenumbraFile.size file)) <$> files.

(** The total of the declared sizes of a batch. *)
Definition total_size (files : list PenumbraFile.t) : N :=
  foldr N.add 0%N (sizes_of files).

(** The handle that the streaming [encryptJob] returns for its [i]-th
    file, when the job starts at identifier [j] and at remote stream [c]. *)
Definition handle_of (j : N) (c : nat) (i : nat) (file : PenumbraFile.t)
  : PenumbraFile.t :=
  PenumbraFile.with_id (Some (j + N.of_nat i)%N)
    (PenumbraFile.with_stream (readable (c + i)) file).

(** The files of a job that starts at identifier [j], with the identifiers
    that [encryptJob] assigns to them. *)
Definition numbered (j : N) (files : list PenumbraFile.t)
  : list PenumbraFile.t :=
  imap (λ i file, PenumbraFile.with_id (Some (j + N.of_nat i)%N) file) files.

(** The identifiers of a streaming [decryptJob] that starts at [j]: a file
    keeps an id that is truthy, the others take the values of the counter
    in turn. *)
Fixpoint ids_kept (j : N) (files : list PenumbraFile.t) : list N :=
  match files with
  | [] => []
  | file :: files' =>
      if truthy (PenumbraFile.id file)
      then default 0%N (PenumbraFile.id file) :: ids_kept j files'
      else j :: ids_kept (j + 1) files'
  end.

(** The files of a batch that carry no truthy id. *)
Definition without_id (files : list PenumbraFile.t) : list PenumbraFile.t :=
  filter (λ file, truthy (PenumbraFile.id file) = false) files.

(** The files of a batch whose stream is not a materialized buffer. *)
Definition live (files : list PenumbraFile.t) : list PenumbraFile.t :=
  filter (λ file, instanceof_ArrayBuffer (PenumbraFile.stream file) = false)
    files.

Definition too_large_to_encrypt : Error :=
  "penumbra.encrypt(): File is too large to encrypt without writable streams".

Definition too_large_to_decrypt : Error :=
  "penumbra.decrypt(): File is too large to decrypt without writable streams".

(** * Further vocabulary for the calls *)

(** Nothing is drawn from the counter between [s] and [s']. *)
Definition same_counter (s s' : State) : Prop := jobID s' = jobID s.

(** A remote call that carries one job: one resource or file, one
    identifier, one size, and one port for each direction. *)
Definition single_job (e : Event) : Prop :=
  match e with
  | ThreadGet writablePorts resources =>
      length writablePorts = 1 ∧ length resources = 1
  | ThreadEncrypt _ ids sizes readablePorts writablePorts
  | ThreadDecrypt _ ids sizes readablePorts writablePorts =>
      length ids = 1 ∧ length sizes = 1 ∧
      length readablePorts = 1 ∧ length writablePorts = 1
  | _ => True
  end.

(** What the worker runs for a remote call of the calling context. *)
Definition worker_call (e : Event)
  : option (Async (St:=PenumbraWorker.State) (list (Task unit))) :=
  match e with
  | ThreadGet writablePorts resources =>
      Some (PenumbraWorker.get writablePorts resources)
  | ThreadEncrypt options ids sizes readablePorts writablePorts =>
      Some (PenumbraWorker.encrypt options ids sizes readablePorts
              writablePorts)
  | ThreadDecrypt options ids sizes readablePorts writablePorts =>
      Some (PenumbraWorker.decrypt options ids sizes readablePorts
              writablePorts)
  | _ => None
  end.

(** The number of remote calls in a log. *)
Definition remote_calls (l : list Event) : nat := length (omap worker_call l).

Arguments remote_calls : simpl never.

(** A resource that has no URL. *)
Definition no_url : RemoteResource.t :=
  RemoteResource.mk None None (Some "NYT") (Some "text/plain") None None.

(** What the calling context does on the streaming path: it draws
    identifiers, sets up channels and talks to the worker; it neither
    fetches nor runs a cipher itself. *)
Definition delegated (e : Event) : Prop :=
  match e with
  | Import _ | FetchAndDecrypt _ | EncryptFile _ _ _ | DecryptFile _ _ _
  | ConsoleError _ => False
  | _ => True
  end.

(** What the calling context does on the buffered path: it draws
    identifiers and does the work itself; it neither asks for a worker nor
    makes a remote stream. *)
Definition in_place (e : Event) : Prop :=
  match e with
  | GetWorker | NewRemoteReadableStream _ | NewRemoteWritableStream _
  | NewChannel | ThreadGet _ _ | ThreadEncrypt _ _ _ _ _
  | ThreadDecrypt _ _ _ _ _ | PipeTo _ _ => False
  | _ => True
  end.

(** * The jobs of the worker *)

Module WorkerJobs.
Import PenumbraWorker.
Local Open Scope async_scope.

(** The warning of a call whose two counts are [a] and [b], if any. *)
Definition warning (left right : string) (a b : nat) : list Event :=
  if a =? b then []
  else [ConsoleWarn (count_mismatch left right a b (a `min` b))].

(** What the [i]-th callback of [encrypt] does with its two ports. *)
Definition encrypt_job (options : option PenumbraEncryptionOptions.t)
    (ids sizes : list N) (i : nat) (ports : nat * nat) : list Event :=
  [FromReadablePort ports.1; FromWritablePort ports.2;
   Encrypt options ports.1 (sizes !! i) (ids !! i);
   PipeTo (Encrypted ports.1) ports.2].

(** What the [i]-th callback of [decrypt] does with its two ports. *)
Definition decrypt_job (options : PenumbraDecryptionInfo.t)
    (ids sizes : list N) (i : nat) (ports : nat * nat) : list Event :=
  [FromReadablePort ports.1; FromWritablePort ports.2;
   Decrypt options ports.1 (sizes !! i) (ids !! i);
   PipeTo (Decrypted ports.1) ports.2].

Definition get_url_error : Error :=
  "PenumbraDecryptionWorker.get(): RemoteResource missing URL".

(** What the callback of [get] does for a resource and its port when it
    is called: nothing without a URL. *)
Definition get_start (job : RemoteResource.t * nat) : list Event :=
  match RemoteResource.url job.1 with
  | Some _ =>
      [FromWritablePort job.2;
       FetchAndDecrypt job.1 (RemoteResource.requestInit job.1)]
  | None => []
  end.

(** What it does when the fetch has answered. *)
Definition get_pipe (job : RemoteResource.t * nat) : list Event :=
  match RemoteResource.url job.1 with
  | Some _ => [PipeTo (Fetched job.1) job.2]
  | None => []
  end.

(** The promise of the callback, once settled. *)
Definition get_settled (job : RemoteResource.t * nat) : Task (St:=State) unit :=
  match RemoteResource.url job.1 with
  | Some _ => Fulfilled tt
  | None => Rejected get_url_error
  end.

(** A promise that is fulfilled or rejected. *)
Definition settled {St A} (t : Task (St:=St) A) : Prop :=
  match t with Await _ => False | _ => True end.

Definition getBuffers_url_error : Error :=
  "PenumbraDecryptionWorker.getBuffers(): RemoteResource missing URL".

(** The callback of [getBuffers]: [fetchAndDecrypt(resource)] is called
    with the resource alone; the result is the buffer with the contents of
    the decrypted response. *)
Definition getBuffer (resource : RemoteResource.t) : Async Stream :=
  match RemoteResource.url resource with
  | None => throw getBuffers_url_error
  | Some _ =>
      do await (emit (FetchAndDecrypt resource None)) then
      do yield then
      ret (arrayBuffer resource)
  end.

(** Fetches remote files from URLs, deciphers them (if encrypted), fully
    buffers the response, and returns ArrayBuffer[]: what the caller
    observes after [ticks] turns. *)
Definition getBuffers (ticks : nat) (resources : list RemoteResource.t)
  : State → State * Settled (list Stream) :=
  Promise_all ticks getBuffer resources.

(** The resources of a batch that have a URL. *)
Definition with_url (resources : list RemoteResource.t)
  : list RemoteResource.t :=
  filter (λ resource, is_Some (RemoteResource.url resource)) resources.

End WorkerJobs.

(** * More on job completion *)

Module CompletionMore.
Import Completion.

(** The listener of promise [p] was added for a file without id: it is
    registered, [p] is pending, and no other listener resolves [p]. *)
Definition stuck (p : nat) (s : State) : Prop :=
  mkListener p None ∈ listeners s ∧
  resolved s !! p = None ∧
  Forall (λ l, promise l = p → l = mkListener p None) (listeners s).

End CompletionMore.

Module CompletionReach.
Import Completion.

Section Reach.
Variable Number_toString : N → string.

(** The states that the module goes through: calls of
    [getDecryptionInfo] and completion events, in any order. *)
Inductive reachable : State → Prop :=
| reachable_initial : reachable initial
| reachable_get id s : reachable s → reachable (getDecryptionInfo id s).1
| reachable_dispatch e s :
    reachable s → reachable (dispatch Number_toString e s).

End Reach.

(** Every listener has a promise of its own, which is still pending. *)
Definition tidy (s : State) : Prop :=
  NoDup (promise <$> listeners s) ∧
  Forall (λ l, resolved s !! promise l = None) (listeners s).

End CompletionReach.

(** * [save] *)

Module Save.

Definition DEFAULT_FILENAME : string := "download".

(** Up to 2^53 every natural number is a double, so a sum of naturals
    that does not exceed it is computed exactly. *)
Definition MAX_EXACT : N := 2 ^ 53.

(** The JavaScript number that adds up sizes: a natural number up to
    [MAX_EXACT]; a double beyond it, which the rounding of the additions
    has made and which is not followed further; or [NaN] once
    [undefined] has been added. *)
Inductive Number : Type :=
| Num (n : N)
| Inexact
| NaN.

(** [size += x] *)
Definition plus (size : Number) (x : option N) : Number :=
  match size, x with
  | Num a, Some b => if (a + b <=? MAX_EXACT)%N then Num (a + b) else Inexact
  | Inexact, Some _ => Inexact
  | _, _ => NaN
  end.

(** What [save] asks of its collaborators; [controller] names an
    [AbortController]. *)
Inductive Event : Type :=
| NewAbortController (controller : nat)
| NewZipWriter (name : string) (size : option Number)
    (files : list PenumbraFile.t) (controller : nat)
    (** [new PenumbraZipWriter({ name, size, files, controller })] *)
| ZipWrite (files : list PenumbraFile.t)
    (** [writer.write(...files)] *)
| PipeToFile (stream : Stream) (fileName : string) (signal : nat)
    (** [stream.pipeTo(createWriteStream(fileName), { signal })] *)
| SaveAs (blob : TextOrURI.Blob) (fileName : string).

(** [controllers] counts the controllers made so far and names the next. *)
Record State : Type := mkState {
  controllers : nat;
  log : list Event
}.

(** The result of a call that is not [async]: a value, or a thrown error. *)
Inductive Result (A : Type) : Type :=
| Returns (a : A)
| Throws (e : Error).
Global Arguments Returns {A} a.
Global Arguments Throws {A} e.

Definition emit (e : Event) (s : State) : State :=
  mkState (controllers s) (log s ++ [e]).

(** [controller = new AbortController()]: the default of the parameter
    is evaluated when the call is made. *)
Definition controller_or_new (controller : option nat) (s : State)
  : State * nat :=
  match controller with
  | Some c => (s, c)
  | None =>
      (mkState (S (controllers s))
         (log s ++ [NewAbortController (controllers s)]),
       controllers s)
  end.

Section Save.

(** [isNumber] of [./utils], of which only the import is known. *)
Variable isNumber : option N → bool.

(** The loop that adds up the sizes: it stops with [undefined] at the
    first size that is not a number. *)
Fixpoint sum_sizes (files : list PenumbraFile.t) (size : Number)
  : option Number :=
  match files with
  | [] => Some size
  | file :: files' =>
      if negb (isNumber (PenumbraFile.size file)) then None
      else sum_sizes files' (plus size (PenumbraFile.size file))
  end.

(** Save files retrieved by Penumbra *)
Definition save (files : list PenumbraFile.t) (fileName : option string)
    (controller : option nat) (s : State) : State * Result nat :=
  let (s, controller) := controller_or_new controller s in
  let size := sum_sizes files (Num 0) in
  if 1 <? length files then
    let name := TextOrURI.or_string fileName (DEFAULT_FILENAME +:+ ".zip") in
    let s := emit (NewZipWriter name size files controller) s in
    let s := emit (ZipWrite files) s in
    (s, Returns controller)
  else
    match files !! 0 with
    | None => (s, Throws "TypeError")
    | Some file =>
        let singleFileName :=
          TextOrURI.or_string fileName
            (TextOrURI.or_string (PenumbraFile.filePrefix file)
               DEFAULT_FILENAME) in
        let signal := controller in
        if instanceof_ReadableStream (PenumbraFile.stream file) then
          (emit (PipeToFile (PenumbraFile.stream file) singleFileName signal)
             s,
           Returns controller)
        else if instanceof_ArrayBuffer (PenumbraFile.stream file) then
          (emit (SaveAs (TextOrURI.BlobOfBuffer (PenumbraFile.stream file))
                   singleFileName) s,
           Returns controller)
        else (s, Returns controller)
    end.

End Save.

(** The state when the module is loaded. *)
Definition initial : State := mkState 0 [].

(** A stand-in for [isNumber]: a size that is present is a number. *)
Definition sample_isNumber (x : option N) : bool :=
  match x with
  | Some _ => true
  | None => false
  end.

End Save.

(** * [PenumbraError] *)

Module PenumbraError.

(** The values of the properties of an error that matter here. *)
Inductive Value : Type :=
| VString (s : string)
| VNumber (n : N)
| VNull
| VRef (h : N)
    (** any other value, named by a handle *).

(** An [Error] as the constructor reads it: what [error.message] yields,
    and its own enumerable properties in the order of [Object.keys]. *)
Record Thrown : Type := mkThrown {
  thrown_message : string;
  keys : list (string * Value)
}.

(** [error: string | Error] *)
Inductive Arg : Type :=
| Message (s : string)
| Wrapped (error : Thrown).

(** [id: string | number] *)
Inductive ID : Type :=
| Str (s : string)
| Num (n : N).

Definition value_of (id : ID) : Value :=
  match id with
  | Str s => VString s
  | Num n => VNumber n
  end.

(** The object under construction: the message that [super] has set, and
    the properties assigned since. *)
Record t : Type := mk {
  message : string;
  props : gmap string Value
}.

(** [this[key] = v] *)
Definition set (key : string) (v : Value) (this : t) : t :=
  mk (message this) (<[key := v]> (props this)).

(** [Object.keys(error).forEach((key) => { if (key !== 'message') {
    this[key] = error[key]; } })] *)
Definition copy (error : Thrown) (this : t) : t :=
  foldl (λ this kv, if decide (kv.1 = "message") then this
                    else set kv.1 kv.2 this)
    this (keys error).

Section New.

(** [getWorkerID()] of [./worker-id], of which only the import is known:
    [number | null]. *)
Variable getWorkerID : option N.

(** [new PenumbraError(error, id)] *)
Definition new (error : Arg) (id : ID) : t :=
  let this :=
    match error with
    | Message s => mk s ∅
    | Wrapped error => copy error (mk (thrown_message error) ∅)
    end in
  let this := set "id" (value_of id) this in
  let this := set "worker" (from_option VNumber VNull getWorkerID) this in
  let this := set "name" (VString "PenumbraError") this in
  this.

End New.

(** [get [Symbol.toStringTag]()]: [this.name] *)
Definition toStringTag (this : t) : option Value := props this !! "name".

(** The properties that the constructor sets itself. *)
Definition reserved : list string := ["message"; "id"; "worker"; "name"].

End PenumbraError.

(** * Properties *)

Section AsyncFacts.
Context {St : Type}.
Implicit Types s : St.
Local Abbreviation Task := (Task (St:=St)).
Local Abbreviation Async := (Async (St:=St)).

Lemma resolves_within_S {A} n (Φ : A → Prop) (t : Task A) :
  resolves_within n Φ t → resolves_within (S n) Φ t.
Proof.
  revert t. induction n as [|n IH]; intros [a|e|k]; simpl; try done.
  intros H s. apply IH, H.
Qed.

Lemma resolves_within_le {A} n m (Φ : A → Prop) (t : Task A) :
  n ≤ m → resolves_within n Φ t → resolves_within m Φ t.
Proof. induction 1; auto using resolves_within_S. Qed.

Lemma resolves_within_impl {A} n (Φ Ψ : A → Prop) (t : Task A) :
  (∀ a, Φ a → Ψ a) → resolves_within n Φ t → resolves_within n Ψ t.
Proof.
  intros HΦ. revert t. induction n as [|n IH]; intros [a|e|k]; simpl; auto.
Qed.

Lemma resolves_within_resume {A} n (Φ : A → Prop) (t : Task A) s :
  resolves_within (S n) Φ t → resolves_within n Φ (resume t s).2.
Proof.
  destruct t as [a|e|k]; simpl; try done.
Qed.

Lemma resolves_within_0 {A} (Φ : A → Prop) (t : Task A) :
  resolves_within 0 Φ t → ∃ a, t = Fulfilled a ∧ Φ a.
Proof. destruct t; simpl; try done. eauto. Qed.

Lemma round_resolves {X A} n (Φ : X → A → Prop) xs (ts : list (Task A)) s :
  Forall2 (λ x t, resolves_within (S n) (Φ x) t) xs ts →
  Forall2 (λ x t, resolves_within n (Φ x) t) xs (round ts s).2.
Proof.
  intros H. revert s. induction H as [|x t xs ts Hx _ IH]; intros s; simpl.
  - constructor.
  - pose proof (resolves_within_resume _ _ _ s Hx) as Hr.
    destruct (resume t s) as [s1 t1]. specialize (IH s1).
    destruct (round ts s1) as [s2 ts1]. simpl in *. by constructor.
Qed.

Lemma resolved_values {X A} (Φ : X → A → Prop) xs (ts : list (Task A)) :
  Forall2 (λ x t, resolves_within 0 (Φ x) t) xs ts →
  first_rejected ts = None ∧ ∃ vs, values ts = Some vs ∧ Forall2 Φ xs vs.
Proof.
  induction 1 as [|x t xs ts Hx _ [IH1 (vs & IH2 & IH3)]]; simpl.
  - split; [done|]. exists []. by split.
  - apply resolves_within_0 in Hx as (a & -> & Ha). split; [done|].
    exists (a :: vs). rewrite IH2. split; [done|]. by constructor.
Qed.

Lemma resolves_not_rejected {X A} n (Φ : X → A → Prop) xs (ts : list (Task A)) :
  Forall2 (λ x t, resolves_within n (Φ x) t) xs ts → first_rejected ts = None.
Proof.
  induction 1 as [|x t xs ts Hx _ IH]; simpl; [done|].
  by destruct t.
Qed.

Lemma event_loop_resolves {X A} ticks (Φ : X → A → Prop) xs
    (ts : list (Task A)) s :
  Forall2 (λ x t, resolves_within ticks (Φ x) t) xs ts →
  ∃ s' ts' vs, event_loop ticks ts None s = (s', (ts', None)) ∧
    values ts' = Some vs ∧ Forall2 Φ xs vs.
Proof.
  revert ts s. induction ticks as [|n IH]; intros ts s H; simpl.
  - apply resolved_values in H as (_ & vs & ? & ?). by exists s, ts, vs.
  - pose proof (round_resolves _ _ _ _ s H) as Hr.
    destruct (round ts s) as [s1 ts1]. simpl in Hr.
    rewrite (resolves_not_rejected _ _ _ _ Hr). by apply IH.
Qed.

Lemma spawn_all_Forall2 {X A} (Q : X → Task A → Prop) (f : X → Async A) xs s :
  (∀ x s, x ∈ xs → Q x (f x s).2) → Forall2 Q xs (spawn_all f xs s).2.
Proof.
  revert s. induction xs as [|x xs IH]; intros s H; simpl; [constructor|].
  pose proof (H x s (list_elem_of_here _ _)) as Hx.
  destruct (f x s) as [s1 t].
  specialize (IH s1 (λ y s' Hy, H y s' (list_elem_of_further _ _ _ Hy))).
  destruct (spawn_all f xs s1) as [s2 ts]. by constructor.
Qed.

Lemma Promise_all_resolves {X A} n ticks (Φ : X → A → Prop)
    (f : X → Async A) xs s :
  n ≤ ticks →
  (∀ x s, x ∈ xs → resolves_within n (Φ x) (f x s).2) →
  ∃ s' vs, Promise_all ticks f xs s = (s', Resolves vs) ∧ Forall2 Φ xs vs.
Proof.
  intros Hn H. unfold Promise_all.
  pose proof (spawn_all_Forall2 (λ x t, resolves_within n (Φ x) t) f xs s H)
    as Hs.
  destruct (spawn_all f xs s) as [s1 ts]. simpl in Hs.
  rewrite (resolves_not_rejected _ _ _ _ Hs).
  eapply Forall2_impl in Hs;
    [|intros x t; apply (resolves_within_le n ticks); exact Hn].
  destruct (event_loop_resolves ticks Φ xs ts s1 Hs) as (s' & ts' & vs & -> & Hv & HF).
  exists s', vs. unfold outcome. by rewrite Hv.
Qed.

Lemma spawn_all_length {X A} (f : X → Async A) xs s :
  length (spawn_all f xs s).2 = length xs.
Proof.
  revert s. induction xs as [|x xs IH]; intros s; simpl; [done|].
  destruct (f x s) as [s1 t]. specialize (IH s1).
  destruct (spawn_all f xs s1). simpl in *. by rewrite IH.
Qed.

Lemma round_length {A} (ts : list (Task A)) s :
  length (round ts s).2 = length ts.
Proof.
  revert s. induction ts as [|t ts IH]; intros s; simpl; [done|].
  destruct (resume t s) as [s1 t1]. specialize (IH s1).
  destruct (round ts s1). simpl in *. by rewrite IH.
Qed.

Lemma event_loop_length {A} ticks (ts : list (Task A)) rej s :
  length (event_loop ticks ts rej s).2.1 = length ts.
Proof.
  revert ts rej s. induction ticks as [|n IH]; intros ts rej s; simpl; [done|].
  pose proof (round_length ts s) as Hr.
  destruct (round ts s) as [s1 ts1]. simpl in Hr. by rewrite IH.
Qed.

Lemma event_loop_nil {A} ticks rej s :
  event_loop (A:=A) ticks [] rej s = (s, ([], rej)).
Proof.
  revert rej. induction ticks as [|n IH]; intros rej; simpl; [done|].
  rewrite IH. by destruct rej.
Qed.

Lemma Promise_all_nil {X A} ticks (f : X → Async A) s :
  Promise_all ticks f [] s = (s, Resolves []).
Proof. unfold Promise_all. simpl. by rewrite event_loop_nil. Qed.

(** ** Rejections *)

Lemma round_app {A} (ts1 ts2 : list (Task A)) s :
  round (ts1 ++ ts2) s =
  let (s1, r1) := round ts1 s in
  let (s2, r2) := round ts2 s1 in (s2, r1 ++ r2).
Proof.
  revert s. induction ts1 as [|t ts1 IH]; intros s; simpl.
  - by destruct (round ts2 s).
  - destruct (resume t s) as [s1 t1]. rewrite IH.
    destruct (round ts1 s1) as [s2 r1]. by destruct (round ts2 s2).
Qed.

Lemma spawn_all_app {X A} (f : X → Async A) xs1 xs2 s :
  spawn_all f (xs1 ++ xs2) s =
  let (s1, r1) := spawn_all f xs1 s in
  let (s2, r2) := spawn_all f xs2 s1 in (s2, r1 ++ r2).
Proof.
  revert s. induction xs1 as [|x xs1 IH]; intros s; simpl.
  - by destruct (spawn_all f xs2 s).
  - destruct (f x s) as [s1 t1]. rewrite IH.
    destruct (spawn_all f xs1 s1) as [s2 r1]. by destruct (spawn_all f xs2 s2).
Qed.

Lemma spawn_all_Forall {X A} (P : Task A → Prop) (f : X → Async A) xs s :
  (∀ x s, x ∈ xs → P (f x s).2) → Forall P (spawn_all f xs s).2.
Proof.
  revert s. induction xs as [|x xs IH]; intros s H; simpl; [constructor|].
  pose proof (H x s (list_elem_of_here _ _)) as Hx.
  destruct (f x s) as [s1 t].
  specialize (IH s1 (λ y s' Hy, H y s' (list_elem_of_further _ _ _ Hy))).
  destruct (spawn_all f xs s1) as [s2 ts]. by constructor.
Qed.

Lemma first_rejected_app {A} (ts1 ts2 : list (Task A)) :
  first_rejected (ts1 ++ ts2) =
  match first_rejected ts1 with
  | Some e => Some e
  | None => first_rejected ts2
  end.
Proof. induction ts1 as [|[a|e|k] ts1 IH]; simpl; auto. Qed.

Lemma quiet_first_rejected {A} p (ts : list (Task A)) :
  Forall (quiet (S p)) ts → first_rejected ts = None.
Proof. induction 1 as [|[a|e|k] ts Ht _ IH]; simpl; auto. discriminate Ht. Qed.

Lemma quiet_resume {A} p (t : Task A) s :
  quiet (S p) t → quiet p (resume t s).2.
Proof. destruct t as [a|e|k]; simpl; try done. Qed.

Lemma round_quiet {A} p (ts : list (Task A)) s :
  Forall (quiet (S p)) ts → Forall (quiet p) (round ts s).2.
Proof.
  intros H. revert s. induction H as [|t ts Ht _ IH]; intros s; simpl.
  - constructor.
  - pose proof (quiet_resume _ _ s Ht) as Hr.
    destruct (resume t s) as [s1 t1]. specialize (IH s1).
    destruct (round ts s1) as [s2 ts1]. simpl in *. by constructor.
Qed.

Lemma resolves_quiet {A} n p (Φ : A → Prop) (t : Task A) :
  resolves_within n Φ t → quiet p t.
Proof.
  revert p t. induction n as [|n IH]; intros p [a|e|k]; simpl; try done.
  destruct p; [done|]. intros H s. apply IH, H.
Qed.

Lemma rejects_resume {A} p e (t : Task A) s :
  rejects_at (S p) e t → rejects_at p e (resume t s).2.
Proof. destruct t as [a|e'|k]; simpl; try done. by intros [? _]. Qed.

Lemma event_loop_rejected {A} ticks (ts : list (Task A)) e s :
  (event_loop ticks ts (Some e) s).2.2 = Some e.
Proof.
  revert ts s. induction ticks as [|n IH]; intros ts s; simpl; [done|].
  destruct (round ts s) as [s1 ts1]. apply IH.
Qed.

(** The rejection that [Promise.all] reports is the one of the first
    promise, in the order of creation, among those that are rejected in
    the earliest turn. *)
Lemma event_loop_first_rejection {A} p e ticks (ts1 ts2 : list (Task A)) t s :
  p ≤ ticks →
  Forall (quiet (S p)) ts1 → rejects_at p e t → Forall (quiet p) ts2 →
  (event_loop ticks (ts1 ++ t :: ts2) (first_rejected (ts1 ++ t :: ts2)) s).2.2
  = Some e.
Proof.
  revert ticks ts1 ts2 t s.
  induction p as [|p IH]; intros ticks ts1 ts2 t s Hp H1 Ht H2.
  - rewrite first_rejected_app, (quiet_first_rejected 0 ts1 H1).
    destruct t as [a|e'|k]; simpl in Ht; try done. destruct Ht as [_ ->].
    simpl. apply event_loop_rejected.
  - destruct ticks as [|n]; [lia|].
    rewrite first_rejected_app, (quiet_first_rejected _ ts1 H1).
    destruct t as [a|e'|k]; simpl in Ht; try done; [by destruct Ht|].
    cbn [first_rejected]. rewrite (quiet_first_rejected _ ts2 H2).
    cbn [event_loop]. rewrite round_app.
    pose proof (round_quiet _ _ s H1) as H1'.
    destruct (round ts1 s) as [s1 r1]. cbn [round resume].
    specialize (Ht s1). destruct (k s1) as [s2 t'].
    pose proof (round_quiet _ _ s2 H2) as H2'.
    destruct (round ts2 s2) as [s3 r2]. simpl in *.
    apply IH; [lia|done..].
Qed.

Lemma Promise_all_rejects {X A} p e ticks (f : X → Async A) xs1 x xs2 s :
  p ≤ ticks →
  (∀ y s, y ∈ xs1 → quiet (S p) (f y s).2) →
  (∀ s, rejects_at p e (f x s).2) →
  (∀ y s, y ∈ xs2 → quiet p (f y s).2) →
  (Promise_all ticks f (xs1 ++ x :: xs2) s).2 = Rejects e.
Proof.
  intros Hp H1 Hx H2. unfold Promise_all. rewrite spawn_all_app.
  pose proof (spawn_all_Forall _ f xs1 s H1) as H1'.
  destruct (spawn_all f xs1 s) as [s1 r1]. cbn [spawn_all].
  specialize (Hx s1). destruct (f x s1) as [s2 t].
  pose proof (spawn_all_Forall _ f xs2 s2 H2) as H2'.
  destruct (spawn_all f xs2 s2) as [s3 r2]. simpl in *.
  pose proof (event_loop_first_rejection p e ticks r1 r2 t s3 Hp H1' Hx H2') as H.
  destruct (event_loop _ _ _ _) as [s4 [ts' rej]]. simpl in H. by subst.
Qed.

Lemma first_rejected_elem {A} (ts : list (Task A)) e :
  Rejected e ∈ ts → is_Some (first_rejected ts).
Proof.
  induction ts as [|[a|e'|k] ts IH]; simpl; intros H; try done.
  - by apply elem_of_nil in H.
  - apply elem_of_cons in H as [?|?]; [done|auto].
  - apply elem_of_cons in H as [?|?]; [done|auto].
Qed.

Lemma round_elem {A} (ts : list (Task A)) t s :
  t ∈ ts → ∃ s', (resume t s').2 ∈ (round ts s).2.
Proof.
  revert s. induction ts as [|t0 ts IH]; intros s H.
  - by apply elem_of_nil in H.
  - simpl. destruct (resume t0 s) as [s1 t1] eqn:E.
    apply elem_of_cons in H as [->|H].
    + exists s. rewrite E. destruct (round ts s1). simpl. left.
    + destruct (IH s1 H) as [s' Hs']. exists s'.
      destruct (round ts s1). simpl in *. by right.
Qed.

Lemma event_loop_some_rejection {A} p e ticks (ts : list (Task A)) t s :
  p ≤ ticks → t ∈ ts → rejects_at p e t →
  is_Some (event_loop ticks ts (first_rejected ts) s).2.2.
Proof.
  revert ticks ts t s. induction p as [|p IH]; intros ticks ts t s Hp Hin Ht.
  - destruct t as [a|e'|k]; simpl in Ht; try done. destruct Ht as [_ ->].
    destruct (first_rejected_elem ts e Hin) as [e' ->].
    rewrite event_loop_rejected. by eexists.
  - destruct (first_rejected ts) as [e'|] eqn:E.
    { rewrite event_loop_rejected. by eexists. }
    destruct ticks as [|n]; [lia|]. cbn [event_loop].
    destruct (round_elem ts t s Hin) as [s' Hs'].
    pose proof (rejects_resume _ _ _ s' Ht) as Hr.
    destruct (round ts s) as [s1 ts1]. simpl in Hs'.
    eapply IH; [lia|done..].
Qed.

Lemma spawn_all_elem {X A} (f : X → Async A) xs x s :
  x ∈ xs → ∃ s', (f x s').2 ∈ (spawn_all f xs s).2.
Proof.
  revert s. induction xs as [|x0 xs IH]; intros s H.
  - by apply elem_of_nil in H.
  - simpl. destruct (f x0 s) as [s1 t1] eqn:E.
    apply elem_of_cons in H as [->|H].
    + exists s. rewrite E. destruct (spawn_all f xs s1). simpl. left.
    + destruct (IH s1 H) as [s' Hs']. exists s'.
      destruct (spawn_all f xs s1). simpl in *. by right.
Qed.

Lemma Promise_all_rejects_some {X A} p e ticks (f : X → Async A) xs x s :
  p ≤ ticks → x ∈ xs → (∀ s, rejects_at p e (f x s).2) →
  ∃ e', (Promise_all ticks f xs s).2 = Rejects e'.
Proof.
  intros Hp Hin Hx. unfold Promise_all.
  destruct (spawn_all_elem f xs x s Hin) as [s' Hs'].
  destruct (spawn_all f xs s) as [s1 ts]. simpl in Hs'.
  destruct (event_loop_some_rejection p e ticks ts _ s1 Hp Hs' (Hx s'))
    as [e' He'].
  destruct (event_loop _ _ _ _) as [s4 [ts' rej]]. simpl in He'. subst.
  by exists e'.
Qed.

(** ** Invariants of the state *)

Section Invariant.
Context (G : St → St → Prop) `{!PreOrder G}.

Lemma runs_resume {A} (t : Task A) s :
  runs G (λ _, G) t → G s (resume t s).1 ∧ runs G (λ _, G) (resume t s).2.
Proof.
  destruct t as [a|e|k]; simpl; [done..|]. intros H. specialize (H s).
  destruct (k s) as [s' [a|e|k']]; simpl in *; done.
Qed.

Lemma round_runs {A} (ts : list (Task A)) s :
  Forall (runs G (λ _, G)) ts →
  G s (round ts s).1 ∧ Forall (runs G (λ _, G)) (round ts s).2.
Proof.
  intros H. revert s. induction H as [|t ts Ht _ IH]; intros s; simpl.
  - done.
  - destruct (runs_resume t s Ht) as [Hg Hr].
    destruct (resume t s) as [s1 t1]. specialize (IH s1).
    destruct (round ts s1) as [s2 ts1]. simpl in *. destruct IH. split.
    + by etrans.
    + by constructor.
Qed.

Lemma event_loop_runs {A} ticks (ts : list (Task A)) rej s :
  Forall (runs G (λ _, G)) ts → G s (event_loop ticks ts rej s).1.
Proof.
  revert ts rej s. induction ticks as [|n IH]; intros ts rej s H; simpl.
  - done.
  - destruct (round_runs ts s H) as [Hg Hr].
    destruct (round ts s) as [s1 ts1]. simpl in *.
    etrans; [done|]. by apply IH.
Qed.

Lemma Runs_spawn {A} (m : Async A) s :
  Runs G (λ _, G) m → G s (m s).1 ∧ runs G (λ _, G) (m s).2.
Proof.
  intros H. specialize (H s). destruct (m s) as [s' [a|e|k]]; simpl in *; done.
Qed.

Lemma spawn_all_runs {X A} (f : X → Async A) xs s :
  (∀ x, x ∈ xs → Runs G (λ _, G) (f x)) →
  G s (spawn_all f xs s).1 ∧ Forall (runs G (λ _, G)) (spawn_all f xs s).2.
Proof.
  revert s. induction xs as [|x xs IH]; intros s H; simpl; [done|].
  destruct (Runs_spawn (f x) s (H x (list_elem_of_here _ _))) as [Hg Hr].
  destruct (f x s) as [s1 t].
  specialize (IH s1 (λ y Hy, H y (list_elem_of_further _ _ _ Hy))).
  destruct (spawn_all f xs s1) as [s2 ts]. simpl in *. destruct IH. split.
  - by etrans.
  - by constructor.
Qed.

Lemma Promise_all_runs {X A} ticks (f : X → Async A) xs s :
  (∀ x, x ∈ xs → Runs G (λ _, G) (f x)) → G s (Promise_all ticks f xs s).1.
Proof.
  intros H. unfold Promise_all.
  destruct (spawn_all_runs f xs s H) as [Hg Hr].
  destruct (spawn_all f xs s) as [s1 ts]. simpl in *.
  pose proof (event_loop_runs ticks ts (first_rejected ts) s1 Hr) as He.
  destruct (event_loop _ _ _ _) as [s2 [ts' rej]]. simpl in *. by etrans.
Qed.
End Invariant.

(** ** What the promises put out *)

Section Outputs.
Context {A B : Type} (c : St → list B) (out : A → list B).

Lemma outputs_cons (t : Task A) ts :
  outputs out (t :: ts)
  = match t with Fulfilled a => out a | _ => [] end ++ outputs out ts.
Proof. done. Qed.

Lemma outputs_values (ts : list (Task A)) vs :
  values ts = Some vs → ts = Fulfilled <$> vs ∧ outputs out ts = vs ≫= out.
Proof.
  revert vs. induction ts as [|[a|e|k] ts IH]; intros vs; cbn [values];
    try done.
  - intros [= <-]. done.
  - destruct (values ts) as [vs'|]; simpl; [|done]. intros [= <-].
    destruct (IH vs' eq_refl) as [E1 E2]. split.
    + by rewrite E1 at 1.
    + rewrite outputs_cons, E2. done.
Qed.

Lemma round_outputs (ts : list (Task A)) s :
  Forall (runs (λ s s', c s' = c s) (λ a s s', c s' = c s ++ out a)) ts →
  ∃ new, c (round ts s).1 = c s ++ new ∧
    outputs out (round ts s).2 ≡ₚ outputs out ts ++ new ∧
    Forall (runs (λ s s', c s' = c s) (λ a s s', c s' = c s ++ out a))
      (round ts s).2.
Proof.
  intros H. revert s. induction H as [|t ts Ht _ IH]; intros s; simpl.
  - exists []. by rewrite app_nil_r.
  - assert (∃ new1, c (resume t s).1 = c s ++ new1 ∧
              match (resume t s).2 with Fulfilled a => out a | _ => [] end
              = match t with Fulfilled a => out a | _ => [] end ++ new1 ∧
              runs (λ s s', c s' = c s) (λ a s s', c s' = c s ++ out a)
                (resume t s).2) as (new1 & E1 & O1 & R1).
    { destruct t as [a|e|k]; simpl in *.
      - exists []. by rewrite !app_nil_r.
      - exists []. by rewrite !app_nil_r.
      - specialize (Ht s). destruct (k s) as [s1 [a|e|k']]; simpl in *;
          destruct Ht as [Hc Hr].
        + by exists (out a).
        + exists []. by rewrite app_nil_r.
        + exists []. by rewrite app_nil_r. }
    destruct (resume t s) as [s1 t1]. simpl in *.
    destruct (IH s1) as (new2 & E2 & O2 & R2).
    destruct (round ts s1) as [s2 ts2]. simpl in *.
    exists (new1 ++ new2). split; [by rewrite E2, E1, app_assoc|]. split.
    + rewrite !outputs_cons, O1, O2.
      rewrite <- !app_assoc. f_equiv. rewrite !app_assoc. f_equiv.
      apply Permutation_app_comm.
    + by constructor.
Qed.

Lemma event_loop_outputs ticks (ts : list (Task A)) rej s :
  Forall (runs (λ s s', c s' = c s) (λ a s s', c s' = c s ++ out a)) ts →
  ∃ new, c (event_loop ticks ts rej s).1 = c s ++ new ∧
    outputs out (event_loop ticks ts rej s).2.1 ≡ₚ outputs out ts ++ new.
Proof.
  revert ts rej s. induction ticks as [|n IH]; intros ts rej s H; simpl.
  - exists []. by rewrite !app_nil_r.
  - destruct (round_outputs ts s H) as (new1 & E1 & O1 & R1).
    destruct (round ts s) as [s1 ts1]. simpl in *.
    destruct (IH ts1 (match rej with Some e => Some e
                                   | None => first_rejected ts1 end) s1 R1)
      as (new2 & E2 & O2).
    exists (new1 ++ new2). split; [by rewrite E2, E1, app_assoc|].
    by rewrite O2, O1, app_assoc.
Qed.

Lemma spawn_all_outputs {X} (f : X → Async A) xs s :
  (∀ x, Runs (λ s s', c s' = c s) (λ a s s', c s' = c s ++ out a) (f x)) →
  ∃ new, c (spawn_all f xs s).1 = c s ++ new ∧
    outputs out (spawn_all f xs s).2 ≡ₚ new ∧
    Forall (runs (λ s s', c s' = c s) (λ a s s', c s' = c s ++ out a))
      (spawn_all f xs s).2.
Proof.
  intros Hf. revert s. induction xs as [|x xs IH]; intros s; simpl.
  - exists []. by rewrite app_nil_r.
  - destruct (Hf x s) as [Hc Hr]. destruct (f x s) as [s1 t]. simpl in *.
    destruct (IH s1) as (new2 & E2 & O2 & R2).
    destruct (spawn_all f xs s1) as [s2 ts]. simpl in *.
    exists (match t with Fulfilled a => out a | _ => [] end ++ new2).
    split; [|split].
    + rewrite E2, app_assoc. f_equal.
      destruct t; rewrite ?app_nil_r; done.
    + by rewrite outputs_cons, O2.
    + by constructor.
Qed.
End Outputs.

(** ** A counter of the state *)

Section Counter.
Context {X A C : Type} (cnt : St → C) (next : X → C → C).
Context (P : X → C → Task A → Prop).

Lemma spawn_all_counter (f : X → Async A) xs s :
  (∀ x s, x ∈ xs → cnt (f x s).1 = next x (cnt s) ∧ P x (cnt s) (f x s).2) →
  cnt (spawn_all f xs s).1 = foldl (λ c x, next x c) (cnt s) xs ∧
  Forall2 (λ xc t, P xc.1 xc.2 t)
    (zip xs (counter_trace next (cnt s) xs)) (spawn_all f xs s).2.
Proof.
  revert s. induction xs as [|x xs IH]; intros s H; simpl; [by split|].
  destruct (H x s (list_elem_of_here _ _)) as [Hc Hp].
  destruct (f x s) as [s1 t]. simpl in *.
  specialize (IH s1 (λ y s' Hy, H y s' (list_elem_of_further _ _ _ Hy))).
  destruct (spawn_all f xs s1) as [s2 ts]. simpl in *.
  rewrite <- Hc. destruct IH as [-> IH]. split; [done|]. by constructor.
Qed.

Lemma round_counter xs (ts : list (Task A)) s :
  Forall2 (λ x t, ∀ s, cnt (resume t s).1 = next x (cnt s) ∧
                       P x (cnt s) (resume t s).2) xs ts →
  cnt (round ts s).1 = foldl (λ c x, next x c) (cnt s) xs ∧
  Forall2 (λ xc t, P xc.1 xc.2 t)
    (zip xs (counter_trace next (cnt s) xs)) (round ts s).2.
Proof.
  intros H. revert s. induction H as [|x t xs ts Hx _ IH]; intros s; simpl.
  - by split.
  - destruct (Hx s) as [Hc Hp]. destruct (resume t s) as [s1 t1]. simpl in *.
    specialize (IH s1). destruct (round ts s1) as [s2 ts1]. simpl in *.
    rewrite <- Hc. destruct IH as [-> IH]. split; [done|]. by constructor.
Qed.

Lemma counter_trace_lookup c xs i :
  i < length xs →
  counter_trace next c xs !! i = Some (foldl (λ c x, next x c) c (take i xs)).
Proof.
  revert c i. induction xs as [|x xs IH]; intros c [|i] Hi; simpl in *;
    try lia; [done|].
  apply IH. lia.
Qed.

Lemma counter_trace_length c xs : length (counter_trace next c xs) = length xs.
Proof. revert c. induction xs as [|x xs IH]; intros c; simpl; auto. Qed.
End Counter.
End AsyncFacts.

(** ** The calling context *)

Section CoordinatorFacts.
Variable writableStreamsSupported : bool.
Variable pathname : option string → string.
Variable decryptFile :
  PenumbraDecryptionInfo.t → PenumbraFile.t → option N → PenumbraFile.t.
Implicit Types (file : PenumbraFile.t) (s : State).

Local Ltac turns := repeat (intros ?s; cbn).

(** *** The counter and the log *)

Lemma steps_streams P s j c l c' :
  steps P s (mkState j c l) → steps P s (mkState j c' l).
Proof.
  inversion 1; subst; [apply steps_start|by eapply steps_draw|
                       by eapply steps_emit].
Qed.

#[global] Instance steps_preorder P : PreOrder (steps P).
Proof.
  split.
  - intros [j c l]. apply (steps_start P (mkState j c l) c).
  - intros s1 s2 s3 H12 H23. induction H23 as [c|j c l c' _ IH|j c l c' e _ IH He].
    + destruct s2 as [j2 c2 l2]. simpl. by eapply steps_streams.
    + by eapply steps_draw.
    + by eapply steps_emit.
Qed.

Lemma drawn_app l1 l2 : drawn (l1 ++ l2) = drawn l1 ++ drawn l2.
Proof. apply omap_app. Qed.

Lemma steps_counter_ok P s s' : steps P s s' → counter_ok s → counter_ok s'.
Proof.
  intros H Hs. induction H as [c|j c l c' _ IH|j c l c' e _ IH He]; [done|..].
  - destruct IH as [IH1 IH2]. simpl in *. unfold counter_ok. simpl.
    rewrite drawn_app. simpl. split.
    + clear -IH1 IH2. induction IH1 as [|n ns Hns IH Hn]; simpl.
      * repeat constructor.
      * apply Forall_cons in IH2 as [? ?]. constructor; [auto|].
        apply Forall_app. split; [done|]. by constructor.
    + apply Forall_app. split.
      * eapply Forall_impl; [done|]. simpl. lia.
      * constructor; [lia|constructor].
  - destruct IH as [IH1 IH2]. unfold counter_ok in *. simpl in *.
    rewrite drawn_app.
    replace (drawn [e]) with (@nil N) by (by destruct e).
    by rewrite app_nil_r.
Qed.

Lemma steps_log P s s' :
  steps P s s' →
  ∃ evs, log s' = log s ++ evs ∧
         Forall (λ e, match e with JobIDpp _ => True | _ => P e end) evs.
Proof.
  induction 1 as [c|j c l c' _ (evs & IH1 & IH2)|j c l c' e _ (evs & IH1 & IH2) He];
    simpl in *.
  - exists []. by rewrite app_nil_r.
  - exists (evs ++ [JobIDpp j]). rewrite IH1, app_assoc. split; [done|].
    apply Forall_app. by repeat constructor.
  - exists (evs ++ [e]). rewrite IH1, app_assoc. split; [done|].
    apply Forall_app. split; [done|]. constructor; [|constructor].
    by destruct e.
Qed.

Lemma steps_within_ceiling s s' :
  steps within_ceiling s s' → Forall within_ceiling (log_since s s').
Proof.
  intros (evs & E & H)%steps_log. unfold log_since.
  rewrite E, drop_app_length. eapply Forall_impl; [done|]. by intros [].
Qed.

Local Ltac step_goal :=
  repeat first
    [ reflexivity
    | apply steps_start
    | eapply steps_emit; [|cbn; first [done|lia]]
    | eapply steps_draw ].

Local Ltac run_goal :=
  repeat first [ progress cbn | intros ?s | split ]; try step_goal.

Lemma within_ceiling_ltb file :
  (default 0 (PenumbraFile.size file) ≤ MAX_ALLOWED_SIZE_MAIN_THREAD)%N →
  (MAX_ALLOWED_SIZE_MAIN_THREAD <? 0 + default 0 (PenumbraFile.size file))%N
  = false.
Proof. intros H. apply N.ltb_ge. lia. Qed.

Lemma with_size_same file :
  truthy (PenumbraFile.size file) = true →
  Some (default 0%N (PenumbraFile.size file)) = PenumbraFile.size file.
Proof. by destruct (PenumbraFile.size file). Qed.

(** *** [get] *)

Lemma get_one_resolves resource s :
  valid_resource resource →
  resolves_within 5 (get_result writableStreamsSupported pathname resource)
    (get_one writableStreamsSupported pathname resource s).2.
Proof.
  intros [u Hu].
  unfold get_result, get_one, getJob, getJob_buffer, Promise_all_of.
  destruct writableStreamsSupported; cbn.
  - turns. eauto.
  - rewrite Hu. cbn. turns. done.
Qed.

(** *** [encrypt] *)

Lemma encrypt_one_resolves options file s :
  valid_file writableStreamsSupported file →
  resolves_within 5
    (encrypt_result writableStreamsSupported options file (jobID s))
    (encrypt_one writableStreamsSupported options file s).2 ∧
  jobID (encrypt_one writableStreamsSupported options file s).1
  = (jobID s + 1)%N.
Proof.
  intros (Hb & Hs & Hm).
  unfold encrypt_result, encrypt_one, encryptJob, collect_encrypt.
  destruct writableStreamsSupported; cbn; rewrite Hb; cbn; rewrite Hs; cbn.
  - split; [|done]. turns. rewrite (with_size_same _ Hs).
    eexists. by destruct file.
  - unfold sum_encrypt. cbn. rewrite (within_ceiling_ltb _ (Hm eq_refl)). cbn.
    split; [|done]. turns. done.
Qed.

Lemma encrypt_one_quiet options file s :
  quiet 1 (encrypt_one writableStreamsSupported options file s).2.
Proof.
  unfold encrypt_one, encryptJob, collect_encrypt, sum_encrypt.
  destruct writableStreamsSupported; cbn;
    destruct (instanceof_ArrayBuffer _); cbn; try done;
    destruct (truthy _); cbn; try done.
  destruct (_ <? _)%N; cbn; done.
Qed.

Lemma encrypt_one_buffer options file s :
  instanceof_ArrayBuffer (PenumbraFile.stream file) = true →
  rejects_at 1 "penumbra.encrypt() only supports ReadableStreams"
    (encrypt_one writableStreamsSupported options file s).2.
Proof. intros Hb. unfold encrypt_one, encryptJob. cbn. rewrite Hb. cbn. done. Qed.

Lemma encrypt_one_size options file s :
  instanceof_ArrayBuffer (PenumbraFile.stream file) = false →
  truthy (PenumbraFile.size file) = false →
  rejects_at 1 "penumbra.encrypt(): Unable to determine file size"
    (encrypt_one writableStreamsSupported options file s).2.
Proof.
  intros Hb Hs. unfold encrypt_one, encryptJob, collect_encrypt. cbn.
  rewrite Hb. cbn. rewrite Hs. cbn. done.
Qed.

Lemma encrypt_one_too_large options file s :
  writableStreamsSupported = false →
  instanceof_ArrayBuffer (PenumbraFile.stream file) = false →
  (MAX_ALLOWED_SIZE_MAIN_THREAD < default 0 (PenumbraFile.size file))%N →
  rejects_at 1
    "penumbra.encrypt(): File is too large to encrypt without writable streams"
    (encrypt_one writableStreamsSupported options file s).2.
Proof.
  intros -> Hb Hm.
  assert (truthy (PenumbraFile.size file) = true) as Hs.
  { destruct (PenumbraFile.size file) as [n|]; simpl in *; [|lia].
    apply negb_true_iff, N.eqb_neq. lia. }
  unfold encrypt_one, encryptJob, collect_encrypt, sum_encrypt. cbn.
  rewrite Hb. cbn. rewrite Hs. cbn.
  replace (_ <? _)%N with true by (symmetry; apply N.ltb_lt; lia). cbn. done.
Qed.

(** *** [decrypt] *)

Lemma decrypt_one_resolves options file s :
  valid_file writableStreamsSupported file →
  resolves_within 5
    (decrypt_result writableStreamsSupported decryptFile options file)
    (decrypt_one writableStreamsSupported decryptFile options file s).2.
Proof.
  intros (Hb & Hs & Hm).
  unfold decrypt_result, decrypt_stream_result, decrypt_one, decryptJob,
    collect_decrypt, id_or_next, check_decrypt, Promise_all_of.
  destruct writableStreamsSupported; cbn.
  - turns. destruct (truthy (PenumbraFile.id file)); cbn; rewrite Hs; cbn;
      turns; rewrite (with_size_same _ Hs); eexists _, _; by destruct file.
  - specialize (Hm eq_refl).
    replace (_ <? _)%N with false by (symmetry; apply N.ltb_ge; lia). cbn.
    turns. done.
Qed.

Lemma decrypt_one_buffer_resolves options file s :
  writableStreamsSupported = false →
  (default 0 (PenumbraFile.size file) ≤ MAX_ALLOWED_SIZE_MAIN_THREAD)%N →
  resolves_within 5
    (λ r, r = Some (decryptFile options file (PenumbraFile.size file)))
    (decrypt_one writableStreamsSupported decryptFile options file s).2.
Proof.
  intros -> Hm. unfold decrypt_one, decryptJob, check_decrypt. cbn.
  replace (_ <? _)%N with false by (symmetry; apply N.ltb_ge; lia). cbn.
  turns. done.
Qed.

Lemma decrypt_one_quiet options file s :
  quiet (if writableStreamsSupported then 2 else 1)
    (decrypt_one writableStreamsSupported decryptFile options file s).2.
Proof.
  unfold decrypt_one, decryptJob, collect_decrypt, id_or_next, check_decrypt.
  destruct writableStreamsSupported; cbn.
  - turns. destruct (truthy (PenumbraFile.id file)); cbn;
      destruct (truthy (PenumbraFile.size file)); cbn; done.
  - destruct (_ <? _)%N; cbn; done.
Qed.

Lemma decrypt_one_size options file s :
  writableStreamsSupported = true →
  truthy (PenumbraFile.size file) = false →
  rejects_at 2 "penumbra.decrypt(): Unable to determine file size"
    (decrypt_one writableStreamsSupported decryptFile options file s).2.
Proof.
  intros -> Hs. unfold decrypt_one, decryptJob, collect_decrypt, id_or_next.
  cbn. turns. destruct (truthy (PenumbraFile.id file)); cbn; rewrite Hs; cbn;
    turns; done.
Qed.

Lemma decrypt_one_too_large options file s :
  writableStreamsSupported = false →
  (MAX_ALLOWED_SIZE_MAIN_THREAD < default 0 (PenumbraFile.size file))%N →
  rejects_at 1
    "penumbra.decrypt(): File is too large to decrypt without writable streams"
    (decrypt_one writableStreamsSupported decryptFile options file s).2.
Proof.
  intros -> Hm. unfold decrypt_one, decryptJob, check_decrypt. cbn.
  replace (_ <? _)%N with true by (symmetry; apply N.ltb_lt; lia). cbn. done.
Qed.

(** *** Every job keeps to the discipline of the counter and the ceiling *)

Lemma get_one_steps resource :
  Runs (steps within_ceiling) (λ _, steps within_ceiling)
    (get_one writableStreamsSupported pathname resource).
Proof.
  intros s. unfold get_one, getJob, getJob_buffer.
  destruct writableStreamsSupported; cbn.
  - run_goal.
  - destruct (RemoteResource.url resource); run_goal.
  Unshelve. all: exact 0.
Qed.

Lemma encrypt_one_steps options file :
  Runs (steps within_ceiling) (λ _, steps within_ceiling)
    (encrypt_one writableStreamsSupported options file).
Proof.
  intros s. unfold encrypt_one, encryptJob, collect_encrypt, sum_encrypt.
  destruct writableStreamsSupported; cbn;
    (destruct (instanceof_ArrayBuffer _); cbn; [run_goal|]);
    (destruct (truthy _); cbn; [|run_goal]).
  - run_goal.
  - destruct (N.ltb_spec MAX_ALLOWED_SIZE_MAIN_THREAD
                (0 + default 0 (PenumbraFile.size file))%N); run_goal.
  Unshelve. all: exact 0.
Qed.

Lemma decrypt_one_steps options file :
  Runs (steps within_ceiling) (λ _, steps within_ceiling)
    (decrypt_one writableStreamsSupported decryptFile options file).
Proof.
  intros s. unfold decrypt_one, decryptJob, collect_decrypt, id_or_next,
    check_decrypt.
  destruct writableStreamsSupported; cbn.
  - split; [run_goal|]. intros s1. cbn.
    destruct (truthy (PenumbraFile.id file)); cbn;
      destruct (truthy (PenumbraFile.size file)); run_goal.
  - destruct (N.ltb_spec MAX_ALLOWED_SIZE_MAIN_THREAD
                (default 0%N (PenumbraFile.size file))); run_goal.
  Unshelve. all: exact 0.
Qed.

(** *** Whole batches *)

Lemma get_resolves ticks resources s :
  5 ≤ ticks → Forall valid_resource resources →
  ∃ s' rs, get writableStreamsSupported pathname ticks resources s
           = (s', Resolves rs) ∧
    Forall2 (get_result writableStreamsSupported pathname) resources rs.
Proof.
  intros Ht Hv. apply (Promise_all_resolves 5); [done|].
  intros r s1 Hr. apply get_one_resolves.
  by apply (proj1 (Forall_forall _ _) Hv).
Qed.

Lemma encrypt_resolves ticks options files s :
  5 ≤ ticks → Forall (valid_file writableStreamsSupported) files →
  ∃ s' rs, encrypt writableStreamsSupported ticks options files s
           = (s', Resolves rs) ∧
    Forall2 (λ fc r, encrypt_result writableStreamsSupported options
                       fc.1 fc.2 r)
      (zip files (counter_trace (λ _ c, (c + 1)%N) (jobID s) files)) rs.
Proof.
  intros Ht Hv. unfold encrypt, Promise_all.
  destruct (spawn_all_counter jobID (λ _ c, (c + 1)%N)
              (λ file c t,
                 resolves_within 5
                   (encrypt_result writableStreamsSupported options file c) t)
              (encrypt_one writableStreamsSupported options) files s)
    as [_ Hs].
  { intros file s1 Hf.
    destruct (encrypt_one_resolves options file s1); [|done].
    by apply (proj1 (Forall_forall _ _) Hv). }
  destruct (spawn_all _ files s) as [s1 ts]. simpl in Hs.
  rewrite (resolves_not_rejected 5 _ _ _ Hs).
  eapply Forall2_impl in Hs;
    [|intros x t; apply (resolves_within_le 5 ticks); exact Ht].
  destruct (event_loop_resolves ticks _ _ ts s1 Hs)
    as (s' & ts' & vs & -> & Hvs & HF).
  exists s', vs. unfold outcome. by rewrite Hvs.
Qed.

Lemma decrypt_resolves ticks options files s :
  5 ≤ ticks → Forall (valid_file writableStreamsSupported) files →
  ∃ s' rs, decrypt writableStreamsSupported decryptFile ticks options files s
           = (s', Resolves rs) ∧
    Forall2 (decrypt_result writableStreamsSupported decryptFile options)
      files rs.
Proof.
  intros Ht Hv. apply (Promise_all_resolves 5); [done|].
  intros f s1 Hf. apply decrypt_one_resolves.
  by apply (proj1 (Forall_forall _ _) Hv).
Qed.

Lemma decrypt_buffer_resolves ticks options files s :
  writableStreamsSupported = false →
  5 ≤ ticks →
  Forall (λ file, (default 0 (PenumbraFile.size file)
                   ≤ MAX_ALLOWED_SIZE_MAIN_THREAD)%N) files →
  ∃ s' rs, decrypt writableStreamsSupported decryptFile ticks options files s
           = (s', Resolves rs) ∧
    Forall2 (λ file r,
               r = Some (decryptFile options file (PenumbraFile.size file)))
      files rs.
Proof.
  intros Hw Ht Hv. apply (Promise_all_resolves 5); [done|].
  intros f s1 Hf. apply decrypt_one_buffer_resolves; [done|].
  by apply (proj1 (Forall_forall _ _) Hv).
Qed.

Lemma valid_quiet_encrypt p options files :
  Forall (valid_file writableStreamsSupported) files →
  ∀ file s, file ∈ files →
    quiet p (encrypt_one writableStreamsSupported options file s).2.
Proof.
  intros Hv file s Hf. eapply resolves_quiet.
  apply (encrypt_one_resolves options file s).
  by apply (proj1 (Forall_forall _ _) Hv).
Qed.

Lemma valid_quiet_decrypt p options files :
  Forall (valid_file writableStreamsSupported) files →
  ∀ file s, file ∈ files →
    quiet p (decrypt_one writableStreamsSupported decryptFile options file s).2.
Proof.
  intros Hv file s Hf. eapply resolves_quiet.
  apply (decrypt_one_resolves options file s).
  by apply (proj1 (Forall_forall _ _) Hv).
Qed.

Lemma encrypt_rejects_buffer ticks options pre file post s :
  1 ≤ ticks → Forall (valid_file writableStreamsSupported) pre →
  instanceof_ArrayBuffer (PenumbraFile.stream file) = true →
  (encrypt writableStreamsSupported ticks options (pre ++ file :: post) s).2
  = Rejects "penumbra.encrypt() only supports ReadableStreams".
Proof.
  intros Ht Hv Hb. apply (Promise_all_rejects 1); [done|..].
  - by apply valid_quiet_encrypt.
  - intros s1. by apply encrypt_one_buffer.
  - intros f s1 _. apply encrypt_one_quiet.
Qed.

Lemma encrypt_rejects_size ticks options pre file post s :
  1 ≤ ticks → Forall (valid_file writableStreamsSupported) pre →
  instanceof_ArrayBuffer (PenumbraFile.stream file) = false →
  truthy (PenumbraFile.size file) = false →
  (encrypt writableStreamsSupported ticks options (pre ++ file :: post) s).2
  = Rejects "penumbra.encrypt(): Unable to determine file size".
Proof.
  intros Ht Hv Hb Hs. apply (Promise_all_rejects 1); [done|..].
  - by apply valid_quiet_encrypt.
  - intros s1. by apply encrypt_one_size.
  - intros f s1 _. apply encrypt_one_quiet.
Qed.

Lemma encrypt_rejects_too_large ticks options pre file post s :
  writableStreamsSupported = false →
  1 ≤ ticks → Forall (valid_file writableStreamsSupported) pre →
  instanceof_ArrayBuffer (PenumbraFile.stream file) = false →
  (MAX_ALLOWED_SIZE_MAIN_THREAD < default 0 (PenumbraFile.size file))%N →
  (encrypt writableStreamsSupported ticks options (pre ++ file :: post) s).2
  = Rejects
      "penumbra.encrypt(): File is too large to encrypt without writable streams".
Proof.
  intros Hw Ht Hv Hb Hs. apply (Promise_all_rejects 1); [done|..].
  - by apply valid_quiet_encrypt.
  - intros s1. by apply encrypt_one_too_large.
  - intros f s1 _. apply encrypt_one_quiet.
Qed.

Lemma decrypt_rejects_size ticks options pre file post s :
  writableStreamsSupported = true →
  2 ≤ ticks → Forall (valid_file writableStreamsSupported) pre →
  truthy (PenumbraFile.size file) = false →
  (decrypt writableStreamsSupported decryptFile ticks options
     (pre ++ file :: post) s).2
  = Rejects "penumbra.decrypt(): Unable to determine file size".
Proof.
  intros Hw Ht Hv Hs. apply (Promise_all_rejects 2); [done|..].
  - by apply valid_quiet_decrypt.
  - intros s1. by apply decrypt_one_size.
  - intros f s1 _. pose proof (decrypt_one_quiet options f s1) as H.
    by rewrite Hw in H at 1.
Qed.

Lemma decrypt_rejects_too_large ticks options pre file post s :
  writableStreamsSupported = false →
  1 ≤ ticks → Forall (valid_file writableStreamsSupported) pre →
  (MAX_ALLOWED_SIZE_MAIN_THREAD < default 0 (PenumbraFile.size file))%N →
  (decrypt writableStreamsSupported decryptFile ticks options
     (pre ++ file :: post) s).2
  = Rejects
      "penumbra.decrypt(): File is too large to decrypt without writable streams".
Proof.
  intros Hw Ht Hv Hs. apply (Promise_all_rejects 1); [done|..].
  - by apply valid_quiet_decrypt.
  - intros s1. by apply decrypt_one_too_large.
  - intros f s1 _. pose proof (decrypt_one_quiet options f s1) as H.
    by rewrite Hw in H at 1.
Qed.

(** *** The identifiers of the streaming [decrypt] *)

Lemma decrypt_one_stream options file s :
  writableStreamsSupported = true →
  valid_file writableStreamsSupported file →
  jobID (decrypt_one writableStreamsSupported decryptFile options file s).1
  = jobID s ∧
  ∀ s1,
    let r := resume
               (decrypt_one writableStreamsSupported decryptFile options
                  file s).2 s1 in
    jobID r.1
    = (if truthy (PenumbraFile.id file) then jobID s1 else jobID s1 + 1)%N ∧
    resolves_within 4
      (decrypt_stream_result file
         (if truthy (PenumbraFile.id file)
          then default 0%N (PenumbraFile.id file) else jobID s1))
      r.2.
Proof.
  intros -> (Hb & Hs & _).
  unfold decrypt_stream_result, decrypt_one, decryptJob, collect_decrypt,
    id_or_next.
  cbn. split; [done|]. intros s1. cbn.
  destruct (truthy (PenumbraFile.id file)); cbn; rewrite Hs; cbn;
    (split; [done|]); turns; rewrite (with_size_same _ Hs); eexists;
    by destruct file.
Qed.

Lemma foldl_const {X C} (c : C) (xs : list X) : foldl (λ c _, c) c xs = c.
Proof. by induction xs. Qed.

Lemma decrypt_stream_resolves ticks options files s :
  writableStreamsSupported = true →
  5 ≤ ticks → Forall (valid_file writableStreamsSupported) files →
  ∃ s' rs, decrypt writableStreamsSupported decryptFile ticks options files s
           = (s', Resolves rs) ∧
    Forall2 (λ fc r,
               decrypt_stream_result fc.1
                 (if truthy (PenumbraFile.id fc.1)
                  then default 0%N (PenumbraFile.id fc.1) else fc.2) r)
      (zip files
         (counter_trace
            (λ file c, if truthy (PenumbraFile.id file) then c else (c + 1)%N)
            (jobID s) files)) rs.
Proof.
  intros Hw Ht Hv. unfold decrypt, Promise_all.
  set (f := decrypt_one writableStreamsSupported decryptFile options).
  set (next := λ (file : PenumbraFile.t) (c : N),
                 if truthy (PenumbraFile.id file) then c else (c + 1)%N).
  set (Φ := λ (file : PenumbraFile.t) (c : N),
              decrypt_stream_result file
                (if truthy (PenumbraFile.id file)
                 then default 0%N (PenumbraFile.id file) else c)).
  destruct (spawn_all_counter jobID (λ _ c, c) (λ _ _ _, True) f files s)
    as [Hj _].
  { intros file s1 Hf. split; [|done].
    apply decrypt_one_stream; [done|].
    by apply (proj1 (Forall_forall _ _) Hv). }
  rewrite foldl_const in Hj.
  pose proof (spawn_all_Forall2
    (λ file t, ∀ s1, jobID (resume t s1).1 = next file (jobID s1) ∧
                     resolves_within 4 (Φ file (jobID s1)) (resume t s1).2)
    f files s) as Hs.
  pose proof (spawn_all_Forall (quiet 2) f files s) as Hq.
  destruct (spawn_all f files s) as [s1 ts]. simpl in Hs, Hq, Hj.
  rewrite (quiet_first_rejected 1 ts).
  2:{ apply Hq. intros file s2 _.
      pose proof (decrypt_one_quiet options file s2) as H.
      by rewrite Hw in H at 1. }
  destruct ticks as [|n]; [lia|]. cbn [event_loop].
  destruct (round_counter jobID next (λ file c t, resolves_within 4 (Φ file c) t)
              files ts s1) as [_ Hr].
  { apply Hs. intros file s2 Hf.
    apply (decrypt_one_stream options file s2 Hw).
    by apply (proj1 (Forall_forall _ _) Hv). }
  destruct (round ts s1) as [s2 ts2]. simpl in Hr. rewrite Hj in Hr.
  rewrite (resolves_not_rejected 4 _ _ _ Hr).
  eapply Forall2_impl in Hr;
    [|intros x t; apply (resolves_within_le 4 n); lia].
  destruct (event_loop_resolves n _ _ ts2 s2 Hr)
    as (s' & ts' & vs & -> & Hvs & HF).
  exists s', vs. unfold outcome. by rewrite Hvs.
Qed.

Lemma foldl_drawn_before files i j :
  foldl (λ c file, if truthy (PenumbraFile.id file) then c else (c + 1)%N)
    j (take i files)
  = (j + drawn_before files i)%N.
Proof.
  unfold drawn_before. revert i j.
  induction files as [|file files IH]; intros [|i] j; simpl;
    rewrite ?N.add_0_r; try done.
  rewrite IH, filter_cons.
  destruct (decide _) as [E|E]; [rewrite E|apply not_false_is_true in E; rewrite E];
    simpl; lia.
Qed.

Lemma foldl_succ (files : list PenumbraFile.t) i j :
  i ≤ length files →
  foldl (λ c _, (c + 1)%N) j (take i files) = (j + N.of_nat i)%N.
Proof.
  revert i j. induction files as [|file files IH]; intros [|i] j Hi; simpl in *;
    rewrite ?N.add_0_r; try done; try lia.
  rewrite IH by lia. lia.
Qed.

(** *** Single jobs *)

Lemma getJob_nil s :
  getJob writableStreamsSupported pathname [] s
  = (s, Rejected "penumbra.get() called without arguments").
Proof. done. Qed.

Lemma encryptJob_nil options s :
  encryptJob writableStreamsSupported options [] s
  = (s, Rejected "penumbra.encrypt() called without arguments").
Proof. done. Qed.

Lemma decryptJob_nil options s :
  decryptJob writableStreamsSupported decryptFile options [] s
  = (s, Rejected "penumbra.decrypt() called without arguments").
Proof. done. Qed.

Lemma encryptJob_buffer options files file s :
  file ∈ files →
  instanceof_ArrayBuffer (PenumbraFile.stream file) = true →
  encryptJob writableStreamsSupported options files s
  = (s, Rejected "penumbra.encrypt() only supports ReadableStreams").
Proof.
  intros Hf Hb. unfold encryptJob.
  destruct files as [|f0 files]; [by apply elem_of_nil in Hf|].
  cbn [length Nat.eqb].
  replace (existsb _ _) with true; [done|].
  symmetry. apply existsb_exists. exists file. split; [|done].
  by apply list_elem_of_In.
Qed.

Lemma encryptJob_size options file s :
  instanceof_ArrayBuffer (PenumbraFile.stream file) = false →
  truthy (PenumbraFile.size file) = false →
  encryptJob writableStreamsSupported options [file] s
  = (mkState (jobID s + 1) (streams s) (log s ++ [JobIDpp (jobID s)]),
     Rejected "penumbra.encrypt(): Unable to determine file size").
Proof.
  intros Hb Hs. unfold encryptJob, collect_encrypt. cbn.
  rewrite Hb. cbn. by rewrite Hs.
Qed.

Lemma decryptJob_size options file s s1 :
  writableStreamsSupported = true →
  truthy (PenumbraFile.size file) = false →
  ∃ k, decryptJob writableStreamsSupported decryptFile options [file] s
       = (mkState (jobID s) (streams s) (log s ++ [GetWorker]), Await k) ∧
    (k s1).2 = Rejected "penumbra.decrypt(): Unable to determine file size" ∧
    streams (k s1).1 = S (S (streams s1)) ∧
    take 2 (log_since s1 (k s1).1)
    = [NewRemoteReadableStream (streams s1);
       NewRemoteWritableStream (S (streams s1))].
Proof.
  intros -> Hs. unfold decryptJob, collect_decrypt, id_or_next. cbn.
  eexists. split; [done|]. cbn. unfold log_since.
  destruct (truthy (PenumbraFile.id file)); cbn; rewrite Hs; cbn;
    (split; [done|]); (split; [done|]);
    rewrite <- ?app_assoc, drop_app_length; done.
Qed.

End CoordinatorFacts.

(** ** The claims about the calling context *)

Lemma Forall2_zip_lookup {X C B} (R : X * C → B → Prop) (xs : list X)
    (cs : list C) (rs : list B) i x c :
  Forall2 R (zip xs cs) rs → xs !! i = Some x → cs !! i = Some c →
  ∃ r, rs !! i = Some r ∧ R (x, c) r.
Proof.
  intros HF Hx Hc. eapply Forall2_lookup_l; [done|].
  by rewrite lookup_zip_with, Hx, Hc.
Qed.

Lemma encrypt_result_id w options file n r :
  encrypt_result w options file n r →
  ∃ r', r = Some r' ∧ PenumbraFile.id r' = Some n.
Proof.
  unfold encrypt_result. destruct w.
  - intros [c ->]. by eexists.
  - intros ->. eexists. split; [done|]. by destruct options.
Qed.

(** C2, as the code has it: on the buffered path every item is a job of
    its own, so the 16 MiB ceiling bounds the declared size of each item
    and not the total of the batch.  A call with an item above the ceiling,
    whose earlier items are valid, is rejected with the too-large error
    and returns nothing; and whatever the batch, no file that declares
    more than 16 MiB is ever handed to [encryptFile] or [decryptFile]. *)
Theorem C2_ceiling_per_item decryptFile ticks s :
  1 ≤ ticks →
  (∀ options pre file post,
     Forall (valid_file false) pre →
     instanceof_ArrayBuffer (PenumbraFile.stream file) = false →
     (MAX_ALLOWED_SIZE_MAIN_THREAD < default 0 (PenumbraFile.size file))%N →
     (encrypt false ticks options (pre ++ file :: post) s).2
     = Rejects
         "penumbra.encrypt(): File is too large to encrypt without writable streams") ∧
  (∀ options pre file post,
     Forall (valid_file false) pre →
     (MAX_ALLOWED_SIZE_MAIN_THREAD < default 0 (PenumbraFile.size file))%N →
     (decrypt false decryptFile ticks options (pre ++ file :: post) s).2
     = Rejects
         "penumbra.decrypt(): File is too large to decrypt without writable streams") ∧
  (∀ options files,
     Forall within_ceiling (log_since s (encrypt false ticks options files s).1)) ∧
  (∀ options files,
     Forall within_ceiling
       (log_since s (decrypt false decryptFile ticks options files s).1)).
Proof.
  intros Ht. repeat split.
  - intros. by apply encrypt_rejects_too_large.
  - intros. by apply decrypt_rejects_too_large.
  - intros options files. apply steps_within_ceiling.
    apply (Promise_all_runs (steps within_ceiling)).
    intros file _. apply encrypt_one_steps.
  - intros options files. apply steps_within_ceiling.
    apply (Promise_all_runs (steps within_ceiling)).
    intros file _. apply decrypt_one_steps.
Qed.

Lemma C2_witness :
  (encrypt false 1 None [sample_file 0 (Some (17 * MiB)%N)] initial).2
  = Rejects
      "penumbra.encrypt(): File is too large to encrypt without writable streams" ∧
  (decrypt false sample_decryptFile 1 sample_info
     [sample_file 0 (Some (17 * MiB)%N)] initial).2
  = Rejects
      "penumbra.decrypt(): File is too large to decrypt without writable streams".
Proof.
  destruct (C2_ceiling_per_item sample_decryptFile 1 initial (le_n 1))
    as (He & Hd & _).
  split.
  - apply (He None [] (sample_file 0 (Some (17 * MiB)%N)) []);
      [constructor|reflexivity|vm_compute; reflexivity].
  - apply (Hd sample_info [] (sample_file 0 (Some (17 * MiB)%N)) []);
      [constructor|vm_compute; reflexivity].
Defined.

(** C2, as stated, fails: on the buffered path two files of 10 MiB each,
    20 MiB in total, are decrypted and encrypted without an error. *)
Lemma C2_counterexample :
  (MAX_ALLOWED_SIZE_MAIN_THREAD < 10 * MiB + 10 * MiB)%N ∧
  (decrypt false sample_decryptFile 5 sample_info
     [sample_file 0 (Some (10 * MiB)%N); sample_file 1 (Some (10 * MiB)%N)]
     initial).2
  = Resolves [Some (sample_file 0 (Some (10 * MiB)%N));
              Some (sample_file 1 (Some (10 * MiB)%N))] ∧
  (encrypt false 5 None
     [sample_file 0 (Some (10 * MiB)%N); sample_file 1 (Some (10 * MiB)%N)]
     initial).2
  = Resolves
      [Some (PenumbraFile.with_id (Some 0%N) (sample_file 0 (Some (10 * MiB)%N)));
       Some (PenumbraFile.with_id (Some 1%N) (sample_file 1 (Some (10 * MiB)%N)))].
Proof. split; [done|]. split; vm_compute; reflexivity. Qed.

(** C3, as the code has it: a batch of [encrypt], or of [decrypt] on the
    streaming path, in which the size of an item cannot be determined and
    the items before it are valid, is rejected with the size-undetermined
    error.  The check is made item by item: in [encrypt] the job of that
    item is rejected before it creates a channel pair but after it has
    drawn a job identifier, and in [decrypt] the job creates its two remote
    streams before it looks at the size. *)
Theorem C3_size_undetermined ticks s file :
  2 ≤ ticks →
  truthy (PenumbraFile.size file) = false →
  (∀ w options pre post,
     Forall (valid_file w) pre →
     instanceof_ArrayBuffer (PenumbraFile.stream file) = false →
     (encrypt w ticks options (pre ++ file :: post) s).2
     = Rejects "penumbra.encrypt(): Unable to determine file size") ∧
  (∀ decryptFile options pre post,
     Forall (valid_file true) pre →
     (decrypt true decryptFile ticks options (pre ++ file :: post) s).2
     = Rejects "penumbra.decrypt(): Unable to determine file size") ∧
  (∀ w options,
     instanceof_ArrayBuffer (PenumbraFile.stream file) = false →
     encryptJob w options [file] s
     = (mkState (jobID s + 1) (streams s) (log s ++ [JobIDpp (jobID s)]),
        Rejected "penumbra.encrypt(): Unable to determine file size")) ∧
  (∀ decryptFile options s1,
     ∃ k, decryptJob true decryptFile options [file] s
          = (mkState (jobID s) (streams s) (log s ++ [GetWorker]), Await k) ∧
       (k s1).2 = Rejected "penumbra.decrypt(): Unable to determine file size" ∧
       streams (k s1).1 = S (S (streams s1)) ∧
       take 2 (log_since s1 (k s1).1)
       = [NewRemoteReadableStream (streams s1);
          NewRemoteWritableStream (S (streams s1))]).
Proof.
  intros Ht Hs. repeat split.
  - intros. apply encrypt_rejects_size; [lia|done..].
  - intros. by apply decrypt_rejects_size.
  - intros. by apply encryptJob_size.
  - intros. by apply decryptJob_size.
Qed.

Lemma C3_witness :
  (encrypt true 2 None [sample_file 0 None] initial).2
  = Rejects "penumbra.encrypt(): Unable to determine file size" ∧
  (decrypt true sample_decryptFile 2 sample_info [sample_file 0 None] initial).2
  = Rejects "penumbra.decrypt(): Unable to determine file size" ∧
  encryptJob true None [sample_file 0 None] initial
  = (mkState (jobID initial + 1) (streams initial)
       (log initial ++ [JobIDpp (jobID initial)]),
     Rejected "penumbra.encrypt(): Unable to determine file size").
Proof.
  destruct (C3_size_undetermined 2 initial (sample_file 0 None) (le_n 2)
              eq_refl) as (He & Hd & Hj & _).
  split; [|split].
  - apply (He true None [] []); [constructor|reflexivity].
  - apply (Hd sample_decryptFile sample_info [] []). constructor.
  - apply Hj. reflexivity.
Defined.

(** C3, as stated, fails: a file without a size is rejected only after a
    job identifier has been consumed, and in [decrypt] after the remote
    streams of the channel pair have been created. *)
Lemma C3_counterexample :
  encrypt true 5 None [sample_file 0 None] initial
  = (mkState 1 0 [JobIDpp 0],
     Rejects "penumbra.encrypt(): Unable to determine file size") ∧
  decrypt true sample_decryptFile 5 sample_info [sample_file 0 None] initial
  = (mkState 1 2 [GetWorker; NewRemoteReadableStream 0;
                  NewRemoteWritableStream 1; JobIDpp 0],
     Rejects "penumbra.decrypt(): Unable to determine file size").
Proof. split; vm_compute; reflexivity. Qed.

(** C4: an empty batch does not reach the guard of the job: [get],
    [encrypt] and [decrypt] resolve to the empty list, although each job
    would reject an empty batch. *)
Theorem C4_empty_batch_resolves w pathname decryptFile ticks options info s :
  get w pathname ticks [] s = (s, Resolves []) ∧
  encrypt w ticks options [] s = (s, Resolves []) ∧
  decrypt w decryptFile ticks info [] s = (s, Resolves []) ∧
  getJob w pathname [] s
  = (s, Rejected "penumbra.get() called without arguments") ∧
  encryptJob w options [] s
  = (s, Rejected "penumbra.encrypt() called without arguments") ∧
  decryptJob w decryptFile info [] s
  = (s, Rejected "penumbra.decrypt() called without arguments").
Proof.
  unfold get, encrypt, decrypt. rewrite !Promise_all_nil. done.
Qed.

(** C5, as the code has it: [encrypt] gives every item of a valid batch a
    fresh identifier from the counter, whether or not the item carries an
    id; on the streaming path [decrypt] lets an item keep a non-zero id
    that it carries and gives an item without id a fresh one; on the
    buffered path [decrypt] assigns nothing and hands every file as it is
    to the cipher; and the identifiers drawn from the counter increase
    strictly, whatever is called. *)
Theorem C5_job_identifiers ticks s :
  5 ≤ ticks →
  (∀ w options files,
     Forall (valid_file w) files →
     ∃ s' rs, encrypt w ticks options files s = (s', Resolves rs) ∧
       ∀ i file, files !! i = Some file →
         ∃ r, rs !! i = Some (Some r) ∧
              PenumbraFile.id r = Some (jobID s + N.of_nat i)%N) ∧
  (∀ decryptFile options files,
     Forall (valid_file true) files →
     Forall (λ file, PenumbraFile.id file ≠ Some 0%N) files →
     ∃ s' rs, decrypt true decryptFile ticks options files s
              = (s', Resolves rs) ∧
       ∀ i file, files !! i = Some file →
         ∃ r, rs !! i = Some (Some r) ∧
              PenumbraFile.id r
              = Some (match PenumbraFile.id file with
                      | Some n => n
                      | None => (jobID s + drawn_before files i)%N
                      end)) ∧
  (∀ decryptFile options files,
     Forall (valid_file false) files →
     ∃ s' rs, decrypt false decryptFile ticks options files s
              = (s', Resolves rs) ∧
       Forall2 (λ file r,
                  r = Some (decryptFile options file (PenumbraFile.size file)))
         files rs) ∧
  (counter_ok s →
   ∀ w pathname decryptFile ticks' options info resources files,
     counter_ok (get w pathname ticks' resources s).1 ∧
     counter_ok (encrypt w ticks' options files s).1 ∧
     counter_ok (decrypt w decryptFile ticks' info files s).1).
Proof.
  intros Ht. split; [|split; [|split]].
  - intros w options files Hv.
    destruct (encrypt_resolves w ticks options files s Ht Hv)
      as (s' & rs & E & HF).
    exists s', rs. split; [done|]. intros i file Hi.
    pose proof (lookup_lt_Some _ _ _ Hi) as Hlt.
    destruct (Forall2_zip_lookup _ _ _ _ i file _ HF Hi
                (counter_trace_lookup _ _ _ _ Hlt)) as (r & Hr & HR).
    simpl in HR. apply encrypt_result_id in HR as (r' & -> & Hid).
    exists r'. split; [done|]. rewrite Hid, foldl_succ; [done|lia].
  - intros decryptFile options files Hv Hz.
    destruct (decrypt_stream_resolves true decryptFile ticks options files s
                eq_refl Ht Hv) as (s' & rs & E & HF).
    exists s', rs. split; [done|]. intros i file Hi.
    pose proof (lookup_lt_Some _ _ _ Hi) as Hlt.
    destruct (Forall2_zip_lookup _ _ _ _ i file _ HF Hi
                (counter_trace_lookup _ _ _ _ Hlt)) as (r & Hr & [c ->]).
    simpl in Hr. rewrite foldl_drawn_before in Hr.
    eexists. split; [done|]. simpl.
    pose proof (proj1 (Forall_forall _ _) Hz file
                  (list_elem_of_lookup_2 _ _ _ Hi)) as Hne.
    simpl in Hne. destruct (PenumbraFile.id file) as [[|n]|]; simpl; done.
  - intros decryptFile options files Hv.
    apply decrypt_buffer_resolves; [done..|].
    eapply Forall_impl; [done|]. by intros file (_ & _ & Hm); apply Hm.
  - intros Hs w pathname decryptFile ticks' options info resources files.
    split; [|split];
      (eapply (steps_counter_ok within_ceiling); [|exact Hs]);
      apply (Promise_all_runs (steps within_ceiling)); intros x _.
    + apply get_one_steps.
    + apply encrypt_one_steps.
    + apply decrypt_one_steps.
Qed.

Lemma C5_witness :
  (∃ s' rs, encrypt true 5 None
              [sample_file 0 (Some 1024%N); sample_file 1 (Some 2048%N)]
              initial = (s', Resolves rs) ∧
     ∀ i file,
       [sample_file 0 (Some 1024%N); sample_file 1 (Some 2048%N)] !! i
       = Some file →
       ∃ r, rs !! i = Some (Some r) ∧
            PenumbraFile.id r = Some (jobID initial + N.of_nat i)%N) ∧
  (∃ s' rs, decrypt true sample_decryptFile 5 sample_info
              [PenumbraFile.with_id (Some 7%N) (sample_file 0 (Some 1024%N));
               sample_file 1 (Some 2048%N)]
              initial = (s', Resolves rs) ∧
     ∀ i file,
       [PenumbraFile.with_id (Some 7%N) (sample_file 0 (Some 1024%N));
        sample_file 1 (Some 2048%N)] !! i = Some file →
       ∃ r, rs !! i = Some (Some r) ∧
            PenumbraFile.id r
            = Some (match PenumbraFile.id file with
                    | Some n => n
                    | None =>
                        (jobID initial +
                         drawn_before
                           [PenumbraFile.with_id (Some 7%N)
                              (sample_file 0 (Some 1024%N));
                            sample_file 1 (Some 2048%N)] i)%N
                    end)) ∧
  (∃ s' rs, decrypt false sample_decryptFile 5 sample_info
              [sample_file 0 (Some 1024%N)] initial = (s', Resolves rs) ∧
     Forall2 (λ file r,
                r = Some (sample_decryptFile sample_info file
                            (PenumbraFile.size file)))
       [sample_file 0 (Some 1024%N)] rs) ∧
  counter_ok (encrypt true 5 None [sample_file 0 (Some 1024%N)] initial).1.
Proof.
  destruct (C5_job_identifiers 5 initial (le_n 5)) as (He & Hd & Hb & Hc).
  split; [|split; [|split]].
  - apply He. repeat constructor; done.
  - apply Hd; repeat constructor; done.
  - apply Hb. repeat constructor; done.
  - apply (Hc (conj (SSorted_nil _) (Forall_nil_2 _))
             true sample_pathname sample_decryptFile 5 None sample_info
             [] [sample_file 0 (Some 1024%N)]).
Defined.

(** C5, as stated, fails: [encrypt] replaces the id that a file carries by
    the next value of the counter. *)
Lemma C5_counterexample :
  (encrypt true 5 None
     [PenumbraFile.with_id (Some 7%N) (sample_file 0 (Some 1024%N))]
     initial).2
  = Resolves
      [Some (PenumbraFile.with_id (Some 0%N)
               (PenumbraFile.with_stream (readable 0)
                  (sample_file 0 (Some 1024%N))))].
Proof. vm_compute. reflexivity. Qed.

(** C9, as the code has it: a file whose declared size is exactly 0 is
    rejected with the size-undetermined error by [encrypt] on both paths
    (for a live stream) and by [decrypt] on the streaming path, when the
    items before it are valid: the check tests truthiness.  On the
    buffered path [decrypt] makes no such check and decrypts the file. *)
Theorem C9_zero_size_rejected ticks s file :
  5 ≤ ticks →
  PenumbraFile.size file = Some 0%N →
  (∀ w options pre post,
     Forall (valid_file w) pre →
     instanceof_ArrayBuffer (PenumbraFile.stream file) = false →
     (encrypt w ticks options (pre ++ file :: post) s).2
     = Rejects "penumbra.encrypt(): Unable to determine file size") ∧
  (∀ decryptFile options pre post,
     Forall (valid_file true) pre →
     (decrypt true decryptFile ticks options (pre ++ file :: post) s).2
     = Rejects "penumbra.decrypt(): Unable to determine file size") ∧
  (∀ decryptFile options,
     (decrypt false decryptFile ticks options [file] s).2
     = Resolves [Some (decryptFile options file (Some 0%N))]).
Proof.
  intros Ht Hs.
  assert (truthy (PenumbraFile.size file) = false) as Hf by by rewrite Hs.
  split; [|split].
  - intros. apply encrypt_rejects_size; [lia|done..].
  - intros. apply decrypt_rejects_size; [done|lia|done..].
  - intros decryptFile options.
    destruct (decrypt_buffer_resolves false decryptFile ticks options [file] s
                eq_refl Ht) as (s' & rs & -> & HF).
    { repeat constructor. by rewrite Hs. }
    simpl. apply Forall2_cons_inv_l in HF as (r & rs' & -> & HF & ->).
    apply Forall2_nil_inv_l in HF as ->. by rewrite Hs.
Qed.

Lemma C9_witness :
  (encrypt false 5 None [sample_file 0 (Some 0%N)] initial).2
  = Rejects "penumbra.encrypt(): Unable to determine file size" ∧
  (decrypt true sample_decryptFile 5 sample_info [sample_file 0 (Some 0%N)]
     initial).2
  = Rejects "penumbra.decrypt(): Unable to determine file size" ∧
  (decrypt false sample_decryptFile 5 sample_info [sample_file 0 (Some 0%N)]
     initial).2
  = Resolves [Some (sample_decryptFile sample_info (sample_file 0 (Some 0%N))
                      (Some 0%N))].
Proof.
  destruct (C9_zero_size_rejected 5 initial (sample_file 0 (Some 0%N))
              (le_n 5) eq_refl) as (He & Hd & Hb).
  split; [|split].
  - apply (He false None [] []); [constructor|reflexivity].
  - apply (Hd sample_decryptFile sample_info [] []). constructor.
  - apply Hb.
Defined.

(** C9, as stated, fails: on the buffered path [decrypt] does not look at
    the truthiness of the size, and a file of declared size 0 is
    decrypted. *)
Lemma C9_counterexample :
  decrypt false sample_decryptFile 5 sample_info [sample_file 0 (Some 0%N)]
    initial
  = (mkState 0 0
       [Import "./decrypt";
        DecryptFile sample_info (sample_file 0 (Some 0%N)) (Some 0%N)],
     Resolves [Some (sample_file 0 (Some 0%N))]).
Proof. vm_compute. reflexivity. Qed.

(** C10, as the code has it: a batch of [encrypt] with a file whose stream
    is a materialized buffer is rejected on both paths, with the
    streams-only error when the items before it are valid; the job of
    such a file is rejected before it assigns a job id to any of its
    files. *)
Theorem C10_buffer_rejected ticks s file :
  1 ≤ ticks →
  instanceof_ArrayBuffer (PenumbraFile.stream file) = true →
  (∀ w options files,
     file ∈ files → ∃ e, (encrypt w ticks options files s).2 = Rejects e) ∧
  (∀ w options pre post,
     Forall (valid_file w) pre →
     (encrypt w ticks options (pre ++ file :: post) s).2
     = Rejects "penumbra.encrypt() only supports ReadableStreams") ∧
  (∀ w options files,
     file ∈ files →
     encryptJob w options files s
     = (s, Rejected "penumbra.encrypt() only supports ReadableStreams")).
Proof.
  intros Ht Hb. split; [|split].
  - intros w options files Hf.
    apply (Promise_all_rejects_some 1
             "penumbra.encrypt() only supports ReadableStreams" ticks
             (encrypt_one w options) files file s Ht Hf).
    intros s1. by apply encrypt_one_buffer.
  - intros. by apply encrypt_rejects_buffer.
  - intros w options files Hf.
    by apply (encryptJob_buffer w options files file).
Qed.

Lemma C10_witness :
  (∃ e, (encrypt true 1 None
           [sample_file 0 (Some 1024%N); sample_buffer 1 (Some 1024%N)]
           initial).2 = Rejects e) ∧
  (encrypt false 1 None [sample_buffer 1 (Some 1024%N)] initial).2
  = Rejects "penumbra.encrypt() only supports ReadableStreams" ∧
  encryptJob true None
    [sample_file 0 (Some 1024%N); sample_buffer 1 (Some 1024%N)] initial
  = (initial, Rejected "penumbra.encrypt() only supports ReadableStreams").
Proof.
  destruct (C10_buffer_rejected 1 initial (sample_buffer 1 (Some 1024%N))
              (le_n 1) eq_refl) as (Hs & He & Hj).
  split; [|split].
  - apply Hs. apply list_elem_of_further, list_elem_of_here.
  - apply (He false None [] []). constructor.
  - apply Hj. apply list_elem_of_further, list_elem_of_here.
Defined.

(** C10, as stated, fails: the live-stream file that precedes the buffer
    in the batch is assigned job id 0, and its job runs, although the
    call is rejected. *)
Lemma C10_counterexample :
  encrypt true 5 None
    [sample_file 0 (Some 1024%N); sample_buffer 1 (Some 1024%N)] initial
  = (mkState 1 2
       [JobIDpp 0; GetWorker; NewRemoteReadableStream 0;
        NewRemoteWritableStream 1; NewChannel;
        ThreadEncrypt None [0%N] [1024%N] [1] [0];
        PipeTo (ReadableStream 0) 1],
     Rejects "penumbra.encrypt() only supports ReadableStreams").
Proof. vm_compute. reflexivity. Qed.

(** ** The worker-facing surface *)

Module PenumbraWorkerFacts.
Import PenumbraWorker.

#[local] Instance same_warnings_preorder : PreOrder same_warnings.
Proof.
  split; [done|]. intros s1 s2 s3 H12 H23. unfold same_warnings in *. congruence.
Qed.

Lemma warnings_app s s' : warnings (s ++ s') = warnings s ++ warnings s'.
Proof. apply omap_app. Qed.

Local Ltac quiet_goal :=
  repeat first
    [ progress cbn | intros ?s | split
    | progress (unfold same_warnings; rewrite ?warnings_app, ?app_nil_r) ];
  try done.

Lemma get_callback_quiet writablePorts (ix : nat * RemoteResource.t) :
  Runs same_warnings (λ _, same_warnings)
    (match RemoteResource.url ix.2 with
     | None =>
         throw "PenumbraDecryptionWorker.get(): RemoteResource missing URL"
     | Some _ =>
         let requestInit := RemoteResource.requestInit ix.2 in
         let* remoteStream := fromWritablePort writablePorts ix.1 in
         do await (emit (FetchAndDecrypt ix.2 requestInit)) then
         emit (PipeTo (Fetched ix.2) remoteStream)
     end)%async.
Proof.
  intros s. unfold fromWritablePort.
  destruct (RemoteResource.url ix.2); [|quiet_goal].
  destruct (writablePorts !! ix.1); quiet_goal.
Qed.

Lemma decrypt_callback_quiet options (ids sizes : list N)
    (readablePorts writablePorts : list nat) (ix : nat * nat) :
  Runs same_warnings (λ _, same_warnings)
    (let* stream := fromReadablePort readablePorts ix.1 in
     let* writable := fromWritablePort writablePorts ix.1 in
     let id := ids !! ix.1 in
     let size := sizes !! ix.1 in
     do emit (Decrypt options stream size id) then
     emit (PipeTo (Decrypted stream) writable))%async.
Proof.
  intros s. unfold fromReadablePort, fromWritablePort.
  destruct (readablePorts !! ix.1); [|quiet_goal].
  destruct (writablePorts !! ix.1); quiet_goal.
Qed.

Lemma encrypt_callback_quiet options (ids sizes : list N)
    (readablePorts writablePorts : list nat) (ix : nat * nat) :
  Runs same_warnings (λ _, same_warnings)
    (let* stream := fromReadablePort readablePorts ix.1 in
     let* writable := fromWritablePort writablePorts ix.1 in
     let id := ids !! ix.1 in
     let size := sizes !! ix.1 in
     do emit (Encrypt options stream size id) then
     emit (PipeTo (Encrypted stream) writable))%async.
Proof.
  intros s. unfold fromReadablePort, fromWritablePort.
  destruct (readablePorts !! ix.1); [|quiet_goal].
  destruct (writablePorts !! ix.1); quiet_goal.
Qed.

Lemma run_forEach {X} ticks (f : X → nat → Async unit) xs s :
  (∀ ix, Runs same_warnings (λ _, same_warnings) (f ix.2 ix.1)) →
  ∃ s' ts, run ticks (forEach_async f xs) s = (s', Fulfilled ts) ∧
    length ts = length xs ∧ warnings s' = warnings s.
Proof.
  intros Hf. unfold run, forEach_async.
  destruct (spawn_all_runs same_warnings (λ ix, f ix.2 ix.1) (imap pair xs) s)
    as [Hg Hr]; [by intros ix _|].
  pose proof (spawn_all_length (λ ix, f ix.2 ix.1) (imap pair xs) s) as Hl.
  destruct (spawn_all _ _ s) as [s1 ts]. simpl in *.
  pose proof (event_loop_runs same_warnings ticks ts None s1 Hr) as He.
  pose proof (event_loop_length ticks ts None s1) as Hl'.
  destruct (event_loop ticks ts None s1) as [s2 [ts' rej]]. simpl in *.
  exists s2, ts'. split; [done|]. split.
  - by rewrite Hl', Hl, length_imap.
  - unfold same_warnings in *. congruence.
Qed.

Lemma min_take_length {X Y} (xs : list X) (ys : list Y) :
  length (take (length xs `min` length ys) xs) = length xs `min` length ys ∧
  length (take (length xs `min` length ys) ys) = length xs `min` length ys.
Proof. rewrite !length_take. lia. Qed.

Lemma get_truncates writablePorts resources s :
  length writablePorts ≠ length resources →
  get writablePorts resources s
  = get (take (length writablePorts `min` length resources) writablePorts)
      (take (length writablePorts `min` length resources) resources)
      (s ++ [ConsoleWarn
               (count_mismatch "Writable ports" "Resources"
                  (length writablePorts) (length resources)
                  (length writablePorts `min` length resources))]).
Proof.
  intros Hne. unfold get.
  destruct (min_take_length writablePorts resources) as [E1 E2].
  rewrite E1, E2, Nat.eqb_refl.
  replace (length writablePorts =? length resources) with false
    by (symmetry; by apply Nat.eqb_neq).
  done.
Qed.

Lemma truncate_ports_mismatch readablePorts writablePorts s :
  length readablePorts ≠ length writablePorts →
  truncate_ports readablePorts writablePorts s
  = truncate_ports
      (take (length writablePorts `min` length readablePorts) readablePorts)
      (take (length writablePorts `min` length readablePorts) writablePorts)
      (s ++ [ConsoleWarn
               (count_mismatch "Readable ports" "Writable ports"
                  (length writablePorts) (length readablePorts)
                  (length writablePorts `min` length readablePorts))]).
Proof.
  intros Hne. unfold truncate_ports.
  destruct (min_take_length writablePorts readablePorts) as [E1 E2].
  rewrite E1, E2, Nat.eqb_refl.
  replace (length writablePorts =? length readablePorts) with false
    by (symmetry; apply Nat.eqb_neq; lia).
  done.
Qed.

Lemma truncate_ports_same readablePorts writablePorts s :
  length readablePorts = length writablePorts →
  truncate_ports readablePorts writablePorts s
  = (s, Fulfilled (readablePorts, writablePorts)).
Proof. intros E. unfold truncate_ports. by rewrite E, Nat.eqb_refl. Qed.


Lemma run_get_matching ticks writablePorts resources s :
  length writablePorts = length resources →
  ∃ s' ts, run ticks (get writablePorts resources) s = (s', Fulfilled ts) ∧
    length ts = length resources ∧ warnings s' = warnings s.
Proof.
  intros E.
  destruct (run_forEach ticks
    (λ (resource : RemoteResource.t) (i : nat),
       match RemoteResource.url resource with
       | Some _ =>
           let* remoteStream := fromWritablePort writablePorts i
           in do await
                   (emit
                      (FetchAndDecrypt resource
                         (RemoteResource.requestInit resource)))
              then emit (PipeTo (Fetched resource) remoteStream)
       | None =>
           throw "PenumbraDecryptionWorker.get(): RemoteResource missing URL"
       end)%async resources s) as (s' & ts & Hrun & Hlen & Hw).
  { intros ix. apply get_callback_quiet. }
  exists s', ts. split; [|done].
  rewrite <- Hrun. unfold run, get. by rewrite E, Nat.eqb_refl.
Qed.

Lemma run_decrypt_matching ticks options ids sizes readablePorts writablePorts s :
  length readablePorts = length writablePorts →
  ∃ s' ts,
    run ticks (decrypt options ids sizes readablePorts writablePorts) s
    = (s', Fulfilled ts) ∧
    length ts = length readablePorts ∧ warnings s' = warnings s.
Proof.
  intros E.
  destruct (run_forEach ticks
    (λ (readablePort : nat) (i : nat),
       let* stream := fromReadablePort readablePorts i in
       let* writable := fromWritablePort writablePorts i in
       let id := ids !! i in
       let size := sizes !! i in
       do emit (Decrypt options stream size id) then
       emit (PipeTo (Decrypted stream) writable))%async readablePorts s)
    as (s' & ts & Hrun & Hlen & Hw).
  { intros ix. apply decrypt_callback_quiet. }
  exists s', ts. split; [|done].
  rewrite <- Hrun. unfold run, decrypt. cbn [bind].
  by rewrite truncate_ports_same.
Qed.

Lemma run_encrypt_matching ticks options ids sizes readablePorts writablePorts s :
  length readablePorts = length writablePorts →
  ∃ s' ts,
    run ticks (encrypt options ids sizes readablePorts writablePorts) s
    = (s', Fulfilled ts) ∧
    length ts = length readablePorts ∧ warnings s' = warnings s.
Proof.
  intros E.
  destruct (run_forEach ticks
    (λ (readablePort : nat) (i : nat),
       let* stream := fromReadablePort readablePorts i in
       let* writable := fromWritablePort writablePorts i in
       let id := ids !! i in
       let size := sizes !! i in
       do emit (Encrypt options stream size id) then
       emit (PipeTo (Encrypted stream) writable))%async readablePorts s)
    as (s' & ts & Hrun & Hlen & Hw).
  { intros ix. apply encrypt_callback_quiet. }
  exists s', ts. split; [|done].
  rewrite <- Hrun. unfold run, encrypt. cbn [bind].
  by rewrite truncate_ports_same.
Qed.

Lemma decrypt_truncates options ids sizes readablePorts writablePorts s :
  length readablePorts ≠ length writablePorts →
  decrypt options ids sizes readablePorts writablePorts s
  = decrypt options ids sizes
      (take (length writablePorts `min` length readablePorts) readablePorts)
      (take (length writablePorts `min` length readablePorts) writablePorts)
      (s ++ [ConsoleWarn
               (count_mismatch "Readable ports" "Writable ports"
                  (length writablePorts) (length readablePorts)
                  (length writablePorts `min` length readablePorts))]).
Proof.
  intros Hne. unfold decrypt. cbn [bind].
  by rewrite (truncate_ports_mismatch _ _ s Hne).
Qed.

Lemma encrypt_truncates options ids sizes readablePorts writablePorts s :
  length readablePorts ≠ length writablePorts →
  encrypt options ids sizes readablePorts writablePorts s
  = encrypt options ids sizes
      (take (length writablePorts `min` length readablePorts) readablePorts)
      (take (length writablePorts `min` length readablePorts) writablePorts)
      (s ++ [ConsoleWarn
               (count_mismatch "Readable ports" "Writable ports"
                  (length writablePorts) (length readablePorts)
                  (length writablePorts `min` length readablePorts))]).
Proof.
  intros Hne. unfold encrypt. cbn [bind].
  by rewrite (truncate_ports_mismatch _ _ s Hne).
Qed.

End PenumbraWorkerFacts.

(** C6: when the writable ports and the resources of the worker's [get],
    or the readable and the writable ports of its [decrypt] or [encrypt],
    differ in number, the call does what it does for the batch cut to the
    smaller of the two numbers, after one warning: it returns without
    throwing, it starts one callback for each of the first [n] items and
    none for the others, and it writes no other warning. *)
Theorem C6_count_mismatch_truncates ticks s :
  (∀ writablePorts resources,
     length writablePorts ≠ length resources →
     let n := length writablePorts `min` length resources in
     let warning :=
       PenumbraWorker.count_mismatch "Writable ports" "Resources"
         (length writablePorts) (length resources) n in
     ∃ s' ts,
       PenumbraWorker.run ticks (PenumbraWorker.get writablePorts resources) s
       = (s', Fulfilled ts) ∧
       length ts = n ∧
       PenumbraWorker.warnings s' = PenumbraWorker.warnings s ++ [warning] ∧
       PenumbraWorker.run ticks (PenumbraWorker.get writablePorts resources) s
       = PenumbraWorker.run ticks
           (PenumbraWorker.get (take n writablePorts) (take n resources))
           (s ++ [PenumbraWorker.ConsoleWarn warning])) ∧
  (∀ options ids sizes readablePorts writablePorts,
     length readablePorts ≠ length writablePorts →
     let n := length writablePorts `min` length readablePorts in
     let warning :=
       PenumbraWorker.count_mismatch "Readable ports" "Writable ports"
         (length writablePorts) (length readablePorts) n in
     ∃ s' ts,
       PenumbraWorker.run ticks
         (PenumbraWorker.decrypt options ids sizes readablePorts writablePorts)
         s = (s', Fulfilled ts) ∧
       length ts = n ∧
       PenumbraWorker.warnings s' = PenumbraWorker.warnings s ++ [warning] ∧
       PenumbraWorker.run ticks
         (PenumbraWorker.decrypt options ids sizes readablePorts writablePorts)
         s
       = PenumbraWorker.run ticks
           (PenumbraWorker.decrypt options ids sizes
              (take n readablePorts) (take n writablePorts))
           (s ++ [PenumbraWorker.ConsoleWarn warning])) ∧
  (∀ options ids sizes readablePorts writablePorts,
     length readablePorts ≠ length writablePorts →
     let n := length writablePorts `min` length readablePorts in
     let warning :=
       PenumbraWorker.count_mismatch "Readable ports" "Writable ports"
         (length writablePorts) (length readablePorts) n in
     ∃ s' ts,
       PenumbraWorker.run ticks
         (PenumbraWorker.encrypt options ids sizes readablePorts writablePorts)
         s = (s', Fulfilled ts) ∧
       length ts = n ∧
       PenumbraWorker.warnings s' = PenumbraWorker.warnings s ++ [warning] ∧
       PenumbraWorker.run ticks
         (PenumbraWorker.encrypt options ids sizes readablePorts writablePorts)
         s
       = PenumbraWorker.run ticks
           (PenumbraWorker.encrypt options ids sizes
              (take n readablePorts) (take n writablePorts))
           (s ++ [PenumbraWorker.ConsoleWarn warning])).
Proof.
  split; [|split].
  - intros writablePorts resources Hne n warning.
    assert (PenumbraWorker.run ticks
              (PenumbraWorker.get writablePorts resources) s
            = PenumbraWorker.run ticks
                (PenumbraWorker.get (take n writablePorts) (take n resources))
                (s ++ [PenumbraWorker.ConsoleWarn warning])) as E.
    { unfold PenumbraWorker.run.
      by rewrite (PenumbraWorkerFacts.get_truncates _ _ s Hne). }
    destruct (PenumbraWorkerFacts.min_take_length writablePorts resources)
      as [E1 E2].
    destruct (PenumbraWorkerFacts.run_get_matching ticks
                (take n writablePorts) (take n resources)
                (s ++ [PenumbraWorker.ConsoleWarn warning]))
      as (s' & ts & Hrun & Hlen & Hw); [by etrans; [first [exact E1|exact E2]|]|].
    exists s', ts. rewrite E. split; [done|]. split; [rewrite Hlen; first [exact E2|exact E1]|].
    split; [|done]. by rewrite Hw, PenumbraWorkerFacts.warnings_app.
  - intros options ids sizes readablePorts writablePorts Hne n warning.
    assert (PenumbraWorker.run ticks
              (PenumbraWorker.decrypt options ids sizes
                 readablePorts writablePorts) s
            = PenumbraWorker.run ticks
                (PenumbraWorker.decrypt options ids sizes
                   (take n readablePorts) (take n writablePorts))
                (s ++ [PenumbraWorker.ConsoleWarn warning])) as E.
    { unfold PenumbraWorker.run.
      by rewrite (PenumbraWorkerFacts.decrypt_truncates _ _ _ _ _ s Hne). }
    destruct (PenumbraWorkerFacts.min_take_length writablePorts readablePorts)
      as [E1 E2].
    destruct (PenumbraWorkerFacts.run_decrypt_matching ticks options ids sizes
                (take n readablePorts) (take n writablePorts)
                (s ++ [PenumbraWorker.ConsoleWarn warning]))
      as (s' & ts & Hrun & Hlen & Hw); [by etrans; [first [exact E1|exact E2]|]|].
    exists s', ts. rewrite E. split; [done|]. split; [rewrite Hlen; first [exact E2|exact E1]|].
    split; [|done]. by rewrite Hw, PenumbraWorkerFacts.warnings_app.
  - intros options ids sizes readablePorts writablePorts Hne n warning.
    assert (PenumbraWorker.run ticks
              (PenumbraWorker.encrypt options ids sizes
                 readablePorts writablePorts) s
            = PenumbraWorker.run ticks
                (PenumbraWorker.encrypt options ids sizes
                   (take n readablePorts) (take n writablePorts))
                (s ++ [PenumbraWorker.ConsoleWarn warning])) as E.
    { unfold PenumbraWorker.run.
      by rewrite (PenumbraWorkerFacts.encrypt_truncates _ _ _ _ _ s Hne). }
    destruct (PenumbraWorkerFacts.min_take_length writablePorts readablePorts)
      as [E1 E2].
    destruct (PenumbraWorkerFacts.run_encrypt_matching ticks options ids sizes
                (take n readablePorts) (take n writablePorts)
                (s ++ [PenumbraWorker.ConsoleWarn warning]))
      as (s' & ts & Hrun & Hlen & Hw); [by etrans; [first [exact E1|exact E2]|]|].
    exists s', ts. rewrite E. split; [done|]. split; [rewrite Hlen; first [exact E2|exact E1]|].
    split; [|done]. by rewrite Hw, PenumbraWorkerFacts.warnings_app.
Qed.


Lemma C6_witness :
  (∃ s' ts,
     PenumbraWorker.run 2
       (PenumbraWorker.get [10; 11; 12] [sample_resource]) []
     = (s', Fulfilled ts) ∧ length ts = 1 ∧
     PenumbraWorker.warnings s'
     = ["Writable ports (3) <-> Resources (1) count mismatch. Truncating to common subset (1)."]) ∧
  (∃ s' ts,
     PenumbraWorker.run 2
       (PenumbraWorker.decrypt sample_info [0%N; 1%N] [1024%N; 2048%N]
          [20; 21] [10]) []
     = (s', Fulfilled ts) ∧ length ts = 1 ∧
     PenumbraWorker.warnings s'
     = ["Readable ports (1) <-> Writable ports (2) count mismatch. Truncating to common subset (1)."]) ∧
  (∃ s' ts,
     PenumbraWorker.run 2
       (PenumbraWorker.encrypt None [0%N; 1%N] [1024%N; 2048%N]
          [20] [10; 11]) []
     = (s', Fulfilled ts) ∧ length ts = 1 ∧
     PenumbraWorker.warnings s'
     = ["Readable ports (2) <-> Writable ports (1) count mismatch. Truncating to common subset (1)."]).
Proof.
  destruct (C6_count_mismatch_truncates 2 []) as (Hg & Hd & He).
  split; [|split].
  - destruct (Hg [10; 11; 12] [sample_resource])
      as (s' & ts & H1 & H2 & H3 & _); [simpl; lia|].
    exists s', ts. split; [exact H1|]. split; [exact H2|exact H3].
  - destruct (Hd sample_info [0%N; 1%N] [1024%N; 2048%N] [20; 21] [10])
      as (s' & ts & H1 & H2 & H3 & _); [simpl; lia|].
    exists s', ts. split; [exact H1|]. split; [exact H2|exact H3].
  - destruct (He None [0%N; 1%N] [1024%N; 2048%N] [20] [10; 11])
      as (s' & ts & H1 & H2 & H3 & _); [simpl; lia|].
    exists s', ts. split; [exact H1|]. split; [exact H2|exact H3].
Defined.

(** The ids and the sizes of [encrypt] are not counted: with two pairs of
    ports, one id and no size, nothing is cut and no warning is written;
    both pairs are encrypted, the first without a size, the second with
    neither size nor id. *)
Lemma C6_counterexample :
  PenumbraWorker.run 3
    (PenumbraWorker.encrypt None [5%N] [] [20; 21] [10; 11]) []
  = ([PenumbraWorker.FromReadablePort 20;
      PenumbraWorker.FromWritablePort 10;
      PenumbraWorker.Encrypt None 20 None (Some 5%N);
      PenumbraWorker.PipeTo (PenumbraWorker.Encrypted 20) 10;
      PenumbraWorker.FromReadablePort 21;
      PenumbraWorker.FromWritablePort 11;
      PenumbraWorker.Encrypt None 21 None None;
      PenumbraWorker.PipeTo (PenumbraWorker.Encrypted 21) 11],
     Fulfilled [Fulfilled (); Fulfilled ()]).
Proof. vm_compute. reflexivity. Qed.

(** ** Job completion *)

Module CompletionFacts.
Import Completion.
Implicit Types (s : State) (e : JobCompletionEmit) (l : Listener) (i : ID).

Section WithNumber.
Context {Number_toString : N → string}.
Local Abbreviation template := (Completion.template Number_toString).
Local Abbreviation listener := (Completion.listener Number_toString).
Local Abbreviation dispatch := (Completion.dispatch Number_toString).
Local Abbreviation dispatch_all := (Completion.dispatch_all Number_toString).
Local Abbreviation matches := (Completion.matches Number_toString).

Lemma complete_lookup_ne p q info (r : gmap nat PenumbraDecryptionInfo.t) :
  p ≠ q → complete q info r !! p = r !! p.
Proof.
  intros Hne. unfold complete. destruct (r !! q); [done|].
  by rewrite lookup_insert_ne.
Qed.

Lemma complete_lookup_Some p q info d (r : gmap nat PenumbraDecryptionInfo.t) :
  r !! p = Some d → complete q info r !! p = Some d.
Proof.
  intros Hp. unfold complete. destruct (r !! q) eqn:E; [done|].
  rewrite lookup_insert_ne; [done|]. intros ->. congruence.
Qed.

Lemma complete_lookup_None p info (r : gmap nat PenumbraDecryptionInfo.t) :
  r !! p = None → complete p info r !! p = Some info.
Proof. intros Hp. unfold complete. rewrite Hp. apply lookup_insert_eq. Qed.

(** One listener, one event. *)

Lemma listener_configs l e s :
  decryptionConfigs (listener l e s)
  = <[id e := decryptionInfo e]> (decryptionConfigs s).
Proof.
  unfold Completion.listener. destruct (searchForID l); [|done]. by case_decide.
Qed.

Lemma listener_resolved_Some l e s p d :
  resolved s !! p = Some d → resolved (listener l e s) !! p = Some d.
Proof.
  intros Hp. unfold Completion.listener. destruct (searchForID l); [|done].
  case_decide; [|done]. simpl. by apply complete_lookup_Some.
Qed.

Lemma listener_other l e s p i :
  promise l ≠ p → waiting p i s → waiting p i (listener l e s).
Proof.
  intros Hne (Hin & Hres & Huniq). unfold Completion.listener, waiting.
  destruct (searchForID l); [|done]. case_decide; [|done]. simpl.
  split; [|split].
  - apply list_elem_of_filter. split; [|done]. simpl. congruence.
  - by rewrite complete_lookup_ne.
  - apply Forall_forall. intros l' [_ Hl']%list_elem_of_filter.
    by apply (proj1 (Forall_forall _ _) Huniq).
Qed.

Lemma listener_own_skip e s p i :
  ¬ matches i e → waiting p i s →
  waiting p i (listener (mkListener p (Some i)) e s).
Proof.
  intros Hm Hw. unfold Completion.listener. simpl. by rewrite decide_False.
Qed.

Lemma listener_own_fire e s p i :
  matches i e → resolved s !! p = None →
  resolved (listener (mkListener p (Some i)) e s) !! p
  = Some (decryptionInfo e).
Proof.
  intros Hm Hres. unfold Completion.listener. simpl. rewrite decide_True by done. simpl.
  by apply complete_lookup_None.
Qed.

(** The listeners of a snapshot, one event. *)

Lemma foldl_listener_configs ls e s i :
  id e ≠ i →
  decryptionConfigs (foldl (λ s l, listener l e s) s ls) !! i
  = decryptionConfigs s !! i.
Proof.
  intros Hne. revert s. induction ls as [|l ls IH]; intros s; simpl; [done|].
  by rewrite IH, listener_configs, lookup_insert_ne.
Qed.

Lemma foldl_listener_configs_set ls e s :
  decryptionConfigs s !! id e = Some (decryptionInfo e) →
  decryptionConfigs (foldl (λ s l, listener l e s) s ls) !! id e
  = Some (decryptionInfo e).
Proof.
  revert s. induction ls as [|l ls IH]; intros s Hs; simpl; [done|].
  apply IH. by rewrite listener_configs, lookup_insert_eq.
Qed.

Lemma foldl_listener_resolved ls e s p d :
  resolved s !! p = Some d →
  resolved (foldl (λ s l, listener l e s) s ls) !! p = Some d.
Proof.
  revert s. induction ls as [|l ls IH]; intros s Hs; simpl; [done|].
  by apply IH, listener_resolved_Some.
Qed.

Lemma foldl_listener_waiting ls e s p i :
  Forall (λ l, promise l = p → l = mkListener p (Some i)) ls →
  (mkListener p (Some i) ∈ ls → ¬ matches i e) →
  waiting p i s → waiting p i (foldl (λ s l, listener l e s) s ls).
Proof.
  intros Hls. revert s.
  induction Hls as [|l ls Hl _ IH]; intros s Hm Hw; simpl; [done|].
  apply IH.
  - intros Hin. apply Hm. by right.
  - destruct (decide (promise l = p)) as [E|E].
    + rewrite (Hl E). apply listener_own_skip; [|done]. apply Hm.
      rewrite (Hl E). left.
    + by apply listener_other.
Qed.

(** Events. *)

Lemma dispatch_waiting e s p i :
  ¬ matches i e → waiting p i s → waiting p i (dispatch e s).
Proof.
  intros Hm Hw. apply foldl_listener_waiting; [by destruct Hw as (_ & _ & ?)|done..].
Qed.

Lemma dispatch_all_waiting es s p i :
  Forall (λ e, ¬ matches i e) es → waiting p i s →
  waiting p i (dispatch_all es s).
Proof.
  intros Hes. revert s. induction Hes as [|e es He _ IH]; intros s Hw; [done|].
  simpl. by apply IH, dispatch_waiting.
Qed.

Lemma dispatch_fires e s p i :
  matches i e → waiting p i s →
  resolved (dispatch e s) !! p = Some (decryptionInfo e) ∧
  decryptionConfigs (dispatch e s) !! id e = Some (decryptionInfo e).
Proof.
  intros Hm Hw. pose proof Hw as (Hin & Hres & Huniq). unfold Completion.dispatch.
  destruct (list_elem_of_split_l _ _ Hin) as (l1 & l2 & E & Hl1).
  rewrite E in Huniq |- *. rewrite foldl_app. simpl.
  apply Forall_app in Huniq as [H1 H2].
  assert (waiting p i (foldl (λ s l, listener l e s) s l1)) as (_ & Hres1 & _)
    by by apply foldl_listener_waiting.
  split.
  - apply foldl_listener_resolved. by apply listener_own_fire.
  - apply foldl_listener_configs_set.
    by rewrite listener_configs, lookup_insert_eq.
Qed.

Lemma dispatch_resolved e s p d :
  resolved s !! p = Some d → resolved (dispatch e s) !! p = Some d.
Proof. apply foldl_listener_resolved. Qed.

Lemma dispatch_all_resolved es s p d :
  resolved s !! p = Some d → resolved (dispatch_all es s) !! p = Some d.
Proof.
  revert s. induction es as [|e es IH]; intros s Hs; [done|].
  simpl. by apply IH, dispatch_resolved.
Qed.

Lemma dispatch_all_configs es s i :
  Forall (λ e, id e ≠ i) es →
  decryptionConfigs (dispatch_all es s) !! i = decryptionConfigs s !! i.
Proof.
  intros Hes. revert s. induction Hes as [|e es He _ IH]; intros s; [done|].
  simpl. rewrite IH. by apply foldl_listener_configs.
Qed.

Lemma dispatch_all_app es1 es2 s :
  dispatch_all (es1 ++ es2) s = dispatch_all es2 (dispatch_all es1 s).
Proof. apply foldl_app. Qed.

Lemma track_waiting i s :
  promises_ok s →
  waiting (promises s) i (trackJobCompletion (Some i) s).1.
Proof.
  intros [Hl Hr]. unfold waiting, trackJobCompletion. simpl. split; [|split].
  - apply elem_of_app. right. left.
  - by apply Hr.
  - apply Forall_app. split.
    + eapply Forall_impl; [done|]. simpl. lia.
    + by repeat constructor.
Qed.

(** [promises_ok] holds when the module is loaded and is kept by every
    call and every event. *)

Lemma promises_ok_initial : promises_ok initial.
Proof. split; [constructor|done]. Qed.

Lemma promises_ok_get (i : option ID) s :
  promises_ok s → promises_ok (getDecryptionInfo i s).1.
Proof.
  intros [Hl Hr]. unfold getDecryptionInfo.
  destruct (i ≫= _); [done|]. split; simpl.
  - apply Forall_app. split.
    + eapply Forall_impl; [done|]. simpl. lia.
    + repeat constructor.
  - intros p Hp. apply Hr. lia.
Qed.

Lemma listener_promises l e s : promises (listener l e s) = promises s.
Proof. unfold Completion.listener. destruct (searchForID l); [|done]. by case_decide. Qed.

Lemma promises_ok_listener l e s :
  promise l < promises s → promises_ok s → promises_ok (listener l e s).
Proof.
  intros Hlt [Hl Hr]. unfold Completion.listener, promises_ok.
  destruct (searchForID l); [|done]. case_decide; [|done]. simpl. split.
  - apply Forall_forall. intros l' [_ Hl']%list_elem_of_filter.
    by apply (proj1 (Forall_forall _ _) Hl).
  - intros p Hp. rewrite complete_lookup_ne; [by apply Hr|lia].
Qed.

Lemma promises_ok_foldl ls e s :
  Forall (λ l, promise l < promises s) ls → promises_ok s →
  promises_ok (foldl (λ s l, listener l e s) s ls).
Proof.
  revert s. induction ls as [|l ls IH]; intros s Hls Hok; [done|].
  apply Forall_cons in Hls as [Hl Hls]. simpl. apply IH.
  - by rewrite listener_promises.
  - by apply promises_ok_listener.
Qed.

Lemma promises_ok_dispatch e s : promises_ok s → promises_ok (dispatch e s).
Proof. intros Hok. apply promises_ok_foldl; [by destruct Hok|done]. Qed.

End WithNumber.
End CompletionFacts.

(** C7: [getDecryptionInfo] answers from [decryptionConfigs] when the
    descriptor of the job is recorded; otherwise it adds a listener for the
    job id, and the promise it returns stays pending until the first
    completion event whose id has the text of the job id, and is then
    resolved with the descriptor of that event.  When that event carries
    the very id of the call and no later event carries it again, the call
    made before the completion and a call made after it yield the same
    descriptor. *)
Theorem C7_getDecryptionInfo (Number_toString : N → string)
    (i : Completion.ID) (s : Completion.State) :
  (∀ info,
     Completion.decryptionConfigs s !! i = Some info →
     Completion.getDecryptionInfo (Some i) s
     = (s, Completion.Fulfilled_with info)) ∧
  (Completion.decryptionConfigs s !! i = None →
   Completion.promises_ok s →
   ∃ s1 p,
     Completion.getDecryptionInfo (Some i) s = (s1, Completion.Tracking p) ∧
     Completion.listeners s1
     = Completion.listeners s ++ [Completion.mkListener p (Some i)] ∧
     (∀ before e after,
        Forall (λ e', ¬ Completion.matches Number_toString i e') before →
        Completion.matches Number_toString i e →
        Completion.value (Completion.dispatch_all Number_toString before s1)
          (Completion.Tracking p) = None ∧
        Completion.value
          (Completion.dispatch_all Number_toString (before ++ e :: after) s1)
          (Completion.Tracking p)
        = Some (Completion.decryptionInfo e)) ∧
     (∀ before info after,
        Forall (λ e', ¬ Completion.matches Number_toString i e') before →
        Forall (λ e', Completion.id e' ≠ i) after →
        let s2 :=
          Completion.dispatch_all Number_toString
            (before ++ Completion.mkEmit i info :: after) s1 in
        Completion.value s2 (Completion.Tracking p) = Some info ∧
        Completion.getDecryptionInfo (Some i) s2
        = (s2, Completion.Fulfilled_with info))).
Proof.
  split.
  - intros info Hi. unfold Completion.getDecryptionInfo. simpl. by rewrite Hi.
  - intros Hi Hok.
    exists (Completion.trackJobCompletion (Some i) s).1, (Completion.promises s).
    pose proof (CompletionFacts.track_waiting i s Hok) as Hw.
    split; [|split; [|split]].
    + unfold Completion.getDecryptionInfo. simpl. by rewrite Hi.
    + done.
    + intros before e after Hb He.
      pose proof (CompletionFacts.dispatch_all_waiting _ _ _ _ Hb Hw) as Hw'.
      split; [by destruct Hw' as (_ & ? & _)|].
      rewrite CompletionFacts.dispatch_all_app. simpl.
      apply CompletionFacts.dispatch_all_resolved.
      by apply (CompletionFacts.dispatch_fires e _ _ i He Hw').
    + intros before info after Hb Ha s2.
      pose proof (CompletionFacts.dispatch_all_waiting _ _ _ _ Hb Hw) as Hw'.
      destruct (CompletionFacts.dispatch_fires
                  (Number_toString := Number_toString)
                  (Completion.mkEmit i info) _ _ i eq_refl Hw') as [Hr Hc].
      subst s2. rewrite CompletionFacts.dispatch_all_app. simpl in *. split.
      * by apply CompletionFacts.dispatch_all_resolved.
      * unfold Completion.getDecryptionInfo. simpl.
        by rewrite (CompletionFacts.dispatch_all_configs _ _ _ Ha), Hc.
Qed.

Lemma C7_witness :
  Completion.getDecryptionInfo (Some (Completion.Num 0))
    (Completion.mkState {[Completion.Num 0 := sample_info]} [] ∅ 0)
  = (Completion.mkState {[Completion.Num 0 := sample_info]} [] ∅ 0,
     Completion.Fulfilled_with sample_info) ∧
  ∃ s1 p,
    Completion.getDecryptionInfo (Some (Completion.Num 0)) Completion.initial
    = (s1, Completion.Tracking p) ∧
    let s2 :=
      Completion.dispatch_all Completion.decimal
        ([Completion.mkEmit (Completion.Num 1) sample_info] ++
         Completion.mkEmit (Completion.Num 0) sample_info ::
         [Completion.mkEmit (Completion.Str "a") sample_info]) s1 in
    Completion.value s2 (Completion.Tracking p) = Some sample_info ∧
    Completion.getDecryptionInfo (Some (Completion.Num 0)) s2
    = (s2, Completion.Fulfilled_with sample_info).
Proof.
  split.
  - apply (C7_getDecryptionInfo Completion.decimal (Completion.Num 0)
             (Completion.mkState {[Completion.Num 0 := sample_info]} [] ∅ 0)).
    reflexivity.
  - destruct (C7_getDecryptionInfo Completion.decimal (Completion.Num 0)
                Completion.initial) as [_ H].
    destruct H as (s1 & p & E & _ & _ & H).
    + reflexivity.
    + split; [constructor|]. intros. reflexivity.
    + exists s1, p. split; [exact E|]. apply H.
      * repeat constructor. unfold Completion.matches. simpl.
        vm_compute. discriminate.
      * repeat constructor. discriminate.
Defined.

(** A call for the job 5, made while the job runs, is resolved by the
    completion event whose id is the string 5; the descriptor is recorded
    under the string, so a call for the job 5 made after the completion
    finds nothing and returns a promise that is pending.  And when two
    completion events carry the id of the call while a call for another
    job is pending, the call made before them has the descriptor of the
    first, a call made after them that of the second. *)
Lemma C7_counterexample :
  (let s1 :=
     (Completion.getDecryptionInfo (Some (Completion.Num 5))
        Completion.initial).1 in
   let s2 :=
     Completion.dispatch Completion.decimal
       (Completion.mkEmit (Completion.Str "5") sample_info) s1 in
   Completion.getDecryptionInfo (Some (Completion.Num 5)) Completion.initial
   = (s1, Completion.Tracking 0) ∧
   Completion.value s2 (Completion.Tracking 0) = Some sample_info ∧
   ∃ s3,
     Completion.getDecryptionInfo (Some (Completion.Num 5)) s2
     = (s3, Completion.Tracking 1) ∧
     Completion.value s3 (Completion.Tracking 1) = None) ∧
  (let s1 :=
     (Completion.getDecryptionInfo (Some (Completion.Num 6))
        (Completion.getDecryptionInfo (Some (Completion.Num 5))
           Completion.initial).1).1 in
   let s2 :=
     Completion.dispatch_all Completion.decimal
       [Completion.mkEmit (Completion.Num 5) sample_info;
        Completion.mkEmit (Completion.Num 5) other_info] s1 in
   Completion.value s2 (Completion.Tracking 0) = Some sample_info ∧
   Completion.getDecryptionInfo (Some (Completion.Num 5)) s2
   = (s2, Completion.Fulfilled_with other_info) ∧
   other_info ≠ sample_info).
Proof.
  split.
  - split; [reflexivity|]. split; [reflexivity|].
    eexists. split; reflexivity.
  - split; [reflexivity|]. split; [vm_compute; reflexivity|]. discriminate.
Qed.

(** ** Text or URI *)

Module TextOrURIFacts.
Import TextOrURI.

#[global] Instance keeps_cache_preorder : PreOrder keeps_cache.
Proof. split; unfold keeps_cache; [by intros s|intros s1 s2 s3; auto]. Qed.

Lemma blob_url_inj (k k' : nat) :
  "blob:" +:+ pretty k = "blob:" +:+ pretty k' → k = k'.
Proof. intros H. by simplify_eq/=. Qed.

Lemma mint_keeps_cache s blob :
  keeps_cache s
    (mkState (objectURLs s ++ [blob])
       (blobCache s ++ ["blob:" +:+ pretty (length (objectURLs s))])).
Proof.
  intros [Hnd Hall]. split; simpl.
  - apply NoDup_app. split; [done|]. split; [|apply NoDup_singleton].
    intros u Hu [->|[]%elem_of_nil]%elem_of_cons.
    destruct (proj1 (Forall_forall _ _) Hall _ Hu) as (k & E & Hk).
    apply blob_url_inj in E. lia.
  - apply Forall_app. split.
    + eapply Forall_impl; [done|]. simpl. intros u (k & -> & Hk).
      exists k. split; [done|]. rewrite length_app. simpl. lia.
    + constructor; [|constructor]. eexists. split; [done|].
      rewrite length_app. simpl. lia.
Qed.

Section Callback.
Variable isViewableText : string → bool.
Variable responseText : Stream → string.

Lemma textOrURI_resolves file s :
  resolves_within 2 (result_for isViewableText responseText file)
    (textOrURI isViewableText responseText file s).2.
Proof.
  unfold textOrURI, result_for, getBlob, blob_of_file.
  destruct (isViewableText (default "" (PenumbraFile.mimetype file))) eqn:E;
    cbn.
  - intros s1. cbn. by rewrite E.
  - destruct (instanceof_ArrayBuffer (PenumbraFile.stream file)); cbn;
      repeat (intros ?s; cbn); by rewrite E.
Qed.

Lemma textOrURI_outputs file :
  Runs (λ s s', blobCache s' = blobCache s)
    (λ r s s', blobCache s' = blobCache s ++ uri_of r)
    (textOrURI isViewableText responseText file).
Proof.
  intros s. unfold textOrURI, getBlob, blob_of_file, uri_of.
  destruct (isViewableText (default "" (PenumbraFile.mimetype file))); cbn.
  - split; [done|]. intros s1. cbn. by rewrite app_nil_r.
  - destruct (instanceof_ArrayBuffer (PenumbraFile.stream file)); cbn;
      repeat first [split | intros ?s | progress cbn]; done.
Qed.

Lemma textOrURI_keeps_cache file :
  Runs keeps_cache (λ _, keeps_cache)
    (textOrURI isViewableText responseText file).
Proof.
  intros s. unfold textOrURI, getBlob, blob_of_file.
  destruct (isViewableText (default "" (PenumbraFile.mimetype file))); cbn.
  - split; [done|]. intros s1. cbn. by split.
  - destruct (instanceof_ArrayBuffer (PenumbraFile.stream file)); cbn;
      repeat match goal with
             | |- keeps_cache _ _ =>
                 first [reflexivity | apply mint_keeps_cache]
             | |- _ ∧ _ => split
             | |- ∀ _, _ => intros ?s
             | |- True => exact I
             | _ => progress cbn
             end.
Qed.
End Callback.
End TextOrURIFacts.

(** C8: for every file [getTextOrURI] yields a result of type text, with
    the contents of the file inline, exactly when the MIME type of the file
    is viewable text, and of type uri otherwise; the URIs it produces are
    what it appends to the blob cache, each of them once. *)
Theorem C8_text_or_uri isViewableText responseText ticks files s :
  2 ≤ ticks →
  TextOrURI.cache_ok s →
  ∃ s' rs,
    TextOrURI.getTextOrURI_after isViewableText responseText ticks files s
    = (s', Fulfilled <$> rs) ∧
    Forall2 (TextOrURI.result_for isViewableText responseText) files rs ∧
    (∃ new, TextOrURI.blobCache s' = TextOrURI.blobCache s ++ new ∧
            new ≡ₚ rs ≫= TextOrURI.uri_of) ∧
    NoDup (TextOrURI.blobCache s') ∧
    TextOrURI.cache_ok s'.
Proof.
  intros Ht Hok. unfold TextOrURI.getTextOrURI_after, TextOrURI.getTextOrURI.
  set (f := TextOrURI.textOrURI isViewableText responseText).
  pose proof (spawn_all_Forall2
    (λ file t, resolves_within 2
                 (TextOrURI.result_for isViewableText responseText file) t)
    f files s
    (λ file s1 _, TextOrURIFacts.textOrURI_resolves _ _ file s1)) as Hres.
  destruct (spawn_all_outputs TextOrURI.blobCache TextOrURI.uri_of f files s
              (TextOrURIFacts.textOrURI_outputs _ _))
    as (new0 & E0 & O0 & R0).
  destruct (spawn_all_runs TextOrURI.keeps_cache f files s
              (λ file _, TextOrURIFacts.textOrURI_keeps_cache _ _ file))
    as [K0 KR0].
  destruct (spawn_all f files s) as [s1 ts]. simpl in *.
  eapply Forall2_impl in Hres;
    [|intros x t; apply (resolves_within_le 2 ticks); exact Ht].
  destruct (event_loop_resolves ticks _ _ ts s1 Hres)
    as (s' & ts' & rs & E & Hv & HF).
  destruct (event_loop_outputs TextOrURI.blobCache TextOrURI.uri_of
              ticks ts None s1 R0) as (new1 & E1 & O1).
  pose proof (event_loop_runs TextOrURI.keeps_cache ticks ts None s1 KR0)
    as K1.
  rewrite E in E1, O1, K1 |- *. simpl in *.
  destruct (outputs_values TextOrURI.uri_of ts' rs Hv) as [-> Hout].
  exists s', rs. split; [done|]. split; [done|]. split.
  - exists (new0 ++ new1). split; [by rewrite E1, E0, app_assoc|].
    by rewrite <- Hout, O1, O0.
  - assert (TextOrURI.cache_ok s') as Hok' by by apply K1, K0.
    split; [by destruct Hok'|done].
Qed.

Lemma C8_witness :
  ∃ s' rs,
    TextOrURI.getTextOrURI_after (String.eqb "text/plain") (λ _, "contents") 2
      [PenumbraFile.mk None (ReadableStream 0) None (Some "text/plain")
         None None None None None None None;
       sample_file 1 None; sample_buffer 2 None]
      TextOrURI.initial
    = (s', Fulfilled <$> rs) ∧
    Forall2 (TextOrURI.result_for (String.eqb "text/plain") (λ _, "contents"))
      [PenumbraFile.mk None (ReadableStream 0) None (Some "text/plain")
         None None None None None None None;
       sample_file 1 None; sample_buffer 2 None] rs ∧
    (∃ new, TextOrURI.blobCache s'
            = TextOrURI.blobCache TextOrURI.initial ++ new ∧
            new ≡ₚ rs ≫= TextOrURI.uri_of) ∧
    NoDup (TextOrURI.blobCache s') ∧
    TextOrURI.cache_ok s'.
Proof.
  apply (C8_text_or_uri (String.eqb "text/plain") (λ _, "contents") 2);
    [lia|]. split; [apply NoDup_nil_2|constructor].
Defined.

(** ** The batch jobs on their own *)

Lemma mapA_readable {X} (xs : list X) s :
  mapA (λ _, newRemoteReadableStream) xs s
  = (mkState (jobID s) (streams s + length xs)
       (log s ++ (NewRemoteReadableStream <$> seq (streams s) (length xs))),
     Fulfilled (seq (streams s) (length xs))).
Proof.
  revert s. induction xs as [|x xs IH]; intros [j c l]; cbn.
  - by rewrite Nat.add_0_r, app_nil_r.
  - rewrite IH. cbn. rewrite <- app_assoc. cbn.
    replace (S (c + length xs)) with (c + S (length xs)) by lia. done.
Qed.

Lemma mapA_writable {X} (xs : list X) s :
  mapA (λ _, newRemoteWritableStream) xs s
  = (mkState (jobID s) (streams s + length xs)
       (log s ++ (NewRemoteWritableStream <$> seq (streams s) (length xs))),
     Fulfilled (seq (streams s) (length xs))).
Proof.
  revert s. induction xs as [|x xs IH]; intros [j c l]; cbn.
  - by rewrite Nat.add_0_r, app_nil_r.
  - rewrite IH. cbn. rewrite <- app_assoc. cbn.
    replace (S (c + length xs)) with (c + S (length xs)) by lia. done.
Qed.

Lemma ids_from_S j n : ids_from j (S n) = j :: ids_from (j + 1) n.
Proof.
  unfold ids_from. cbn. rewrite N.add_0_r. f_equal.
  rewrite <- fmap_S_seq, <- list_fmap_compose. apply list_fmap_ext.
  intros i x _. cbn. lia.
Qed.



Lemma collect_encrypt_valid files fs ids sizes s :
  Forall (λ file, truthy (PenumbraFile.size file) = true) files →
  foldA collect_encrypt files (fs, ids, sizes) s
  = (mkState (jobID s + N.of_nat (length files)) (streams s)
       (log s ++ (JobIDpp <$> ids_from (jobID s) (length files))),
     Fulfilled
       (fs ++ zip_with (λ n file, PenumbraFile.with_id (Some n) file)
                (ids_from (jobID s) (length files)) files,
        ids ++ ids_from (jobID s) (length files),
        sizes ++ sizes_of files)).
Proof.
  intros H. revert fs ids sizes s.
  induction H as [|file files Hf _ IH]; intros fs ids sizes [j c l].
  - cbn. by rewrite N.add_0_r, !app_nil_r.
  - cbn [length]. rewrite ids_from_S.
    cbn [foldA]. unfold bind at 1. unfold collect_encrypt at 1.
    cbn -[ids_from]. rewrite Hf. cbn -[ids_from]. rewrite IH. cbn -[ids_from].
    rewrite <- !app_assoc. cbn -[ids_from].
    by replace (j + N.of_nat (S (length files)))%N
      with (j + 1 + N.of_nat (length files))%N by lia.
Qed.

Lemma pipe_all_log ws files s :
  pipe_all ws files s
  = (mkState (jobID s) (streams s)
       (log s ++ zip_with (λ w file,
                             PipeTo (pipe_source (PenumbraFile.stream file)) w)
                   ws files),
     Fulfilled tt).
Proof.
  unfold pipe_all. revert files s.
  induction ws as [|w ws IH]; intros [|file files] [j c l]; cbn;
    rewrite ?app_nil_r; try done.
  rewrite IH. cbn. by rewrite <- app_assoc.
Qed.

Lemma ids_from_length j n : length (ids_from j n) = n.
Proof. unfold ids_from. by rewrite length_fmap, length_seq. Qed.

Lemma ids_from_lookup j n i :
  i < n → ids_from j n !! i = Some (j + N.of_nat i)%N.
Proof.
  intros Hi. unfold ids_from. by rewrite list_lookup_fmap, lookup_seq_lt.
Qed.

Lemma readables_of_valid j c files :
  Forall (λ file, truthy (PenumbraFile.size file) = true) files →
  readables_of (seq c (length files))
    (zip_with (λ n file, PenumbraFile.with_id (Some n) file)
       (ids_from j (length files)) files)
    (sizes_of files) (ids_from j (length files))
  = imap (handle_of j c) files.
Proof.
  intros Hv. unfold readables_of. apply list_eq. intros i.
  rewrite !list_lookup_imap.
  destruct (files !! i) as [file|] eqn:Hi; cbn.
  - pose proof (lookup_lt_Some _ _ _ Hi) as Hlt.
    rewrite lookup_zip_with, lookup_seq_lt by done. cbn.
    rewrite lookup_zip_with, ids_from_lookup by done. cbn. rewrite Hi. cbn.
    unfold sizes_of. rewrite list_lookup_fmap, Hi. cbn.
    pose proof (proj1 (Forall_lookup _ _) Hv i file Hi) as Hs.
    unfold handle_of. destruct file as [? ? [sz|] ? ? ? ? ? ? ? ?]; done.
  - rewrite lookup_zip_with.
    destruct (seq c (length files) !! i); cbn; [|done].
    rewrite lookup_zip_with, Hi.
    by destruct (ids_from j (length files) !! i).
Qed.

Lemma valid_file_parts w files :
  Forall (valid_file w) files →
  existsb (λ file, instanceof_ArrayBuffer (PenumbraFile.stream file)) files
  = false ∧
  Forall (λ file, truthy (PenumbraFile.size file) = true) files.
Proof.
  induction 1 as [|file files (Hb & Hs & _) _ [IH1 IH2]]; [done|].
  cbn. rewrite Hb, IH1. split; [done|]. by constructor.
Qed.

Lemma zip_with_length_same {X Y Z} (f : X → Y → Z) xs ys :
  length xs = length ys → length (zip_with f xs ys) = length ys.
Proof. intros E. rewrite length_zip_with. lia. Qed.

Lemma pipes_with_id ws ids files :
  length ids = length files →
  zip_with (λ w file, PipeTo (pipe_source (PenumbraFile.stream file)) w) ws
    (zip_with (λ n file, PenumbraFile.with_id (Some n) file) ids files)
  = zip_with (λ w file, PipeTo (pipe_source (PenumbraFile.stream file)) w)
      ws files.
Proof.
  revert ids files. induction ws as [|w ws IH]; intros [|n ids] [|file files];
    cbn; try done.
  intros [= E]. by rewrite IH.
Qed.

Lemma length_eqb_0 {X} (xs : list X) : xs ≠ [] → (length xs =? 0) = false.
Proof. by destruct xs. Qed.

(** X2: on the streaming path a job of [encryptJob] for N ≥ 1 live
    streams of known size draws the identifiers [jobID], ..., [jobID + N -
    1] before anything else and, three turns after the call, has created N
    remote readable and N remote writable streams, has sent the worker one
    call with the identifiers, the sizes and the two lists of ports in file
    order, and has piped the i-th input into the i-th writable stream; the
    i-th result is the i-th file with its identifier and with the i-th
    readable stream as its stream. *)
Theorem encryptJob_streaming options files s :
  files ≠ [] → Forall (valid_file true) files →
  let n := length files in
  let ids := ids_from (jobID s) n in
  let readables := seq (streams s) n in
  let writables := seq (streams s + n) n in
  alone 3 (encryptJob true options files) s
  = (mkState (jobID s + N.of_nat n) (streams s + n + n)
       (log s ++ (JobIDpp <$> ids) ++ [GetWorker] ++
        (NewRemoteReadableStream <$> readables) ++
        (NewRemoteWritableStream <$> writables) ++
        [NewChannel;
         ThreadEncrypt options ids (sizes_of files) writables readables] ++
        zip_with (λ w file, PipeTo (pipe_source (PenumbraFile.stream file)) w)
          writables files),
     Fulfilled (imap (handle_of (jobID s) (streams s)) files)).
Proof.
  intros Hne Hv n ids readables writables.
  destruct (valid_file_parts _ _ Hv) as [Hb Hs].
  unfold alone, encryptJob.
  rewrite (length_eqb_0 _ Hne), Hb. unfold bind at 1.
  rewrite collect_encrypt_valid by done.
  cbn -[mapA seq ids_from sizes_of pipe_all readables_of].
  set (files' := zip_with _ (ids_from _ _) files).
  assert (length files' = length files) as El.
  { apply zip_with_length_same. by rewrite ids_from_length. }
  rewrite mapA_readable. cbn -[mapA seq ids_from sizes_of pipe_all readables_of].
  rewrite mapA_writable. cbn -[mapA seq ids_from sizes_of pipe_all readables_of].
  rewrite pipe_all_log. cbn -[mapA seq ids_from sizes_of pipe_all readables_of].
  rewrite El. subst files'. rewrite readables_of_valid by done.
  rewrite pipes_with_id by by rewrite ids_from_length.
  by rewrite <- !app_assoc.
Qed.
Lemma encryptJob_streaming_witness :
  alone 3
    (encryptJob true None
       [sample_file 0 (Some 1024%N); sample_file 1 (Some 2048%N)]) initial
  = (mkState 2 4
       [JobIDpp 0; JobIDpp 1; GetWorker;
        NewRemoteReadableStream 0; NewRemoteReadableStream 1;
        NewRemoteWritableStream 2; NewRemoteWritableStream 3;
        NewChannel;
        ThreadEncrypt None [0%N; 1%N] [1024%N; 2048%N] [2; 3] [0; 1];
        PipeTo (ReadableStream 0) 2; PipeTo (ReadableStream 1) 3],
     Fulfilled
       [PenumbraFile.with_id (Some 0%N)
          (PenumbraFile.with_stream (readable 0) (sample_file 0 (Some 1024%N)));
        PenumbraFile.with_id (Some 1%N)
          (PenumbraFile.with_stream (readable 1)
             (sample_file 1 (Some 2048%N)))]).
Proof.
  apply (encryptJob_streaming None
           [sample_file 0 (Some 1024%N); sample_file 1 (Some 2048%N)] initial).
  - discriminate.
  - repeat constructor; done.
Defined.


Lemma ids_kept_length j files : length (ids_kept j files) = length files.
Proof.
  revert j. induction files as [|file files IH]; intros j; cbn; [done|].
  destruct (truthy _); cbn; by rewrite IH.
Qed.

Lemma collect_decrypt_valid files fs ids sizes s :
  Forall (λ file, truthy (PenumbraFile.size file) = true) files →
  foldA collect_decrypt files (fs, ids, sizes) s
  = (mkState (jobID s + N.of_nat (length (without_id files))) (streams s)
       (log s ++ (JobIDpp <$> ids_from (jobID s) (length (without_id files)))),
     Fulfilled
       (fs ++ zip_with (λ n file, PenumbraFile.with_id (Some n) file)
                (ids_kept (jobID s) files) files,
        ids ++ ids_kept (jobID s) files,
        sizes ++ sizes_of files)).
Proof.
  intros H. revert fs ids sizes s.
  induction H as [|file files Hf _ IH]; intros fs ids sizes [j c l].
  - cbn. by rewrite N.add_0_r, !app_nil_r.
  - unfold without_id. rewrite filter_cons. fold (without_id files).
    cbn [foldA ids_kept]. unfold bind at 1. unfold collect_decrypt at 1.
    unfold id_or_next.
    destruct (truthy (PenumbraFile.id file)) eqn:Hi.
    + rewrite decide_False by done.
      cbn -[ids_from]. rewrite Hf. cbn -[ids_from]. rewrite IH.
      cbn -[ids_from]. by rewrite <- !app_assoc.
    + rewrite decide_True by done. cbn [length]. rewrite ids_from_S.
      cbn -[ids_from]. rewrite Hf. cbn -[ids_from]. rewrite IH.
      cbn -[ids_from]. rewrite <- !app_assoc. cbn -[ids_from].
      by replace (j + N.of_nat (S (length (without_id files))))%N
        with (j + 1 + N.of_nat (length (without_id files)))%N by lia.
Qed.

Lemma readables_of_kept c ids files :
  length ids = length files →
  Forall (λ file, truthy (PenumbraFile.size file) = true) files →
  readables_of (seq c (length files))
    (zip_with (λ n file, PenumbraFile.with_id (Some n) file) ids files)
    (sizes_of files) ids
  = imap (λ i '(n, file),
            PenumbraFile.with_id (Some n)
              (PenumbraFile.with_stream (readable (c + i)) file))
      (zip ids files).
Proof.
  intros El Hv. unfold readables_of. apply list_eq. intros i.
  rewrite !list_lookup_imap.
  destruct (files !! i) as [file|] eqn:Hi; cbn.
  - pose proof (lookup_lt_Some _ _ _ Hi) as Hlt.
    destruct (lookup_lt_is_Some_2 ids i) as [n Hn]; [lia|].
    rewrite !lookup_zip_with, lookup_seq_lt by done. cbn.
    rewrite Hn, Hi. cbn.
    unfold sizes_of. rewrite list_lookup_fmap, Hi. cbn.
    pose proof (proj1 (Forall_lookup _ _) Hv i file Hi) as Hs.
    destruct file as [? ? [sz|] ? ? ? ? ? ? ? ?]; done.
  - rewrite !lookup_zip_with, Hi.
    destruct (seq c (length files) !! i); cbn;
      rewrite ?lookup_zip_with, ?Hi; by destruct (ids !! i).
Qed.

(** X3: on the streaming path a job of [decryptJob] for N ≥ 1 files of
    known size creates its 2N remote streams first and then goes through
    the files: a file with a truthy id keeps it, every other file draws the
    next identifier.  Three turns after the call the worker has received
    one call with the identifiers, sizes and ports in file order, the i-th
    input is piped into the i-th writable stream, and the i-th result is
    the i-th file with its identifier and the i-th readable stream. *)
Theorem decryptJob_streaming decryptFile options files s :
  files ≠ [] →
  Forall (λ file, truthy (PenumbraFile.size file) = true) files →
  let n := length files in
  let fresh := ids_from (jobID s) (length (without_id files)) in
  let ids := ids_kept (jobID s) files in
  let readables := seq (streams s) n in
  let writables := seq (streams s + n) n in
  alone 3 (decryptJob true decryptFile options files) s
  = (mkState (jobID s + N.of_nat (length (without_id files)))
       (streams s + n + n)
       (log s ++ [GetWorker] ++
        (NewRemoteReadableStream <$> readables) ++
        (NewRemoteWritableStream <$> writables) ++
        (JobIDpp <$> fresh) ++
        [NewChannel;
         ThreadDecrypt options ids (sizes_of files) writables readables] ++
        zip_with (λ w file, PipeTo (pipe_source (PenumbraFile.stream file)) w)
          writables files),
     Fulfilled
       (imap (λ i '(n, file),
                PenumbraFile.with_id (Some n)
                  (PenumbraFile.with_stream (readable (streams s + i)) file))
          (zip ids files))).
Proof.
  intros Hne Hs n fresh ids readables writables.
  unfold alone, decryptJob.
  rewrite (length_eqb_0 _ Hne).
  cbn -[mapA seq ids_from sizes_of pipe_all readables_of foldA].
  rewrite mapA_readable.
  cbn -[mapA seq ids_from sizes_of pipe_all readables_of foldA].
  rewrite mapA_writable.
  cbn -[mapA seq ids_from sizes_of pipe_all readables_of foldA].
  rewrite collect_decrypt_valid by done.
  cbn -[mapA seq ids_from sizes_of pipe_all readables_of foldA].
  rewrite pipe_all_log.
  cbn -[mapA seq ids_from sizes_of pipe_all readables_of foldA].
  rewrite readables_of_kept by (by rewrite ?ids_kept_length).
  rewrite pipes_with_id by by rewrite ids_kept_length.
  by rewrite <- !app_assoc.
Qed.
Lemma decryptJob_streaming_witness :
  alone 3
    (decryptJob true sample_decryptFile sample_info
       [PenumbraFile.with_id (Some 7%N) (sample_file 0 (Some 1024%N));
        sample_file 1 (Some 2048%N)]) initial
  = (mkState 1 4
       [GetWorker;
        NewRemoteReadableStream 0; NewRemoteReadableStream 1;
        NewRemoteWritableStream 2; NewRemoteWritableStream 3;
        JobIDpp 0; NewChannel;
        ThreadDecrypt sample_info [7%N; 0%N] [1024%N; 2048%N] [2; 3] [0; 1];
        PipeTo (ReadableStream 0) 2; PipeTo (ReadableStream 1) 3],
     Fulfilled
       [PenumbraFile.with_id (Some 7%N)
          (PenumbraFile.with_stream (readable 0) (sample_file 0 (Some 1024%N)));
        PenumbraFile.with_id (Some 0%N)
          (PenumbraFile.with_stream (readable 1)
             (sample_file 1 (Some 2048%N)))]).
Proof.
  apply (decryptJob_streaming sample_decryptFile sample_info
           [PenumbraFile.with_id (Some 7%N) (sample_file 0 (Some 1024%N));
            sample_file 1 (Some 2048%N)] initial).
  - discriminate.
  - repeat constructor.
Defined.


Lemma numbered_zip j files :
  zip_with (λ n file, PenumbraFile.with_id (Some n) file)
    (ids_from j (length files)) files
  = numbered j files.
Proof.
  unfold numbered. apply list_eq. intros i.
  rewrite lookup_zip_with, list_lookup_imap.
  destruct (files !! i) as [file|] eqn:Hi; cbn.
  - rewrite ids_from_lookup by by eapply lookup_lt_Some. done.
  - by destruct (ids_from j (length files) !! i).
Qed.

Lemma total_size_numbered j files :
  total_size (numbered j files) = total_size files.
Proof.
  unfold total_size, sizes_of, numbered. f_equal.
  apply list_eq. intros i.
  rewrite !list_lookup_fmap, list_lookup_imap.
  by destruct (files !! i).
Qed.

Lemma sum_encrypt_fold files acc s :
  (acc ≤ MAX_ALLOWED_SIZE_MAIN_THREAD)%N →
  foldA sum_encrypt files acc s
  = if (MAX_ALLOWED_SIZE_MAIN_THREAD <? acc + total_size files)%N
    then (mkState (jobID s) (streams s)
            (log s ++ [ConsoleError
                         "Your browser doesn't support streaming encryption."]),
          Rejected too_large_to_encrypt)
    else (s, Fulfilled (acc + total_size files)%N).
Proof.
  revert acc. induction files as [|file files IH]; intros acc Hacc.
  - cbn. rewrite N.add_0_r.
    by replace (_ <? _)%N with false by (symmetry; by apply N.ltb_ge).
  - cbn [foldA]. unfold bind, sum_encrypt at 1.
    change (total_size (file :: files))
      with (default 0 (PenumbraFile.size file) + total_size files)%N.
    rewrite N.add_assoc.
    destruct (N.ltb_spec MAX_ALLOWED_SIZE_MAIN_THREAD
                (acc + default 0 (PenumbraFile.size file))%N) as [Hlt|Hle].
    + cbn. by replace (_ <? _)%N with true by (symmetry; apply N.ltb_lt; lia).
    + cbn. by rewrite IH.
Qed.

Lemma mapA_encrypt_buffer options files s :
  mapA (encrypt_buffer options) files s
  = (mkState (jobID s) (streams s)
       (log s ++ ((λ file, EncryptFile options file (PenumbraFile.size file))
                    <$> files)),
     Fulfilled (PenumbraFile.with_options options <$> files)).
Proof.
  revert s. induction files as [|file files IH]; intros [j c l]; cbn.
  - by rewrite app_nil_r.
  - rewrite IH. cbn. by rewrite <- app_assoc.
Qed.

(** X4: on the buffered path a job of [encryptJob] for N ≥ 1 live streams
    of known size draws N identifiers and then adds up the declared sizes.
    When the total is within 16 MiB, [encryptFile] is called once for every
    file in order, and the i-th result is the i-th file with its
    identifier and the properties of the options: its stream is the stream
    of the input.  When the total exceeds 16 MiB the job is rejected at
    once with the too-large error after one [console.error]: nothing is
    imported and no file is handed to [encryptFile]. *)
Theorem encryptJob_buffered options files s :
  files ≠ [] → Forall (valid_file true) files →
  let n := length files in
  let ids := ids_from (jobID s) n in
  ((total_size files ≤ MAX_ALLOWED_SIZE_MAIN_THREAD)%N →
   alone 2 (encryptJob false options files) s
   = (mkState (jobID s + N.of_nat n) (streams s)
        (log s ++ (JobIDpp <$> ids) ++ [Import "./encrypt"] ++
         ((λ file, EncryptFile options file (PenumbraFile.size file))
            <$> numbered (jobID s) files)),
      Fulfilled (PenumbraFile.with_options options
                   <$> numbered (jobID s) files))) ∧
  ((MAX_ALLOWED_SIZE_MAIN_THREAD < total_size files)%N →
   encryptJob false options files s
   = (mkState (jobID s + N.of_nat n) (streams s)
        (log s ++ (JobIDpp <$> ids) ++
         [ConsoleError "Your browser doesn't support streaming encryption."]),
      Rejected too_large_to_encrypt)).
Proof.
  intros Hne Hv n ids.
  destruct (valid_file_parts _ _ Hv) as [Hb Hs].
  unfold alone, encryptJob. rewrite (length_eqb_0 _ Hne), Hb. split.
  - intros Hle. unfold bind at 1. rewrite collect_encrypt_valid by done.
    cbn -[mapA ids_from foldA]. rewrite numbered_zip.
    unfold bind at 1. rewrite sum_encrypt_fold by done.
    rewrite N.add_0_l, total_size_numbered.
    replace (_ <? _)%N with false by (symmetry; by apply N.ltb_ge).
    cbn -[mapA ids_from]. rewrite mapA_encrypt_buffer. cbn -[ids_from].
    by rewrite <- !app_assoc.
  - intros Hlt. unfold bind at 1. rewrite collect_encrypt_valid by done.
    cbn -[mapA ids_from foldA]. rewrite numbered_zip.
    unfold bind at 1. rewrite sum_encrypt_fold by done.
    rewrite N.add_0_l, total_size_numbered.
    replace (_ <? _)%N with true by (symmetry; by apply N.ltb_lt).
    cbn -[ids_from]. by rewrite <- !app_assoc.
Qed.
Lemma encryptJob_buffered_witness :
  alone 2
    (encryptJob false None
       [sample_file 0 (Some (10 * MiB)%N); sample_file 1 (Some (6 * MiB)%N)])
    initial
  = (mkState 2 0
       [JobIDpp 0; JobIDpp 1; Import "./encrypt";
        EncryptFile None
          (PenumbraFile.with_id (Some 0%N) (sample_file 0 (Some (10 * MiB)%N)))
          (Some (10 * MiB)%N);
        EncryptFile None
          (PenumbraFile.with_id (Some 1%N) (sample_file 1 (Some (6 * MiB)%N)))
          (Some (6 * MiB)%N)],
     Fulfilled
       [PenumbraFile.with_id (Some 0%N) (sample_file 0 (Some (10 * MiB)%N));
        PenumbraFile.with_id (Some 1%N) (sample_file 1 (Some (6 * MiB)%N))]) ∧
  encryptJob false None
    [sample_file 0 (Some (10 * MiB)%N); sample_file 1 (Some (10 * MiB)%N)]
    initial
  = (mkState 2 0
       [JobIDpp 0; JobIDpp 1;
        ConsoleError "Your browser doesn't support streaming encryption."],
     Rejected too_large_to_encrypt).
Proof.
  split.
  - apply (encryptJob_buffered None
             [sample_file 0 (Some (10 * MiB)%N);
              sample_file 1 (Some (6 * MiB)%N)] initial).
    + discriminate.
    + repeat constructor; done.
    + vm_compute. discriminate.
  - apply (encryptJob_buffered None
             [sample_file 0 (Some (10 * MiB)%N);
              sample_file 1 (Some (10 * MiB)%N)] initial).
    + discriminate.
    + repeat constructor; done.
    + vm_compute. reflexivity.
Defined.


Lemma check_decrypt_fold files s :
  foldA check_decrypt files tt s
  = if existsb (λ file, (MAX_ALLOWED_SIZE_MAIN_THREAD
                         <? default 0 (PenumbraFile.size file))%N) files
    then (mkState (jobID s) (streams s)
            (log s ++ [ConsoleError
                         "Your browser doesn't support streaming decryption."]),
          Rejected too_large_to_decrypt)
    else (s, Fulfilled tt).
Proof.
  induction files as [|file files IH]; [done|].
  cbn [foldA existsb]. unfold bind, check_decrypt at 1.
  destruct (_ <? _)%N; cbn; [done|]. by rewrite IH.
Qed.

Lemma spawn_decrypt_buffer decryptFile options files s :
  spawn_all (decrypt_buffer decryptFile options) files s
  = (mkState (jobID s) (streams s)
       (log s ++ ((λ file, DecryptFile options file (PenumbraFile.size file))
                    <$> files)),
     Fulfilled
       <$> ((λ file, decryptFile options file (PenumbraFile.size file))
              <$> files)).
Proof.
  revert s. induction files as [|file files IH]; intros [j c l]; cbn.
  - by rewrite app_nil_r.
  - rewrite IH. cbn. by rewrite <- app_assoc.
Qed.

Lemma first_rejected_fulfilled {St A} (vs : list A) :
  first_rejected (St:=St) (Fulfilled <$> vs) = None.
Proof. by induction vs. Qed.

Lemma join_fulfilled {St A} (vs : list A) (s : St) :
  join (Fulfilled <$> vs) s = (s, Fulfilled vs).
Proof. induction vs as [|v vs IH]; cbn; [done|]. by rewrite IH. Qed.

(** X5: on the buffered path a job of [decryptJob] for N ≥ 1 files looks
    at each declared size by itself, an absent size counting as 0.  When
    every size is within 16 MiB, [decryptFile] is called once for every
    file in order and its results are returned in that order; when some
    size exceeds 16 MiB the job is rejected at once with the too-large
    error after one [console.error], and no file is decrypted.  No job
    identifier is drawn either way. *)
Theorem decryptJob_buffered decryptFile options files s :
  files ≠ [] →
  (Forall (λ file, (default 0 (PenumbraFile.size file)
                    ≤ MAX_ALLOWED_SIZE_MAIN_THREAD)%N) files →
   alone 2 (decryptJob false decryptFile options files) s
   = (mkState (jobID s) (streams s)
        (log s ++ [Import "./decrypt"] ++
         ((λ file, DecryptFile options file (PenumbraFile.size file))
            <$> files)),
      Fulfilled ((λ file, decryptFile options file (PenumbraFile.size file))
                   <$> files))) ∧
  (Exists (λ file, (MAX_ALLOWED_SIZE_MAIN_THREAD
                    < default 0 (PenumbraFile.size file))%N) files →
   decryptJob false decryptFile options files s
   = (mkState (jobID s) (streams s)
        (log s ++
         [ConsoleError "Your browser doesn't support streaming decryption."]),
      Rejected too_large_to_decrypt)).
Proof.
  intros Hne. unfold alone, decryptJob. rewrite (length_eqb_0 _ Hne). split.
  - intros Hle. unfold bind at 1. rewrite check_decrypt_fold.
    replace (existsb _ files) with false.
    2:{ symmetry. apply not_true_is_false. intros (f & Hf & Hlt)%existsb_exists.
        apply list_elem_of_In in Hf. apply N.ltb_lt in Hlt.
        pose proof (proj1 (Forall_forall _ _) Hle f Hf). simpl in *. lia. }
    cbn -[spawn_all]. rewrite spawn_decrypt_buffer, first_rejected_fulfilled.
    rewrite join_fulfilled. cbn. by rewrite <- !app_assoc.
  - intros Hex. unfold bind at 1. rewrite check_decrypt_fold.
    replace (existsb _ files) with true; [done|].
    symmetry. apply existsb_exists. apply Exists_exists in Hex as (f & Hf & Hlt).
    exists f. split; [by apply list_elem_of_In|by apply N.ltb_lt].
Qed.
Lemma decryptJob_buffered_witness :
  alone 2
    (decryptJob false sample_decryptFile sample_info
       [sample_file 0 (Some (10 * MiB)%N); sample_file 1 (Some (10 * MiB)%N)])
    initial
  = (mkState 0 0
       [Import "./decrypt";
        DecryptFile sample_info (sample_file 0 (Some (10 * MiB)%N))
          (Some (10 * MiB)%N);
        DecryptFile sample_info (sample_file 1 (Some (10 * MiB)%N))
          (Some (10 * MiB)%N)],
     Fulfilled
       [sample_file 0 (Some (10 * MiB)%N); sample_file 1 (Some (10 * MiB)%N)]) ∧
  decryptJob false sample_decryptFile sample_info
    [sample_file 0 (Some 1024%N); sample_file 1 (Some (17 * MiB)%N)] initial
  = (mkState 0 0
       [ConsoleError "Your browser doesn't support streaming decryption."],
     Rejected too_large_to_decrypt).
Proof.
  split.
  - apply (decryptJob_buffered sample_decryptFile sample_info
             [sample_file 0 (Some (10 * MiB)%N);
              sample_file 1 (Some (10 * MiB)%N)] initial).
    + discriminate.
    + repeat constructor; vm_compute; discriminate.
  - apply (decryptJob_buffered sample_decryptFile sample_info
             [sample_file 0 (Some 1024%N); sample_file 1 (Some (17 * MiB)%N)]
             initial).
    + discriminate.
    + apply Exists_cons_tl, Exists_cons_hd. vm_compute. reflexivity.
Defined.


Lemma collect_encrypt_stops pre file post fs ids sizes s :
  Forall (λ file, truthy (PenumbraFile.size file) = true) pre →
  truthy (PenumbraFile.size file) = false →
  foldA collect_encrypt (pre ++ file :: post) (fs, ids, sizes) s
  = (mkState (jobID s + N.of_nat (S (length pre))) (streams s)
       (log s ++ (JobIDpp <$> ids_from (jobID s) (S (length pre)))),
     Rejected "penumbra.encrypt(): Unable to determine file size").
Proof.
  intros Hv Hf. revert fs ids sizes s.
  induction Hv as [|f pre Hs _ IH]; intros fs ids sizes [j c l].
  - cbn. rewrite Hf. cbn. by rewrite N.add_0_r.
  - cbn [app length]. rewrite (ids_from_S _ (S (length pre))).
    cbn [foldA]. unfold bind at 1. unfold collect_encrypt at 1.
    cbn -[ids_from]. rewrite Hs. cbn -[ids_from]. rewrite IH.
    cbn -[ids_from]. rewrite <- !app_assoc. cbn -[ids_from].
    by replace (j + N.of_nat (S (S (length pre))))%N
      with (j + 1 + N.of_nat (S (length pre)))%N by lia.
Qed.

Lemma collect_decrypt_stops pre file post fs ids sizes s :
  Forall (λ file, truthy (PenumbraFile.size file) = true) pre →
  truthy (PenumbraFile.size file) = false →
  foldA collect_decrypt (pre ++ file :: post) (fs, ids, sizes) s
  = (mkState (jobID s + N.of_nat (length (without_id (pre ++ [file]))))
       (streams s)
       (log s ++ (JobIDpp <$> ids_from (jobID s)
                                (length (without_id (pre ++ [file]))))),
     Rejected "penumbra.decrypt(): Unable to determine file size").
Proof.
  intros Hv Hf. revert fs ids sizes s.
  induction Hv as [|f pre Hs _ IH]; intros fs ids sizes [j c l].
  - cbn [app foldA]. unfold bind, collect_decrypt, id_or_next, without_id.
    rewrite filter_cons, filter_nil.
    destruct (truthy (PenumbraFile.id file)) eqn:Hi.
    + rewrite decide_False by done. cbn. rewrite Hf. cbn.
      by rewrite N.add_0_r, app_nil_r.
    + rewrite decide_True by done. cbn. rewrite Hf. cbn.
      by rewrite N.add_0_r.
  - cbn [app foldA]. unfold without_id. rewrite filter_cons.
    fold (without_id (pre ++ [file])).
    unfold bind at 1. unfold collect_decrypt at 1. unfold id_or_next.
    destruct (truthy (PenumbraFile.id f)) eqn:Hi.
    + rewrite decide_False by done.
      cbn -[ids_from]. rewrite Hs. cbn -[ids_from]. by rewrite IH.
    + rewrite decide_True by done. cbn [length]. rewrite ids_from_S.
      cbn -[ids_from]. rewrite Hs. cbn -[ids_from]. rewrite IH.
      cbn -[ids_from]. rewrite <- !app_assoc. cbn -[ids_from].
      by replace (j + N.of_nat (S (length (without_id (pre ++ [file])))))%N
        with (j + 1 + N.of_nat (length (without_id (pre ++ [file]))))%N
        by lia.
Qed.

(** X21: a job checks the sizes file by file, after it has begun to
    allocate.  When the first file without a usable size comes after k
    files that have one, [encryptJob] is rejected at once with the
    size-undetermined error after having drawn k + 1 identifiers, on
    either path; the streaming [decryptJob] is rejected in its first turn,
    after it has created the remote streams of all its files, two for each,
    and has drawn an identifier for each file without truthy id up to and
    including the offending one. *)
Theorem jobs_validate_late pre file post s :
  Forall (λ file, truthy (PenumbraFile.size file) = true) pre →
  truthy (PenumbraFile.size file) = false →
  let files := pre ++ file :: post in
  (∀ w options,
     existsb (λ file, instanceof_ArrayBuffer (PenumbraFile.stream file)) files
     = false →
     encryptJob w options files s
     = (mkState (jobID s + N.of_nat (S (length pre))) (streams s)
          (log s ++ (JobIDpp <$> ids_from (jobID s) (S (length pre)))),
        Rejected "penumbra.encrypt(): Unable to determine file size")) ∧
  (∀ decryptFile options,
     let n := length files in
     let drawn := length (without_id (pre ++ [file])) in
     alone 1 (decryptJob true decryptFile options files) s
     = (mkState (jobID s + N.of_nat drawn) (streams s + n + n)
          (log s ++ [GetWorker] ++
           (NewRemoteReadableStream <$> seq (streams s) n) ++
           (NewRemoteWritableStream <$> seq (streams s + n) n) ++
           (JobIDpp <$> ids_from (jobID s) drawn)),
        Rejected "penumbra.decrypt(): Unable to determine file size")).
Proof.
  intros Hv Hf files. subst files. split.
  - intros w options Hb. unfold encryptJob.
    rewrite length_eqb_0 by by destruct pre. rewrite Hb. unfold bind at 1.
    by rewrite collect_encrypt_stops.
  - intros decryptFile options n drawn. unfold alone, decryptJob.
    rewrite length_eqb_0 by by destruct pre.
    cbn -[mapA seq ids_from foldA].
    rewrite mapA_readable. cbn -[mapA seq ids_from foldA].
    rewrite mapA_writable. cbn -[mapA seq ids_from foldA].
    rewrite collect_decrypt_stops by done. cbn -[seq ids_from].
    by rewrite <- !app_assoc.
Qed.

Lemma jobs_validate_late_witness :
  encryptJob true None
    [sample_file 0 (Some 1024%N); sample_file 1 None; sample_file 2 (Some 1%N)]
    initial
  = (mkState 2 0 [JobIDpp 0; JobIDpp 1],
     Rejected "penumbra.encrypt(): Unable to determine file size") ∧
  alone 1
    (decryptJob true sample_decryptFile sample_info
       [sample_file 0 (Some 1024%N); sample_file 1 None]) initial
  = (mkState 2 4
       [GetWorker; NewRemoteReadableStream 0; NewRemoteReadableStream 1;
        NewRemoteWritableStream 2; NewRemoteWritableStream 3;
        JobIDpp 0; JobIDpp 1],
     Rejected "penumbra.decrypt(): Unable to determine file size").
Proof.
  split.
  - apply (jobs_validate_late [sample_file 0 (Some 1024%N)] (sample_file 1 None)
             [sample_file 2 (Some 1%N)] initial); [|reflexivity..].
    repeat constructor.
  - apply (jobs_validate_late [sample_file 0 (Some 1024%N)] (sample_file 1 None)
             [] initial); [|reflexivity].
    repeat constructor.
Defined.

(** ** The counter after a call *)

#[global] Instance same_counter_preorder : PreOrder same_counter.
Proof. split; [done|]. intros s1 s2 s3. unfold same_counter. congruence. Qed.

Local Ltac counter_goal :=
  repeat first [ progress cbn | intros ?s | split ]; try done.

Lemma get_one_counter w pathname resource :
  Runs same_counter (λ _, same_counter) (get_one w pathname resource).
Proof.
  intros s. unfold get_one, getJob, getJob_buffer, same_counter.
  destruct w; cbn.
  - counter_goal.
  - destruct (RemoteResource.url resource); counter_goal.
Qed.

Lemma decrypt_one_buffered_counter decryptFile options file :
  Runs same_counter (λ _, same_counter)
    (decrypt_one false decryptFile options file).
Proof.
  intros s. unfold decrypt_one, decryptJob, check_decrypt, same_counter. cbn.
  destruct (_ <? _)%N; counter_goal.
Qed.

Lemma encrypt_one_counter w options file s :
  jobID (encrypt_one w options file s).1
  = (if instanceof_ArrayBuffer (PenumbraFile.stream file)
     then jobID s else jobID s + 1)%N ∧
  runs same_counter (λ _, same_counter) (encrypt_one w options file s).2.
Proof.
  unfold encrypt_one, encryptJob, collect_encrypt, sum_encrypt, same_counter.
  destruct w; cbn;
    (destruct (instanceof_ArrayBuffer _); cbn; [counter_goal|]);
    (destruct (truthy _); cbn; [|counter_goal]).
  - counter_goal.
  - destruct (_ <? _)%N; counter_goal.
Qed.

Lemma decrypt_one_streaming_counter decryptFile options file s :
  jobID (decrypt_one true decryptFile options file s).1 = jobID s ∧
  ∀ s1,
    jobID (resume (decrypt_one true decryptFile options file s).2 s1).1
    = (if truthy (PenumbraFile.id file) then jobID s1 else jobID s1 + 1)%N ∧
    runs same_counter (λ _, same_counter)
      (resume (decrypt_one true decryptFile options file s).2 s1).2.
Proof.
  unfold decrypt_one, decryptJob, collect_decrypt, id_or_next, same_counter.
  cbn. split; [done|]. intros s1. cbn.
  destruct (truthy (PenumbraFile.id file)); cbn;
    destruct (truthy (PenumbraFile.size file)); counter_goal.
Qed.

Lemma Forall2_Forall_r {X Y} (P : X → Y → Prop) (Q : Y → Prop) xs ys :
  Forall2 P xs ys → (∀ x y, P x y → Q y) → Forall Q ys.
Proof. induction 1; intros HPQ; constructor; eauto. Qed.

Lemma foldl_live (files : list PenumbraFile.t) j :
  foldl (λ c file, if instanceof_ArrayBuffer (PenumbraFile.stream file)
                   then c else (c + 1)%N) j files
  = (j + N.of_nat (length (live files)))%N.
Proof.
  unfold live. revert j. induction files as [|file files IH]; intros j; simpl.
  - lia.
  - rewrite IH, filter_cons.
    destruct (decide _) as [E|E];
      [rewrite E|apply not_false_is_true in E; rewrite E]; simpl; lia.
Qed.

Lemma foldl_without_id (files : list PenumbraFile.t) j :
  foldl (λ c file, if truthy (PenumbraFile.id file) then c else (c + 1)%N)
    j files
  = (j + N.of_nat (length (without_id files)))%N.
Proof.
  unfold without_id. revert j. induction files as [|file files IH]; intros j;
    simpl.
  - lia.
  - rewrite IH, filter_cons.
    destruct (decide _) as [E|E];
      [rewrite E|apply not_false_is_true in E; rewrite E]; simpl; lia.
Qed.

Lemma get_counter w pathname ticks resources s :
  jobID (get w pathname ticks resources s).1 = jobID s.
Proof.
  apply (Promise_all_runs same_counter). intros r _. apply get_one_counter.
Qed.

Lemma decrypt_buffered_counter decryptFile ticks info files s :
  jobID (decrypt false decryptFile ticks info files s).1 = jobID s.
Proof.
  apply (Promise_all_runs same_counter). intros r _.
  apply decrypt_one_buffered_counter.
Qed.

Lemma encrypt_counter w ticks options files s :
  jobID (encrypt w ticks options files s).1
  = (jobID s + N.of_nat (length (live files)))%N.
Proof.
  unfold encrypt, Promise_all.
  destruct (spawn_all_counter jobID
              (λ file c, if instanceof_ArrayBuffer (PenumbraFile.stream file)
                         then c else (c + 1)%N)
              (λ _ _ t, runs same_counter (λ _, same_counter) t)
              (encrypt_one w options) files s) as [Hc Hr].
  { intros file s1 _. apply encrypt_one_counter. }
  destruct (spawn_all _ files s) as [s1 ts]. simpl in Hc, Hr.
  pose proof (event_loop_runs same_counter ticks ts (first_rejected ts) s1)
    as He.
  destruct (event_loop _ _ _ _) as [s2 [ts' rej]]. simpl in *.
  rewrite He, Hc; [apply foldl_live|].
  eapply Forall2_Forall_r; [exact Hr|done].
Qed.

Lemma decrypt_streaming_counter decryptFile ticks info files s :
  1 ≤ ticks →
  jobID (decrypt true decryptFile ticks info files s).1
  = (jobID s + N.of_nat (length (without_id files)))%N.
Proof.
  intros Ht. unfold decrypt, Promise_all.
  set (f := decrypt_one true decryptFile info).
  destruct (spawn_all_counter jobID (λ _ c, c) (λ _ _ _, True) f files s)
    as [Hj _].
  { intros file s1 _. split; [|done]. apply decrypt_one_streaming_counter. }
  rewrite foldl_const in Hj.
  pose proof (spawn_all_Forall2
    (λ file t, ∀ s1,
       jobID (resume t s1).1
       = (if truthy (PenumbraFile.id file) then jobID s1
          else jobID s1 + 1)%N ∧
       runs same_counter (λ _, same_counter) (resume t s1).2)
    f files s) as Hs.
  destruct (spawn_all f files s) as [s1 ts]. cbn [fst snd] in Hs, Hj.
  destruct ticks as [|n]; [lia|]. cbn [event_loop].
  destruct (round_counter jobID
              (λ file c, if truthy (PenumbraFile.id file) then c
                         else (c + 1)%N)
              (λ _ _ t, runs same_counter (λ _, same_counter) t)
              files ts s1) as [Hc Hr].
  { apply Hs. intros file s2 _. apply decrypt_one_streaming_counter. }
  destruct (round ts s1) as [s2 ts2]. simpl in Hc, Hr.
  pose proof (event_loop_runs same_counter n ts2
                (match first_rejected ts with
                 | Some e => Some e
                 | None => first_rejected ts2
                 end) s2) as He.
  destruct (event_loop _ _ _ _) as [s3 [ts' rej]]. simpl in *.
  rewrite He, Hc, Hj; [apply foldl_without_id|].
  eapply Forall2_Forall_r; [exact Hr|done].
Qed.

(** X6: what a call does to the counter is fixed by its batch, whether the
    call succeeds or not.  [get], and [decrypt] on the buffered path, draw
    nothing; [encrypt] draws one identifier for every file whose stream is
    not a materialized buffer, before the call returns; [decrypt] on the
    streaming path draws, in its first turn, one identifier for every file
    that carries no truthy id. *)
Theorem counter_after_call w pathname decryptFile ticks options info
    resources files s :
  jobID (get w pathname ticks resources s).1 = jobID s ∧
  jobID (encrypt w ticks options files s).1
  = (jobID s + N.of_nat (length (live files)))%N ∧
  (1 ≤ ticks →
   jobID (decrypt true decryptFile ticks info files s).1
   = (jobID s + N.of_nat (length (without_id files)))%N) ∧
  jobID (decrypt false decryptFile ticks info files s).1 = jobID s.
Proof.
  split; [apply get_counter|]. split; [apply encrypt_counter|].
  split; [apply decrypt_streaming_counter|apply decrypt_buffered_counter].
Qed.

Lemma counter_after_call_witness :
  jobID (decrypt true sample_decryptFile 1 sample_info
           [PenumbraFile.with_id (Some 7%N) (sample_file 0 (Some 1024%N));
            sample_file 1 None; sample_file 2 (Some 2048%N)] initial).1
  = 2%N.
Proof.
  apply (counter_after_call true sample_pathname sample_decryptFile 1 None
           sample_info []
           [PenumbraFile.with_id (Some 7%N) (sample_file 0 (Some 1024%N));
            sample_file 1 None; sample_file 2 (Some 2048%N)] initial).
  lia.
Defined.

(** ** Further properties of the calls *)

Local Ltac turns_of := repeat (intros ?s; cbn).

Lemma get_one_streaming_resolves pathname resource s :
  resolves_within 2 (get_result true pathname resource)
    (get_one true pathname resource s).2.
Proof. unfold get_result, get_one, getJob. cbn. turns_of. eauto. Qed.

Lemma get_one_missing_url pathname resource s :
  RemoteResource.url resource = None →
  rejects_at 3 "penumbra.get(): RemoteResource missing URL"
    (get_one false pathname resource s).2.
Proof.
  intros Hu. unfold get_one, getJob, getJob_buffer. cbn. turns_of.
  rewrite Hu. cbn. turns_of. done.
Qed.

Lemma get_one_buffered_quiet pathname resource s :
  quiet 3 (get_one false pathname resource s).2.
Proof.
  unfold get_one, getJob, getJob_buffer. cbn. turns_of.
  destruct (RemoteResource.url resource); cbn; turns_of; done.
Qed.

(** X7: a resource without URL is noticed on the buffered path only.  On
    the streaming path [get] resolves for every batch, with one handle for
    each resource, whether or not the resource has a URL; on the buffered
    path a batch whose first resource without URL comes after valid ones
    is rejected with the missing-URL error. *)
Theorem get_missing_url pathname ticks s :
  3 ≤ ticks →
  (∀ resources,
     ∃ s' rs, get true pathname ticks resources s = (s', Resolves rs) ∧
       Forall2 (get_result true pathname) resources rs) ∧
  (∀ pre resource post,
     Forall valid_resource pre →
     RemoteResource.url resource = None →
     (get false pathname ticks (pre ++ resource :: post) s).2
     = Rejects "penumbra.get(): RemoteResource missing URL").
Proof.
  intros Ht. split.
  - intros resources. apply (Promise_all_resolves 2); [lia|].
    intros r s1 _. apply get_one_streaming_resolves.
  - intros pre resource post Hv Hu. apply (Promise_all_rejects 3); [done|..].
    + intros r s1 Hr. eapply resolves_quiet. apply get_one_resolves.
      by apply (proj1 (Forall_forall _ _) Hv).
    + intros s1. by apply get_one_missing_url.
    + intros r s1 _. apply get_one_buffered_quiet.
Qed.

Lemma get_missing_url_witness :
  (∃ s' rs, get true sample_pathname 3 [sample_resource; no_url] initial
            = (s', Resolves rs) ∧
     Forall2 (get_result true sample_pathname) [sample_resource; no_url] rs) ∧
  (get false sample_pathname 3 [sample_resource; no_url; sample_resource]
     initial).2
  = Rejects "penumbra.get(): RemoteResource missing URL".
Proof.
  destruct (get_missing_url sample_pathname 3 initial (le_n 3)) as [Hs Hb].
  split.
  - apply Hs.
  - apply (Hb [sample_resource] no_url [sample_resource]); [|reflexivity].
    repeat constructor. by eexists.
Defined.

(** X9: on the buffered path [encrypt] resolves, for a valid batch, to
    the input files with the properties of the options added: the stream
    of every result is the stream of the input file, not a stream made by
    [encryptFile], the size is the declared one, and explicit options put
    their key and IV into every result. *)
Theorem encrypt_buffered_keeps_stream ticks options files s :
  5 ≤ ticks → Forall (valid_file false) files →
  ∃ s' rs, encrypt false ticks options files s = (s', Resolves rs) ∧
    Forall2
      (λ file r,
         ∃ h, r = Some h ∧
           PenumbraFile.stream h = PenumbraFile.stream file ∧
           PenumbraFile.size h = PenumbraFile.size file ∧
           ∀ o, options = Some o →
             PenumbraFile.key h = Some (PenumbraEncryptionOptions.key o) ∧
             PenumbraFile.iv h = Some (PenumbraEncryptionOptions.iv o))
      files rs.
Proof.
  intros Ht Hv. apply (Promise_all_resolves 5); [done|].
  intros file s1 Hf.
  eapply resolves_within_impl;
    [|apply (encrypt_one_resolves false options file s1);
      by apply (proj1 (Forall_forall _ _) Hv)].
  intros r ->. eexists. split; [done|].
  split; [by destruct options|]. split; [by destruct options|].
  by intros o ->.
Qed.

Lemma encrypt_buffered_keeps_stream_witness :
  ∃ s' rs,
    encrypt false 5 (Some (PenumbraEncryptionOptions.mk "key" "iv"))
      [sample_file 0 (Some 1024%N)] initial = (s', Resolves rs) ∧
    Forall2
      (λ file r,
         ∃ h, r = Some h ∧
           PenumbraFile.stream h = PenumbraFile.stream file ∧
           PenumbraFile.size h = PenumbraFile.size file ∧
           ∀ o, Some (PenumbraEncryptionOptions.mk "key" "iv") = Some o →
             PenumbraFile.key h = Some (PenumbraEncryptionOptions.key o) ∧
             PenumbraFile.iv h = Some (PenumbraEncryptionOptions.iv o))
      [sample_file 0 (Some 1024%N)] rs.
Proof.
  apply (encrypt_buffered_keeps_stream 5
           (Some (PenumbraEncryptionOptions.mk "key" "iv"))
           [sample_file 0 (Some 1024%N)] initial); [lia|].
  repeat constructor; vm_compute; discriminate.
Defined.

Local Ltac single_goal :=
  repeat first
    [ progress cbn | intros ?s | split | reflexivity
    | apply steps_start
    | eapply steps_emit; [|cbn; done]
    | eapply steps_draw ].

Lemma get_one_single w pathname resource :
  Runs (steps single_job) (λ _, steps single_job) (get_one w pathname resource).
Proof.
  intros s. unfold get_one, getJob, getJob_buffer.
  destruct w; cbn.
  - single_goal.
  - destruct (RemoteResource.url resource); single_goal.
  Unshelve. all: exact 0.
Qed.

Lemma encrypt_one_single w options file :
  Runs (steps single_job) (λ _, steps single_job) (encrypt_one w options file).
Proof.
  intros s. unfold encrypt_one, encryptJob, collect_encrypt, sum_encrypt.
  destruct w; cbn;
    (destruct (instanceof_ArrayBuffer _); cbn; [single_goal|]);
    (destruct (truthy _); cbn; [|single_goal]).
  - single_goal.
  - destruct (_ <? _)%N; single_goal.
  Unshelve. all: exact 0.
Qed.

Lemma decrypt_one_single w decryptFile options file :
  Runs (steps single_job) (λ _, steps single_job)
    (decrypt_one w decryptFile options file).
Proof.
  intros s. unfold decrypt_one, decryptJob, collect_decrypt, id_or_next,
    check_decrypt.
  destruct w; cbn.
  - split; [single_goal|]. intros s1. cbn.
    destruct (truthy (PenumbraFile.id file)); cbn;
      destruct (truthy (PenumbraFile.size file)); single_goal.
  - destruct (_ <? _)%N; single_goal.
  Unshelve. all: exact 0.
Qed.

Lemma steps_since P s s' e :
  steps P s s' → e ∈ log_since s s' →
  match e with JobIDpp _ => True | _ => P e end.
Proof.
  intros (evs & E & H)%steps_log. unfold log_since.
  rewrite E, drop_app_length. intros He.
  by apply (proj1 (Forall_forall _ _) H).
Qed.

Lemma single_job_quiet e m ticks ws :
  single_job e → worker_call e = Some m →
  ∃ ws' ts, PenumbraWorker.run ticks m ws = (ws', Fulfilled ts) ∧
    length ts = 1 ∧ PenumbraWorker.warnings ws' = PenumbraWorker.warnings ws.
Proof.
  destruct e; simpl; try done.
  - intros [E1 E2] [= <-].
    destruct (PenumbraWorkerFacts.run_get_matching ticks writablePorts
                resources ws) as (ws' & ts & ? & ? & ?); [congruence|].
    exists ws', ts. split; [done|]. split; [congruence|done].
  - intros (_ & _ & E1 & E2) [= <-].
    destruct (PenumbraWorkerFacts.run_encrypt_matching ticks options ids sizes
                readablePorts writablePorts ws) as (ws' & ts & ? & ? & ?);
      [congruence|].
    exists ws', ts. split; [done|]. split; [congruence|done].
  - intros (_ & _ & E1 & E2) [= <-].
    destruct (PenumbraWorkerFacts.run_decrypt_matching ticks options ids sizes
                readablePorts writablePorts ws) as (ws' & ts & ? & ? & ?);
      [congruence|].
    exists ws', ts. split; [done|]. split; [congruence|done].
Qed.

Lemma Forall2_Some {X H} (Q : X → H → Prop) xs (rs : list (option H)) :
  Forall2 (λ x r, ∃ h, r = Some h ∧ Q x h) xs rs →
  ∃ hs, rs = Some <$> hs ∧ Forall2 Q xs hs.
Proof.
  induction 1 as [|x r xs rs (h & -> & Hq) _ (hs & -> & IH)].
  - by exists [].
  - exists (h :: hs). split; [done|]. by constructor.
Qed.

Lemma live_valid files :
  Forall (valid_file true) files → live files = files.
Proof.
  induction 1 as [|file files (Hb & _) _ IH]; [done|].
  unfold live in *. rewrite filter_cons, decide_True by done. by rewrite IH.
Qed.

Lemma handles_of_encrypt ticks options files s :
  5 ≤ ticks → Forall (valid_file true) files →
  ∃ s1 hs, encrypt true ticks options files s = (s1, Resolves (Some <$> hs)) ∧
    jobID s1 = (jobID s + N.of_nat (length files))%N ∧
    Forall2 (λ fc h, ∃ c, h = PenumbraFile.with_id (Some fc.2)
                              (PenumbraFile.with_stream (readable c) fc.1))
      (zip files (counter_trace (λ _ c, (c + 1)%N) (jobID s) files)) hs.
Proof.
  intros Ht Hv.
  destruct (encrypt_resolves true ticks options files s Ht Hv)
    as (s1 & rs & E & HF).
  destruct (Forall2_Some
              (λ fc h, ∃ c, h = PenumbraFile.with_id (Some fc.2)
                                  (PenumbraFile.with_stream (readable c) fc.1))
              (zip files (counter_trace (λ _ c, (c + 1)%N) (jobID s) files))
              rs) as (hs & -> & Hhs).
  { eapply Forall2_impl; [exact HF|]. intros fc r [c ->]. eauto. }
  exists s1, hs. split; [done|]. split; [|done].
  pose proof (encrypt_counter true ticks options files s) as Hc.
  rewrite E in Hc. simpl in Hc. by rewrite Hc, live_valid.
Qed.

(** X10: the handles that a streaming [encrypt] returns for a valid batch
    can be passed to the streaming [decrypt] as they are.  The i-th handle
    has the identifier [jobID + i]; [decrypt] resolves with one result for
    each, of the same size, and keeps every identifier but 0: the handle
    with identifier 0, the first of a fresh session, is given the next
    value of the counter instead. *)
Theorem encrypt_then_decrypt ticks decryptFile options info files s :
  5 ≤ ticks → Forall (valid_file true) files →
  ∃ s1 hs s2 ds,
    encrypt true ticks options files s = (s1, Resolves (Some <$> hs)) ∧
    decrypt true decryptFile ticks info hs s1 = (s2, Resolves (Some <$> ds)) ∧
    length hs = length files ∧ length ds = length files ∧
    ∀ i h d, hs !! i = Some h → ds !! i = Some d →
      PenumbraFile.id h = Some (jobID s + N.of_nat i)%N ∧
      PenumbraFile.id d
      = Some (if (jobID s + N.of_nat i =? 0)%N
              then (jobID s + N.of_nat (length files))%N
              else (jobID s + N.of_nat i)%N) ∧
      PenumbraFile.size d = PenumbraFile.size h.
Proof.
  intros Ht Hv.
  destruct (handles_of_encrypt ticks options files s Ht Hv)
    as (s1 & hs & E1 & Hj & Hhs).
  assert (length hs = length files) as Hlen.
  { apply Forall2_length in Hhs. rewrite length_zip_with in Hhs.
    rewrite counter_trace_length in Hhs. lia. }
  assert (∀ i h, hs !! i = Some h →
            ∃ file c, files !! i = Some file ∧
              h = PenumbraFile.with_id (Some (jobID s + N.of_nat i)%N)
                    (PenumbraFile.with_stream (readable c) file)) as Hh.
  { intros i h Hi.
    destruct (Forall2_lookup_r _ _ _ _ _ Hhs Hi) as ([file n] & Hz & c & ->).
    apply lookup_zip_with_Some in Hz as (file' & n' & [= <- <-] & Hf & Hn).
    rewrite counter_trace_lookup in Hn by by eapply lookup_lt_Some.
    injection Hn as <-. exists file, c. split; [done|].
    rewrite foldl_succ by (apply lookup_lt_Some in Hf; lia). done. }
  assert (Forall (valid_file true) hs) as Hvh.
  { apply Forall_lookup. intros i h Hi.
    destruct (Hh i h Hi) as (file & c & Hf & ->).
    destruct (proj1 (Forall_lookup _ _) Hv i file Hf) as (_ & Hs & _).
    by split. }
  destruct (decrypt_stream_resolves true decryptFile ticks info hs s1
              eq_refl Ht Hvh) as (s2 & rs & E2 & Hrs).
  destruct (Forall2_Some
              (λ fc d, ∃ c, d = PenumbraFile.with_id
                                  (Some (if truthy (PenumbraFile.id fc.1)
                                         then default 0%N (PenumbraFile.id fc.1)
                                         else fc.2))
                                  (PenumbraFile.with_stream (readable c) fc.1))
              (zip hs
                 (counter_trace
                    (λ file c, if truthy (PenumbraFile.id file) then c
                               else (c + 1)%N) (jobID s1) hs))
              rs) as (ds & -> & Hds).
  { eapply Forall2_impl; [exact Hrs|]. intros fc r [c ->]. eauto. }
  exists s1, hs, s2, ds. split; [done|]. split; [done|]. split; [done|].
  split.
  { apply Forall2_length in Hds. rewrite length_zip_with in Hds.
    rewrite counter_trace_length in Hds. lia. }
  intros i h d Hi Hd.
  destruct (Hh i h Hi) as (file & c & Hf & ->).
  destruct (Forall2_lookup_r _ _ _ _ _ Hds Hd) as ([h' n] & Hz & c' & ->).
  apply lookup_zip_with_Some in Hz as (h'' & n' & [= <- <-] & Hh' & Hn).
  rewrite Hi in Hh'. injection Hh' as <-. simpl.
  split; [done|]. split; [|done]. f_equal.
  destruct (N.eqb_spec (jobID s + N.of_nat i) 0) as [E0|E0]; simpl; [|done].
  assert (i = 0) as -> by lia.
  rewrite counter_trace_lookup in Hn by (apply lookup_lt_Some in Hi; lia).
  simpl in Hn. injection Hn as <-. done.
Qed.

Lemma encrypt_then_decrypt_witness :
  ∃ s1 hs s2 ds,
    encrypt true 5 None
      [sample_file 0 (Some 1024%N); sample_file 1 (Some 2048%N)] initial
    = (s1, Resolves (Some <$> hs)) ∧
    decrypt true sample_decryptFile 5 sample_info hs s1
    = (s2, Resolves (Some <$> ds)) ∧
    length hs = 2 ∧ length ds = 2 ∧
    ∀ i h d, hs !! i = Some h → ds !! i = Some d →
      PenumbraFile.id h = Some (0 + N.of_nat i)%N ∧
      PenumbraFile.id d
      = Some (if (0 + N.of_nat i =? 0)%N then (0 + 2)%N
              else (0 + N.of_nat i)%N) ∧
      PenumbraFile.size d = PenumbraFile.size h.
Proof.
  apply (encrypt_then_decrypt 5 sample_decryptFile None sample_info
           [sample_file 0 (Some 1024%N); sample_file 1 (Some 2048%N)] initial);
    [lia|].
  repeat constructor; done.
Defined.

Section FirstTurn.
Context {St X A C : Type} (cnt : St → C) (next : X → C → C).
Context (Φ : X → C → A → Prop).

(** Promises that leave a counter alone when they are created and move
    it in their first turn, which also fixes what they resolve to. *)
Lemma Promise_all_first_turn n ticks (f : X → Async (St:=St) A) xs s :
  S n ≤ ticks →
  (∀ x s, x ∈ xs →
     cnt (f x s).1 = cnt s ∧
     ∀ s1, cnt (resume (f x s).2 s1).1 = next x (cnt s1) ∧
           resolves_within n (Φ x (cnt s1)) (resume (f x s).2 s1).2) →
  ∃ s' vs, Promise_all ticks f xs s = (s', Resolves vs) ∧
    Forall2 (λ xc v, Φ xc.1 xc.2 v)
      (zip xs (counter_trace next (cnt s) xs)) vs.
Proof.
  intros Ht Hf. unfold Promise_all.
  destruct (spawn_all_counter cnt (λ _ c, c) (λ _ _ _, True) f xs s)
    as [Hj _].
  { intros x s1 Hx. split; [|done]. by apply Hf. }
  rewrite foldl_const in Hj.
  pose proof (spawn_all_Forall2
    (λ x t, ∀ s1, cnt (resume t s1).1 = next x (cnt s1) ∧
                  resolves_within n (Φ x (cnt s1)) (resume t s1).2)
    f xs s (λ x s1 Hx, proj2 (Hf x s1 Hx))) as Hs.
  destruct (spawn_all f xs s) as [s1 ts]. cbn [fst snd] in Hs, Hj.
  assert (first_rejected ts = None) as ->.
  { clear -Hs s1. induction Hs as [|x t xs ts Hx _ IH]; [done|].
    destruct t as [a|e|k]; simpl; [done| |done].
    by destruct (Hx s1) as [_ []]. }
  destruct ticks as [|m]; [lia|]. cbn [event_loop].
  destruct (round_counter cnt next (λ x c t, resolves_within n (Φ x c) t)
              xs ts s1 Hs) as [_ Hr].
  destruct (round ts s1) as [s2 ts2]. cbn [fst snd] in Hr. rewrite Hj in Hr.
  rewrite (resolves_not_rejected n _ _ _ Hr).
  eapply Forall2_impl in Hr;
    [|intros x t; apply (resolves_within_le n m); lia].
  destruct (event_loop_resolves m _ _ ts2 s2 Hr)
    as (s' & ts' & vs & -> & Hvs & HF).
  exists s', vs. unfold outcome. by rewrite Hvs.
Qed.
End FirstTurn.

Local Ltac turns_first := repeat (intros ?s; cbn).

Lemma get_one_first_turn pathname resource s :
  streams (get_one true pathname resource s).1 = streams s ∧
  ∀ s1,
    streams (resume (get_one true pathname resource s).2 s1).1
    = S (streams s1) ∧
    resolves_within 1
      (λ r, r = Some (PenumbraFile.of_resource (readable (streams s1))
                        (Some (pathname (RemoteResource.url resource)))
                        resource))
      (resume (get_one true pathname resource s).2 s1).2.
Proof.
  unfold get_one, getJob. cbn. split; [done|]. intros s1. cbn.
  split; [done|]. turns_first. done.
Qed.

Lemma encrypt_one_first_turn options file s :
  valid_file true file →
  streams (encrypt_one true options file s).1 = streams s ∧
  ∀ s1,
    streams (resume (encrypt_one true options file s).2 s1).1
    = S (S (streams s1)) ∧
    resolves_within 3
      (λ r, ∃ h, r = Some h ∧
                 PenumbraFile.stream h = readable (streams s1))
      (resume (encrypt_one true options file s).2 s1).2.
Proof.
  intros (Hb & Hs & _). unfold encrypt_one, encryptJob, collect_encrypt.
  cbn. rewrite Hb. cbn. rewrite Hs. cbn. split; [done|]. intros s1. cbn.
  split; [done|]. turns_first. eauto.
Qed.

Lemma decrypt_one_first_turn decryptFile options file s :
  truthy (PenumbraFile.size file) = true →
  streams (decrypt_one true decryptFile options file s).1 = streams s ∧
  ∀ s1,
    streams (resume (decrypt_one true decryptFile options file s).2 s1).1
    = S (S (streams s1)) ∧
    resolves_within 3
      (λ r, ∃ h, r = Some h ∧
                 PenumbraFile.stream h = readable (streams s1))
      (resume (decrypt_one true decryptFile options file s).2 s1).2.
Proof.
  intros Hs. unfold decrypt_one, decryptJob, collect_decrypt, id_or_next.
  cbn. split; [done|]. intros s1. cbn.
  destruct (truthy (PenumbraFile.id file)); cbn; rewrite Hs; cbn;
    (split; [done|]); turns_first; eauto.
Qed.

Lemma foldl_S {X} (xs : list X) c i :
  foldl (λ c _, S c) c (take i xs) = c + (i `min` length xs).
Proof.
  revert c i. induction xs as [|x xs IH]; intros c [|i]; simpl; try lia.
  rewrite IH. lia.
Qed.

Lemma foldl_SS {X} (xs : list X) c i :
  foldl (λ c _, S (S c)) c (take i xs) = c + 2 * (i `min` length xs).
Proof.
  revert c i. induction xs as [|x xs IH]; intros c [|i]; simpl; try lia.
  rewrite IH. lia.
Qed.

(** X22: on the streaming path every result has a channel of its own,
    and the channels are taken in the order of the batch.  The i-th result
    of [get] is the i-th resource reading from the remote stream number
    [streams + i], for every batch; the i-th result of [encrypt] and of
    [decrypt], for a valid batch, reads from the remote stream number
    [streams + 2 i]: no two results share a stream. *)
Theorem one_channel_per_result pathname decryptFile ticks s :
  4 ≤ ticks →
  (∀ resources,
     (get true pathname ticks resources s).2
     = Resolves
         (imap (λ i resource,
                  Some (PenumbraFile.of_resource (readable (streams s + i))
                          (Some (pathname (RemoteResource.url resource)))
                          resource))
            resources)) ∧
  (∀ options files,
     Forall (valid_file true) files →
     ∃ s' rs, encrypt true ticks options files s = (s', Resolves rs) ∧
       ∀ i file, files !! i = Some file →
         ∃ h, rs !! i = Some (Some h) ∧
              PenumbraFile.stream h = readable (streams s + 2 * i)) ∧
  (∀ options files,
     Forall (valid_file true) files →
     ∃ s' rs, decrypt true decryptFile ticks options files s
              = (s', Resolves rs) ∧
       ∀ i file, files !! i = Some file →
         ∃ h, rs !! i = Some (Some h) ∧
              PenumbraFile.stream h = readable (streams s + 2 * i)).
Proof.
  intros Ht. split; [|split].
  - intros resources.
    destruct (Promise_all_first_turn streams (λ _ c, S c)
                (λ resource c r,
                   r = Some (PenumbraFile.of_resource (readable c)
                               (Some (pathname (RemoteResource.url resource)))
                               resource))
                1 ticks (get_one true pathname) resources s)
      as (s' & rs & E & HF); [lia| |].
    { intros r s1 _. apply get_one_first_turn. }
    unfold get. rewrite E. simpl. f_equal. apply list_eq. intros i.
    rewrite list_lookup_imap.
    destruct (resources !! i) as [r|] eqn:Hi; simpl.
    + pose proof (lookup_lt_Some _ _ _ Hi) as Hlt.
      destruct (Forall2_zip_lookup _ _ _ _ i r _ HF Hi
                  (counter_trace_lookup _ _ _ _ Hlt)) as (v & Hv & ->).
      rewrite Hv. simpl. rewrite foldl_S.
      by replace (i `min` length resources) with i by lia.
    + apply Forall2_length in HF. rewrite length_zip_with in HF.
      rewrite counter_trace_length in HF.
      apply lookup_ge_None in Hi. apply lookup_ge_None. lia.
  - intros options files Hv.
    destruct (Promise_all_first_turn streams (λ _ c, S (S c))
                (λ (file : PenumbraFile.t) c r,
                   ∃ h, r = Some h ∧ PenumbraFile.stream h = readable c)
                3 ticks (encrypt_one true options) files s)
      as (s' & rs & E & HF); [lia| |].
    { intros file s1 Hf. apply encrypt_one_first_turn.
      by apply (proj1 (Forall_forall _ _) Hv). }
    exists s', rs. split; [done|]. intros i file Hi.
    pose proof (lookup_lt_Some _ _ _ Hi) as Hlt.
    destruct (Forall2_zip_lookup _ _ _ _ i file _ HF Hi
                (counter_trace_lookup _ _ _ _ Hlt)) as (v & Hr & h & -> & Hh).
    exists h. split; [done|]. rewrite Hh, foldl_SS.
    by replace (i `min` length files) with i by lia.
  - intros options files Hv.
    destruct (Promise_all_first_turn streams (λ _ c, S (S c))
                (λ (file : PenumbraFile.t) c r,
                   ∃ h, r = Some h ∧ PenumbraFile.stream h = readable c)
                3 ticks (decrypt_one true decryptFile options) files s)
      as (s' & rs & E & HF); [lia| |].
    { intros file s1 Hf. apply decrypt_one_first_turn.
      by destruct (proj1 (Forall_forall _ _) Hv file Hf) as (_ & ? & _). }
    exists s', rs. split; [done|]. intros i file Hi.
    pose proof (lookup_lt_Some _ _ _ Hi) as Hlt.
    destruct (Forall2_zip_lookup _ _ _ _ i file _ HF Hi
                (counter_trace_lookup _ _ _ _ Hlt)) as (v & Hr & h & -> & Hh).
    exists h. split; [done|]. rewrite Hh, foldl_SS.
    by replace (i `min` length files) with i by lia.
Qed.

Lemma one_channel_per_result_witness :
  (get true sample_pathname 4 [sample_resource; no_url] initial).2
  = Resolves
      [Some (PenumbraFile.of_resource (readable 0) (Some "/NYT.txt.enc")
               sample_resource);
       Some (PenumbraFile.of_resource (readable 1) (Some "/NYT.txt.enc")
               no_url)] ∧
  ∃ s' rs,
    encrypt true 4 None
      [sample_file 0 (Some 1024%N); sample_file 1 (Some 2048%N)] initial
    = (s', Resolves rs) ∧
    ∀ i file,
      [sample_file 0 (Some 1024%N); sample_file 1 (Some 2048%N)] !! i
      = Some file →
      ∃ h, rs !! i = Some (Some h) ∧
           PenumbraFile.stream h = readable (0 + 2 * i).
Proof.
  destruct (one_channel_per_result sample_pathname sample_decryptFile 4
              initial (le_n 4)) as (Hg & He & _).
  split.
  - apply (Hg [sample_resource; no_url]).
  - apply (He None [sample_file 0 (Some 1024%N); sample_file 1 (Some 2048%N)]).
    repeat constructor; done.
Defined.

Local Ltac path_goal :=
  repeat first
    [ progress cbn | intros ?s | split | reflexivity
    | apply steps_start
    | eapply steps_emit; [|cbn; done]
    | eapply steps_draw ].

Lemma get_one_delegated pathname resource :
  Runs (steps delegated) (λ _, steps delegated)
    (get_one true pathname resource).
Proof.
  intros s. unfold get_one, getJob. cbn. path_goal.
  Unshelve. all: exact 0.
Qed.

Lemma get_one_in_place pathname resource :
  Runs (steps in_place) (λ _, steps in_place)
    (get_one false pathname resource).
Proof.
  intros s. unfold get_one, getJob, getJob_buffer. cbn.
  destruct (RemoteResource.url resource); path_goal.
  Unshelve. all: exact 0.
Qed.

Lemma encrypt_one_delegated options file :
  Runs (steps delegated) (λ _, steps delegated)
    (encrypt_one true options file).
Proof.
  intros s. unfold encrypt_one, encryptJob, collect_encrypt. cbn.
  destruct (instanceof_ArrayBuffer _); cbn; [path_goal|].
  destruct (truthy _); cbn; path_goal.
  Unshelve. all: exact 0.
Qed.

Lemma encrypt_one_in_place options file :
  Runs (steps in_place) (λ _, steps in_place)
    (encrypt_one false options file).
Proof.
  intros s. unfold encrypt_one, encryptJob, collect_encrypt, sum_encrypt. cbn.
  destruct (instanceof_ArrayBuffer _); cbn; [path_goal|].
  destruct (truthy _); cbn; [|path_goal].
  destruct (_ <? _)%N; path_goal.
  Unshelve. all: exact 0.
Qed.

Lemma decrypt_one_delegated decryptFile options file :
  Runs (steps delegated) (λ _, steps delegated)
    (decrypt_one true decryptFile options file).
Proof.
  intros s. unfold decrypt_one, decryptJob, collect_decrypt, id_or_next. cbn.
  split; [path_goal|]. intros s1. cbn.
  destruct (truthy (PenumbraFile.id file)); cbn;
    destruct (truthy (PenumbraFile.size file)); path_goal.
  Unshelve. all: exact 0.
Qed.

Lemma decrypt_one_in_place decryptFile options file :
  Runs (steps in_place) (λ _, steps in_place)
    (decrypt_one false decryptFile options file).
Proof.
  intros s. unfold decrypt_one, decryptJob, check_decrypt. cbn.
  destruct (_ <? _)%N; path_goal.
  Unshelve. all: exact 0.
Qed.

Lemma steps_Forall P s s' :
  (∀ n, P (JobIDpp n)) → steps P s s' → Forall P (log_since s s').
Proof.
  intros HP (evs & E & H)%steps_log. unfold log_since.
  rewrite E, drop_app_length. eapply Forall_impl; [done|].
  intros e He. destruct e; auto.
Qed.

(** X23: the two paths do not mix, whatever the batch and whether or not
    the call succeeds.  On the streaming path [get], [encrypt] and
    [decrypt] only draw identifiers, set up channels and talk to the
    worker: the calling context imports no cipher, fetches nothing and
    encrypts or decrypts nothing itself.  On the buffered path they never
    ask for a worker, make no remote stream or channel, issue no remote
    call and pipe nothing. *)
Theorem path_discipline pathname decryptFile ticks options info resources
    files s :
  (Forall delegated (log_since s (get true pathname ticks resources s).1) ∧
   Forall delegated (log_since s (encrypt true ticks options files s).1) ∧
   Forall delegated
     (log_since s (decrypt true decryptFile ticks info files s).1)) ∧
  (Forall in_place (log_since s (get false pathname ticks resources s).1) ∧
   Forall in_place (log_since s (encrypt false ticks options files s).1) ∧
   Forall in_place
     (log_since s (decrypt false decryptFile ticks info files s).1)).
Proof.
  split; (split; [|split]); (apply steps_Forall; [done|]).
  - apply (Promise_all_runs (steps delegated)). intros x _.
    apply get_one_delegated.
  - apply (Promise_all_runs (steps delegated)). intros x _.
    apply encrypt_one_delegated.
  - apply (Promise_all_runs (steps delegated)). intros x _.
    apply decrypt_one_delegated.
  - apply (Promise_all_runs (steps in_place)). intros x _.
    apply get_one_in_place.
  - apply (Promise_all_runs (steps in_place)). intros x _.
    apply encrypt_one_in_place.
  - apply (Promise_all_runs (steps in_place)). intros x _.
    apply decrypt_one_in_place.
Qed.

(** ** The jobs of the worker *)

Module WorkerJobsFacts.
Import PenumbraWorker WorkerJobs.
Local Open Scope async_scope.

Section Pairs.
Context {O : Type} (ev : O → nat → option N → option N → Event).
Context (src : nat → Source) (options : O) (ids sizes : list N).
Context (readablePorts writablePorts : list nat).

Let callback (ix : nat * nat) : Async unit :=
  let* stream := fromReadablePort readablePorts ix.1 in
  let* writable := fromWritablePort writablePorts ix.1 in
  let id := ids !! ix.1 in
  let size := sizes !! ix.1 in
  do emit (ev options stream size id) then
  emit (PipeTo (src stream) writable).

Let job (i : nat) (ports : nat * nat) : list Event :=
  [FromReadablePort ports.1; FromWritablePort ports.2;
   ev options ports.1 (sizes !! i) (ids !! i);
   PipeTo (src ports.1) ports.2].

Lemma spawn_pairs_from k rs ws s :
  length rs = length ws →
  (∀ i r, rs !! i = Some r → readablePorts !! (k + i) = Some r) →
  (∀ i w, ws !! i = Some w → writablePorts !! (k + i) = Some w) →
  spawn_all callback (imap (λ i r, (k + i, r)) rs) s
  = (s ++ mjoin (imap (λ i, job (k + i)) (zip rs ws)),
     replicate (length rs) (Fulfilled tt)).
Proof.
  revert k ws s. induction rs as [|r rs IH]; intros k [|w ws] s El Hr Hw;
    try done.
  - cbn. by rewrite app_nil_r.
  - rewrite imap_cons. cbn [spawn_all].
    pose proof (Hr 0 r eq_refl) as Hr0. pose proof (Hw 0 w eq_refl) as Hw0.
    unfold callback at 1, fromReadablePort, fromWritablePort.
    cbn [fst snd]. rewrite Hr0. cbn. rewrite Hw0. cbn.
    rewrite (imap_ext _ (λ i r, (S k + i, r))) by (intros; simpl; f_equal; lia).
    rewrite (IH (S k) ws); [|by injection El|..].
    + cbn. rewrite <- !app_assoc. cbn. do 7 f_equal.
      apply imap_ext. intros i x _. cbn. by rewrite Nat.add_succ_r.
    + intros i r' Hi. replace (S k + i) with (k + S i) by lia. by apply Hr.
    + intros i w' Hi. replace (S k + i) with (k + S i) by lia. by apply Hw.
Qed.

Lemma forEach_pairs s :
  length readablePorts = length writablePorts →
  forEach_async (λ (_ : nat) i, callback (i, 0)) readablePorts s
  = (s ++ mjoin (imap job (zip readablePorts writablePorts)),
     Fulfilled (replicate (length readablePorts) (Fulfilled tt))).
Proof.
  intros El. unfold forEach_async.
  pose proof (spawn_pairs_from 0 readablePorts writablePorts s El
                (λ i r H, H) (λ i w H, H)) as H.
  cbn [Nat.add] in H.
  replace (spawn_all _ (imap pair readablePorts) s)
    with (spawn_all callback (imap (λ i r, (i, r)) readablePorts) s);
    [by rewrite H|].
  clear H. change (λ i r : nat, (i, r)) with (@pair nat nat).
  generalize (imap pair readablePorts). intros ixs. revert s. induction ixs as [|ix ixs IH]; intros s; [done|].
  cbn [spawn_all]. change (callback (ix.1, 0)) with (callback ix).
  destruct (callback ix s) as [s1 t]. by rewrite IH.
Qed.
End Pairs.

Lemma take_min_lengths (rs ws : list nat) :
  length (take (length ws `min` length rs) rs)
  = length (take (length ws `min` length rs) ws).
Proof. rewrite !length_take. lia. Qed.

Lemma encrypt_pairs options ids sizes readablePorts writablePorts s :
  encrypt options ids sizes readablePorts writablePorts s
  = (s ++ warning "Readable ports" "Writable ports"
            (length writablePorts) (length readablePorts) ++
     mjoin (imap (encrypt_job options ids sizes)
              (zip readablePorts writablePorts)),
     Fulfilled (replicate (length writablePorts `min` length readablePorts)
                  (Fulfilled tt))).
Proof.
  unfold encrypt, truncate_ports, warning. cbn [bind].
  destruct (Nat.eqb_spec (length writablePorts) (length readablePorts))
    as [E|E]; cbn [negb bind_task ret emit modify bind].
  - pose proof (forEach_pairs Encrypt Encrypted options ids sizes
                  readablePorts writablePorts s (eq_sym E)) as H.
    cbn in H |- *. rewrite H. by rewrite E, Nat.min_id.
  - set (n := length writablePorts `min` length readablePorts).
    pose proof (forEach_pairs Encrypt Encrypted options ids sizes
                  (take n readablePorts) (take n writablePorts)
                  (s ++ [ConsoleWarn
                           (count_mismatch "Readable ports" "Writable ports"
                              (length writablePorts) (length readablePorts)
                              (length (take n writablePorts)))])
                  (take_min_lengths _ _)) as H.
    cbn in H |- *. rewrite H.
    rewrite zip_with_take_both' by (subst n; lia).
    rewrite !length_take. rewrite <- app_assoc.
    by replace (n `min` length writablePorts) with n by (subst n; lia);
      replace (n `min` length readablePorts) with n by (subst n; lia).
Qed.

Lemma decrypt_pairs options ids sizes readablePorts writablePorts s :
  decrypt options ids sizes readablePorts writablePorts s
  = (s ++ warning "Readable ports" "Writable ports"
            (length writablePorts) (length readablePorts) ++
     mjoin (imap (decrypt_job options ids sizes)
              (zip readablePorts writablePorts)),
     Fulfilled (replicate (length writablePorts `min` length readablePorts)
                  (Fulfilled tt))).
Proof.
  unfold decrypt, truncate_ports, warning. cbn [bind].
  destruct (Nat.eqb_spec (length writablePorts) (length readablePorts))
    as [E|E]; cbn [negb bind_task ret emit modify bind].
  - pose proof (forEach_pairs Decrypt Decrypted options ids sizes
                  readablePorts writablePorts s (eq_sym E)) as H.
    cbn in H |- *. rewrite H. by rewrite E, Nat.min_id.
  - set (n := length writablePorts `min` length readablePorts).
    pose proof (forEach_pairs Decrypt Decrypted options ids sizes
                  (take n readablePorts) (take n writablePorts)
                  (s ++ [ConsoleWarn
                           (count_mismatch "Readable ports" "Writable ports"
                              (length writablePorts) (length readablePorts)
                              (length (take n writablePorts)))])
                  (take_min_lengths _ _)) as H.
    cbn in H |- *. rewrite H.
    rewrite zip_with_take_both' by (subst n; lia).
    rewrite !length_take. rewrite <- app_assoc.
    by replace (n `min` length writablePorts) with n by (subst n; lia);
      replace (n `min` length readablePorts) with n by (subst n; lia).
Qed.

Lemma round_settled {St A} (ts : list (Task (St:=St) A)) s :
  Forall settled ts → round ts s = (s, ts).
Proof.
  induction 1 as [|[a|e|k] ts Ht _ IH]; try done; simpl; by rewrite IH.
Qed.

Lemma event_loop_settled {St A} ticks (ts : list (Task (St:=St) A)) rej s :
  Forall settled ts →
  (event_loop ticks ts rej s).1 = s ∧ (event_loop ticks ts rej s).2.1 = ts.
Proof.
  intros H. revert rej. induction ticks as [|n IH]; intros rej; simpl; [done|].
  rewrite round_settled by done. apply IH.
Qed.

Section Get.
Context (writablePorts : list nat).

Let callback (ix : nat * RemoteResource.t) : Async unit :=
  match RemoteResource.url ix.2 with
  | None => throw "PenumbraDecryptionWorker.get(): RemoteResource missing URL"
  | Some _ =>
      let requestInit := RemoteResource.requestInit ix.2 in
      let* remoteStream := fromWritablePort writablePorts ix.1 in
      do await (emit (FetchAndDecrypt ix.2 requestInit)) then
      emit (PipeTo (Fetched ix.2) remoteStream)
  end.

Let pending (job : RemoteResource.t * nat) : Task (St:=State) unit :=
  match RemoteResource.url job.1 with
  | Some _ => Await (λ s, (s ++ [PipeTo (Fetched job.1) job.2], Fulfilled tt))
  | None => Rejected get_url_error
  end.

Lemma spawn_get_from k rs ws s :
  length rs = length ws →
  (∀ i w, ws !! i = Some w → writablePorts !! (k + i) = Some w) →
  spawn_all callback (imap (λ i r, (k + i, r)) rs) s
  = (s ++ (zip rs ws ≫= get_start), pending <$> zip rs ws).
Proof.
  revert k ws s. induction rs as [|r rs IH]; intros k [|w ws] s El Hw;
    try done.
  - cbn. by rewrite app_nil_r.
  - rewrite imap_cons. cbn [spawn_all].
    pose proof (Hw 0 w eq_refl) as Hw0.
    rewrite (imap_ext _ (λ i r, (S k + i, r))) by (intros; simpl; f_equal; lia).
    unfold callback at 1, fromWritablePort, get_start, pending. cbn [fst snd].
    assert (∀ i w, ws !! i = Some w → writablePorts !! (S k + i) = Some w)
      as Hw'.
    { intros i w' Hi. replace (S k + i) with (k + S i) by lia. by apply Hw. }
    destruct (RemoteResource.url r) eqn:Hu.
    + rewrite Hw0. cbn. rewrite (IH (S k) ws) by (by injection El || done).
      cbn. rewrite Hu. cbn. by rewrite <- !app_assoc.
    + cbn. rewrite (IH (S k) ws) by (by injection El || done).
      cbn. by rewrite Hu.
Qed.

Lemma round_pending jobs s :
  round (pending <$> jobs) s = (s ++ (jobs ≫= get_pipe), get_settled <$> jobs).
Proof.
  revert s. induction jobs as [|job jobs IH]; intros s; cbn.
  - by rewrite app_nil_r.
  - unfold pending at 1, get_pipe at 1, get_settled at 1.
    destruct (RemoteResource.url job.1); cbn; rewrite IH; cbn;
      by rewrite <- ?app_assoc.
Qed.

Lemma get_settled_settled jobs : Forall settled (get_settled <$> jobs).
Proof.
  apply Forall_fmap, Forall_forall. intros job _. unfold get_settled. simpl.
  by destruct (RemoteResource.url job.1).
Qed.
End Get.

Lemma run_forEach_get ticks writablePorts resources s :
  1 ≤ ticks → length resources = length writablePorts →
  run ticks
    (forEach_async
       (λ resource i,
          match RemoteResource.url resource with
          | None =>
              throw
                "PenumbraDecryptionWorker.get(): RemoteResource missing URL"
          | Some _ =>
              let requestInit := RemoteResource.requestInit resource in
              let* remoteStream := fromWritablePort writablePorts i in
              do await (emit (FetchAndDecrypt resource requestInit)) then
              emit (PipeTo (Fetched resource) remoteStream)
          end) resources) s
  = (s ++ (zip resources writablePorts ≫= get_start) ++
          (zip resources writablePorts ≫= get_pipe),
     Fulfilled (get_settled <$> zip resources writablePorts)).
Proof.
  intros Ht El. unfold run, forEach_async.
  pose proof (spawn_get_from writablePorts 0 resources writablePorts s El
                (λ i w H, H)) as H.
  cbn [Nat.add] in H. change (λ (i : nat) (r : RemoteResource.t), (i, r))
    with (@pair nat RemoteResource.t) in H.
  cbn [fst snd] in H |- *. rewrite H.
  destruct ticks as [|n]; [lia|]. cbn [event_loop].
  rewrite round_pending.
  rewrite <- app_assoc.
  match goal with
  | |- context [event_loop n ?ts ?rej ?st] =>
      pose proof (event_loop_settled n ts rej st (get_settled_settled _))
        as [E1 E2];
      destruct (event_loop n ts rej st) as [s2 [ts' r]]
  end.
  simpl in *. by subst.
Qed.

Lemma get_jobs ticks writablePorts resources s :
  1 ≤ ticks →
  run ticks (get writablePorts resources) s
  = (s ++ warning "Writable ports" "Resources"
            (length writablePorts) (length resources) ++
     (zip resources writablePorts ≫= get_start) ++
     (zip resources writablePorts ≫= get_pipe),
     Fulfilled (get_settled <$> zip resources writablePorts)).
Proof.
  intros Ht. unfold run at 1, get, warning.
  destruct (Nat.eqb_spec (length writablePorts) (length resources)) as [E|E];
    cbn [negb bind bind_task ret emit modify].
  - pose proof (run_forEach_get ticks writablePorts resources s Ht (eq_sym E))
      as H. unfold run in H. by rewrite H.
  - set (n := length writablePorts `min` length resources).
    pose proof (run_forEach_get ticks (take n writablePorts) (take n resources)
                  (s ++ [ConsoleWarn
                           (count_mismatch "Writable ports" "Resources"
                              (length writablePorts) (length resources)
                              (length (take n writablePorts)))]) Ht) as H.
    unfold run in H. cbn [fst snd] in H |- *. rewrite H.
    + rewrite !zip_with_take_both' by (subst n; lia).
      rewrite !length_take. rewrite <- app_assoc.
      by replace (n `min` length writablePorts) with n by (subst n; lia).
    + rewrite !length_take. subst n. lia.
Qed.

Lemma getBuffer_resolves resource s :
  valid_resource resource →
  resolves_within 2 (λ buffer, buffer = arrayBuffer resource)
    (getBuffer resource s).2.
Proof.
  intros [u Hu]. unfold getBuffer. rewrite Hu. cbn.
  repeat (intros ?s; cbn). done.
Qed.

Lemma getBuffer_rejects resource s :
  RemoteResource.url resource = None →
  rejects_at 0 getBuffers_url_error (getBuffer resource s).2.
Proof. intros Hu. unfold getBuffer. by rewrite Hu. Qed.

Lemma getBuffer_log resource s :
  (getBuffer resource s).1
  = match RemoteResource.url resource with
    | Some _ => s ++ [FetchAndDecrypt resource None]
    | None => s
    end ∧
  runs eq (λ _, eq) (getBuffer resource s).2.
Proof.
  unfold getBuffer. destruct (RemoteResource.url resource); cbn; [|done].
  repeat first [split | intros ?s | progress cbn]; done.
Qed.

Lemma foldl_with_url resources (s : State) :
  foldl (λ log resource,
           match RemoteResource.url resource with
           | Some _ => log ++ [FetchAndDecrypt resource None]
           | None => log
           end) s resources
  = s ++ ((λ resource, FetchAndDecrypt resource None) <$> with_url resources).
Proof.
  unfold with_url. revert s.
  induction resources as [|r rs IH]; intros s; simpl.
  - by rewrite app_nil_r.
  - rewrite IH, filter_cons.
    destruct (decide _) as [[u Hu]|Hn].
    + rewrite Hu. simpl. by rewrite <- app_assoc.
    + destruct (RemoteResource.url r); [|done]. destruct Hn. by eexists.
Qed.

Lemma getBuffers_log ticks resources s :
  (getBuffers ticks resources s).1
  = s ++ ((λ resource, FetchAndDecrypt resource None) <$> with_url resources).
Proof.
  unfold getBuffers, Promise_all.
  destruct (spawn_all_counter (λ s : State, s)
              (λ resource log,
                 match RemoteResource.url resource with
                 | Some _ => log ++ [FetchAndDecrypt resource None]
                 | None => log
                 end)
              (λ _ _ t, runs eq (λ _, eq) t)
              getBuffer resources s) as [Hc Hr].
  { intros r s1 _. apply getBuffer_log. }
  destruct (spawn_all _ resources s) as [s1 ts]. simpl in Hc, Hr.
  pose proof (event_loop_runs eq ticks ts (first_rejected ts) s1) as He.
  destruct (event_loop _ _ _ _) as [s2 [ts' rej]]. simpl in *.
  rewrite <- He, Hc; [apply foldl_with_url|].
  eapply Forall2_Forall_r; [exact Hr|done].
Qed.

Lemma Forall2_eq_fmap {X Y} (f : X → Y) xs ys :
  Forall2 (λ x y, y = f x) xs ys → ys = f <$> xs.
Proof. induction 1 as [|x y xs ys -> _ ->]; done. Qed.

Lemma getBuffers_resolves ticks resources s :
  2 ≤ ticks → Forall valid_resource resources →
  (getBuffers ticks resources s).2 = Resolves (arrayBuffer <$> resources).
Proof.
  intros Ht Hv.
  destruct (Promise_all_resolves 2 ticks
              (λ resource buffer, buffer = arrayBuffer resource)
              getBuffer resources s Ht) as (s' & vs & E & HF).
  { intros r s1 Hr. apply getBuffer_resolves.
    by apply (proj1 (Forall_forall _ _) Hv). }
  unfold getBuffers. rewrite E. simpl. f_equal. by apply Forall2_eq_fmap.
Qed.

Lemma getBuffers_rejects ticks pre resource post s :
  Forall valid_resource pre → RemoteResource.url resource = None →
  (getBuffers ticks (pre ++ resource :: post) s).2 = Rejects getBuffers_url_error.
Proof.
  intros Hv Hu. apply (Promise_all_rejects 0); [lia|..].
  - intros r s1 Hr. eapply resolves_quiet. apply getBuffer_resolves.
    by apply (proj1 (Forall_forall _ _) Hv).
  - intros s1. by apply getBuffer_rejects.
  - intros r s1 _. by destruct (getBuffer r s1).2.
Qed.

End WorkerJobsFacts.

(** X11: the worker's [encrypt] and [decrypt] pair their ports by
    position.  After the count-mismatch warning, if the counts differ, the
    i-th callback reads from the i-th readable port, takes the i-th size
    and the i-th identifier ([undefined] where those lists are shorter, for
    they are not checked), and pipes the transformed stream into the i-th
    writable port; the callbacks run when the call is made, one after the
    other, as many as the shorter list of ports has, and none of them
    fails. *)
Theorem worker_pairs_ports ids sizes readablePorts writablePorts s :
  (∀ options,
     PenumbraWorker.encrypt options ids sizes readablePorts writablePorts s
     = (s ++ WorkerJobs.warning "Readable ports" "Writable ports"
               (length writablePorts) (length readablePorts) ++
        mjoin (imap (WorkerJobs.encrypt_job options ids sizes)
                 (zip readablePorts writablePorts)),
        Fulfilled (replicate (length writablePorts `min` length readablePorts)
                     (Fulfilled tt)))) ∧
  (∀ options,
     PenumbraWorker.decrypt options ids sizes readablePorts writablePorts s
     = (s ++ WorkerJobs.warning "Readable ports" "Writable ports"
               (length writablePorts) (length readablePorts) ++
        mjoin (imap (WorkerJobs.decrypt_job options ids sizes)
                 (zip readablePorts writablePorts)),
        Fulfilled (replicate (length writablePorts `min` length readablePorts)
                     (Fulfilled tt)))).
Proof.
  split; intros options.
  - apply WorkerJobsFacts.encrypt_pairs.
  - apply WorkerJobsFacts.decrypt_pairs.
Qed.

(** X12: the worker's [get] never fails as a whole.  After the
    count-mismatch warning, if the counts differ, it starts one callback
    for each resource that has a port.  A resource with a URL is fetched
    at once and, a turn later, piped into the port of the same position; a
    resource without URL does nothing and only its own promise, which
    nobody awaits, is rejected; the other resources are not affected. *)
Theorem worker_get_jobs ticks writablePorts resources s :
  1 ≤ ticks →
  PenumbraWorker.run ticks (PenumbraWorker.get writablePorts resources) s
  = (s ++ WorkerJobs.warning "Writable ports" "Resources"
            (length writablePorts) (length resources) ++
     (zip resources writablePorts ≫= WorkerJobs.get_start) ++
     (zip resources writablePorts ≫= WorkerJobs.get_pipe),
     Fulfilled (WorkerJobs.get_settled <$> zip resources writablePorts)).
Proof. apply WorkerJobsFacts.get_jobs. Qed.

Lemma worker_get_jobs_witness :
  PenumbraWorker.run 1
    (PenumbraWorker.get [10; 11; 12] [sample_resource; no_url; sample_resource])
    []
  = ([PenumbraWorker.FromWritablePort 10;
      PenumbraWorker.FetchAndDecrypt sample_resource None;
      PenumbraWorker.FromWritablePort 12;
      PenumbraWorker.FetchAndDecrypt sample_resource None;
      PenumbraWorker.PipeTo (PenumbraWorker.Fetched sample_resource) 10;
      PenumbraWorker.PipeTo (PenumbraWorker.Fetched sample_resource) 12],
     Fulfilled [Fulfilled tt; Rejected WorkerJobs.get_url_error; Fulfilled tt]).
Proof.
  apply (worker_get_jobs 1 [10; 11; 12]
           [sample_resource; no_url; sample_resource] []).
  lia.
Defined.

(** X13: the worker's [getBuffers] calls [fetchAndDecrypt] once for every
    resource that has a URL, in order, whether or not the call succeeds.
    When every resource has a URL it resolves to the buffers of the
    resources in their order; when the first resource without URL comes
    after resources that have one, it is rejected with the missing-URL
    error of [getBuffers]. *)
Theorem worker_getBuffers ticks s :
  (∀ resources,
     (WorkerJobs.getBuffers ticks resources s).1
     = s ++ ((λ resource, PenumbraWorker.FetchAndDecrypt resource None)
               <$> WorkerJobs.with_url resources)) ∧
  (∀ resources,
     2 ≤ ticks → Forall valid_resource resources →
     (WorkerJobs.getBuffers ticks resources s).2
     = Resolves (arrayBuffer <$> resources)) ∧
  (∀ pre resource post,
     Forall valid_resource pre → RemoteResource.url resource = None →
     (WorkerJobs.getBuffers ticks (pre ++ resource :: post) s).2
     = Rejects WorkerJobs.getBuffers_url_error).
Proof.
  split; [|split].
  - intros. apply WorkerJobsFacts.getBuffers_log.
  - intros. by apply WorkerJobsFacts.getBuffers_resolves.
  - intros. by apply WorkerJobsFacts.getBuffers_rejects.
Qed.

Lemma worker_getBuffers_witness :
  (WorkerJobs.getBuffers 2 [sample_resource; sample_resource] []).2
  = Resolves [arrayBuffer sample_resource; arrayBuffer sample_resource] ∧
  WorkerJobs.getBuffers 2 [sample_resource; no_url; sample_resource] []
  = ([PenumbraWorker.FetchAndDecrypt sample_resource None;
      PenumbraWorker.FetchAndDecrypt sample_resource None],
     Rejects WorkerJobs.getBuffers_url_error).
Proof.
  destruct (worker_getBuffers 2 []) as (Hl & Hr & Hj).
  split.
  - apply (Hr [sample_resource; sample_resource]); [lia|].
    repeat constructor; by eexists.
  - apply injective_projections.
    + apply (Hl [sample_resource; no_url; sample_resource]).
    + apply (Hj [sample_resource] no_url [sample_resource]); [|reflexivity].
      repeat constructor. by eexists.
Defined.

(** ** More on job completion *)

Module CompletionMoreFacts.
Import Completion CompletionFacts CompletionMore.
Implicit Types (s : State) (e : JobCompletionEmit) (l : Listener) (i : ID).

Section WithNumber.
Context {Number_toString : N → string}.
Local Abbreviation template := (Completion.template Number_toString).
Local Abbreviation listener := (Completion.listener Number_toString).
Local Abbreviation dispatch := (Completion.dispatch Number_toString).
Local Abbreviation dispatch_all := (Completion.dispatch_all Number_toString).
Local Abbreviation matches := (Completion.matches Number_toString).

Lemma dispatch_all_unheard es s : listeners s = [] → dispatch_all es s = s.
Proof.
  intros Hl. induction es as [|e es IH]; [done|].
  simpl. unfold Completion.dispatch at 1. rewrite Hl. simpl. exact IH.
Qed.

Lemma listener_listeners l e s l' :
  l' ∈ listeners (listener l e s) → l' ∈ listeners s.
Proof.
  unfold Completion.listener. destruct (searchForID l); [|done]. case_decide; [|done].
  simpl. by intros [_ ?]%list_elem_of_filter.
Qed.

Lemma foldl_listener_listeners ls e s l' :
  l' ∈ listeners (foldl (λ s l, listener l e s) s ls) → l' ∈ listeners s.
Proof.
  revert s. induction ls as [|l ls IH]; intros s; simpl; [done|].
  intros H. by eapply listener_listeners, IH.
Qed.

Lemma dispatch_removes e s p i l :
  matches i e → waiting p i s →
  l ∈ listeners (dispatch e s) → promise l ≠ p.
Proof.
  intros Hm Hw. pose proof Hw as (Hin & Hres & Huniq). unfold Completion.dispatch.
  destruct (list_elem_of_split_l _ _ Hin) as (l1 & l2 & E & Hl1).
  rewrite E. rewrite foldl_app. simpl. intros Hl.
  apply foldl_listener_listeners in Hl.
  unfold Completion.listener at 1 in Hl. simpl in Hl.
  rewrite decide_True in Hl by done. simpl in Hl.
  by apply list_elem_of_filter in Hl as [? _].
Qed.

Lemma track_keeps_waiting p i j s :
  promises_ok s → waiting p i s → waiting p i (trackJobCompletion j s).1.
Proof.
  intros [Hl Hr] (Hin & Hres & Huniq). unfold waiting. simpl. split; [|split].
  - apply elem_of_app. by left.
  - done.
  - apply Forall_app. split; [done|]. constructor; [|constructor]. simpl.
    intros <-. pose proof (proj1 (Forall_forall _ _) Hl _ Hin). simpl in *. lia.
Qed.

Lemma listener_stuck_other l e s p :
  promise l ≠ p → stuck p s → stuck p (listener l e s).
Proof.
  intros Hne (Hin & Hres & Huniq). unfold Completion.listener, stuck.
  destruct (searchForID l); [|done]. case_decide; [|done]. simpl.
  split; [|split].
  - apply list_elem_of_filter. split; [|done]. simpl. congruence.
  - by rewrite complete_lookup_ne.
  - apply Forall_forall. intros l' [_ Hl']%list_elem_of_filter.
    by apply (proj1 (Forall_forall _ _) Huniq).
Qed.

Lemma foldl_listener_stuck ls e s p :
  Forall (λ l, promise l = p → l = mkListener p None) ls →
  stuck p s → stuck p (foldl (λ s l, listener l e s) s ls).
Proof.
  intros Hls. revert s.
  induction Hls as [|l ls Hl _ IH]; intros s Hs; simpl; [done|].
  apply IH. destruct (decide (promise l = p)) as [E|E].
  - by rewrite (Hl E).
  - by apply listener_stuck_other.
Qed.

Lemma dispatch_all_stuck es s p : stuck p s → stuck p (dispatch_all es s).
Proof.
  revert s. induction es as [|e es IH]; intros s Hs; [done|].
  simpl. apply IH. apply foldl_listener_stuck; [|done].
  by destruct Hs as (_ & _ & ?).
Qed.

Lemma track_stuck s :
  promises_ok s → stuck (promises s) (trackJobCompletion None s).1.
Proof.
  intros [Hl Hr]. unfold stuck, trackJobCompletion. simpl. split; [|split].
  - apply elem_of_app. right. left.
  - by apply Hr.
  - apply Forall_app. split.
    + eapply Forall_impl; [done|]. simpl. lia.
    + by repeat constructor.
Qed.
Lemma dispatch_promises e s : promises (dispatch e s) = promises s.
Proof.
  unfold Completion.dispatch. generalize (listeners s) as ls. intros ls.
  revert s. induction ls as [|l ls IH]; intros s; simpl; [done|].
  by rewrite IH, listener_promises.
Qed.

Lemma dispatch_all_promises es s :
  promises (dispatch_all es s) = promises s.
Proof.
  revert s. induction es as [|e es IH]; intros s; simpl; [done|].
  by rewrite IH, dispatch_promises.
Qed.

Lemma unmatched_other_id i es :
  Forall (λ e, ¬ matches i e) es → Forall (λ e, id e ≠ i) es.
Proof.
  intros H. eapply Forall_impl; [exact H|]. intros e Hm E. apply Hm.
  unfold Completion.matches. by rewrite E.
Qed.
End WithNumber.
End CompletionMoreFacts.

(** X14: a completion is recorded by the listeners of pending calls and
    by nothing else.  While no listener is registered, completion events
    leave the state as it is: a call of [getDecryptionInfo] made after such
    events, for a job that is not recorded, does not find the descriptor
    and returns a promise that is still pending. *)
Theorem completion_unheard Number_toString es i s :
  Completion.listeners s = [] →
  Completion.promises_ok s →
  Completion.decryptionConfigs s !! i = None →
  Completion.dispatch_all Number_toString es s = s ∧
  ∃ s1 p,
    Completion.getDecryptionInfo (Some i)
      (Completion.dispatch_all Number_toString es s)
    = (s1, Completion.Tracking p) ∧
    Completion.value s1 (Completion.Tracking p) = None.
Proof.
  intros Hl [_ Hr] Hi.
  rewrite (CompletionMoreFacts.dispatch_all_unheard es s Hl).
  split; [done|].
  unfold Completion.getDecryptionInfo. simpl. rewrite Hi.
  eexists _, _. split; [done|]. simpl. by apply Hr.
Qed.

Lemma completion_unheard_witness :
  Completion.dispatch_all Completion.decimal
    [Completion.mkEmit (Completion.Num 0) sample_info] Completion.initial
  = Completion.initial ∧
  ∃ s1 p,
    Completion.getDecryptionInfo (Some (Completion.Num 0))
      (Completion.dispatch_all Completion.decimal
         [Completion.mkEmit (Completion.Num 0) sample_info] Completion.initial)
    = (s1, Completion.Tracking p) ∧
    Completion.value s1 (Completion.Tracking p) = None.
Proof.
  apply (completion_unheard Completion.decimal
           [Completion.mkEmit (Completion.Num 0) sample_info]
           (Completion.Num 0) Completion.initial).
  - reflexivity.
  - split; [constructor|]. intros. reflexivity.
  - reflexivity.
Defined.

(** X15: a listener compares identifiers by their text, the table of
    descriptors by identity.  When the first completion event that matches
    a pending call has an id that differs from the id the call tracks but
    has the same text (the number 5 and the string 5), the event resolves
    the promise of the call, yet the descriptor is recorded under the id of
    the event only: the next call for the tracked id finds nothing and
    waits on a new promise. *)
Theorem completion_matches_by_text Number_toString i j info before s :
  i ≠ j →
  Completion.template Number_toString j
  = Completion.template Number_toString i →
  Forall (λ e', ¬ Completion.matches Number_toString i e') before →
  Completion.promises_ok s →
  Completion.decryptionConfigs s !! i = None →
  ∃ s1 p,
    Completion.getDecryptionInfo (Some i) s = (s1, Completion.Tracking p) ∧
    let s2 :=
      Completion.dispatch Number_toString (Completion.mkEmit j info)
        (Completion.dispatch_all Number_toString before s1) in
    Completion.value s2 (Completion.Tracking p) = Some info ∧
    Completion.decryptionConfigs s2 !! j = Some info ∧
    Completion.decryptionConfigs s2 !! i = None ∧
    ∃ s3 p',
      Completion.getDecryptionInfo (Some i) s2 = (s3, Completion.Tracking p') ∧
      p' ≠ p.
Proof.
  intros Hne Ht Hb Hok Hi.
  exists (Completion.trackJobCompletion (Some i) s).1, (Completion.promises s).
  pose proof (CompletionFacts.track_waiting i s Hok) as Hw.
  split.
  { unfold Completion.getDecryptionInfo. simpl. by rewrite Hi. }
  intros s2.
  pose proof (CompletionFacts.dispatch_all_waiting _ _ _ _ Hb Hw) as Hw'.
  destruct (CompletionFacts.dispatch_fires (Completion.mkEmit j info) _ _ i
              Ht Hw') as [Hr Hc].
  assert (Completion.decryptionConfigs s2 !! i = None) as Hi2.
  { subst s2. unfold Completion.dispatch.
    rewrite CompletionFacts.foldl_listener_configs by done.
    rewrite CompletionFacts.dispatch_all_configs
      by exact (CompletionMoreFacts.unmatched_other_id i before Hb).
    done. }
  split; [done|]. split; [done|]. split; [done|].
  unfold Completion.getDecryptionInfo. simpl. rewrite Hi2.
  eexists _, _. split; [done|].
  subst s2.
  rewrite CompletionMoreFacts.dispatch_promises,
    CompletionMoreFacts.dispatch_all_promises.
  simpl. lia.
Qed.

Lemma completion_matches_by_text_witness :
  ∃ s1 p,
    Completion.getDecryptionInfo (Some (Completion.Num 5)) Completion.initial
    = (s1, Completion.Tracking p) ∧
    let s2 :=
      Completion.dispatch Completion.decimal
        (Completion.mkEmit (Completion.Str "5") sample_info)
        (Completion.dispatch_all Completion.decimal
           [Completion.mkEmit (Completion.Num 4) other_info] s1) in
    Completion.value s2 (Completion.Tracking p) = Some sample_info ∧
    Completion.decryptionConfigs s2 !! Completion.Str "5" = Some sample_info ∧
    Completion.decryptionConfigs s2 !! Completion.Num 5 = None ∧
    ∃ s3 p',
      Completion.getDecryptionInfo (Some (Completion.Num 5)) s2
      = (s3, Completion.Tracking p') ∧ p' ≠ p.
Proof.
  apply (completion_matches_by_text Completion.decimal (Completion.Num 5)
           (Completion.Str "5") sample_info
           [Completion.mkEmit (Completion.Num 4) other_info]
           Completion.initial).
  - discriminate.
  - vm_compute. reflexivity.
  - repeat constructor. vm_compute. discriminate.
  - split; [constructor|]. intros. reflexivity.
  - reflexivity.
Defined.

(** X16: two calls of [getDecryptionInfo] for a job that is not recorded
    return two different promises.  Whatever events come first, as long
    as none of them matches the id both promises stay pending; the first
    event that matches resolves both with its descriptor and removes both
    listeners, and no later event changes what they were resolved with. *)
Theorem completion_pending_calls Number_toString i s :
  Completion.promises_ok s →
  Completion.decryptionConfigs s !! i = None →
  ∃ s1 p1 s2 p2,
    Completion.getDecryptionInfo (Some i) s = (s1, Completion.Tracking p1) ∧
    Completion.getDecryptionInfo (Some i) s1 = (s2, Completion.Tracking p2) ∧
    p1 ≠ p2 ∧
    ∀ before e,
      Forall (λ e', ¬ Completion.matches Number_toString i e') before →
      Completion.matches Number_toString i e →
      let s2' := Completion.dispatch_all Number_toString before s2 in
      let s3 := Completion.dispatch Number_toString e s2' in
      Completion.value s2' (Completion.Tracking p1) = None ∧
      Completion.value s2' (Completion.Tracking p2) = None ∧
      Forall (λ l, Completion.promise l ≠ p1 ∧ Completion.promise l ≠ p2)
        (Completion.listeners s3) ∧
      ∀ after,
        Completion.value (Completion.dispatch_all Number_toString after s3)
          (Completion.Tracking p1) = Some (Completion.decryptionInfo e) ∧
        Completion.value (Completion.dispatch_all Number_toString after s3)
          (Completion.Tracking p2) = Some (Completion.decryptionInfo e).
Proof.
  intros Hok Hi.
  set (s1 := (Completion.trackJobCompletion (Some i) s).1).
  set (s2 := (Completion.trackJobCompletion (Some i) s1).1).
  exists s1, (Completion.promises s), s2, (Completion.promises s1).
  assert (Completion.getDecryptionInfo (Some i) s
          = (s1, Completion.Tracking (Completion.promises s))) as E1.
  { unfold Completion.getDecryptionInfo. simpl. by rewrite Hi. }
  assert (Completion.promises_ok s1) as Hok1.
  { pose proof (CompletionFacts.promises_ok_get (Some i) s Hok) as H.
    by rewrite E1 in H. }
  pose proof (CompletionFacts.track_waiting i s Hok) as Hw1.
  pose proof (CompletionMoreFacts.track_keeps_waiting _ _ (Some i) _ Hok1 Hw1)
    as Hw1'.
  pose proof (CompletionFacts.track_waiting i s1 Hok1) as Hw2.
  split; [done|]. split.
  { unfold Completion.getDecryptionInfo. simpl. by rewrite Hi. }
  split; [simpl; lia|].
  intros before e Hb He s2' s3.
  pose proof (CompletionFacts.dispatch_all_waiting _ _ _ _ Hb Hw1') as Hv1.
  pose proof (CompletionFacts.dispatch_all_waiting _ _ _ _ Hb Hw2) as Hv2.
  fold s2 s2' in Hv1, Hv2.
  split; [by destruct Hv1 as (_ & ? & _)|].
  split; [by destruct Hv2 as (_ & ? & _)|].
  split.
  - apply Forall_forall. intros l Hl. split.
    + by eapply (CompletionMoreFacts.dispatch_removes e s2' _ i).
    + by eapply (CompletionMoreFacts.dispatch_removes e s2' _ i).
  - intros es. split; apply CompletionFacts.dispatch_all_resolved.
    + by apply (CompletionFacts.dispatch_fires e s2' _ i He Hv1).
    + by apply (CompletionFacts.dispatch_fires e s2' _ i He Hv2).
Qed.

Lemma completion_pending_calls_witness :
  ∃ s1 p1 s2 p2,
    Completion.getDecryptionInfo (Some (Completion.Num 0)) Completion.initial
    = (s1, Completion.Tracking p1) ∧
    Completion.getDecryptionInfo (Some (Completion.Num 0)) s1
    = (s2, Completion.Tracking p2) ∧
    p1 ≠ p2 ∧
    let s2' :=
      Completion.dispatch_all Completion.decimal
        [Completion.mkEmit (Completion.Num 1) other_info;
         Completion.mkEmit (Completion.Str "a") other_info] s2 in
    let s3 :=
      Completion.dispatch Completion.decimal
        (Completion.mkEmit (Completion.Num 0) sample_info) s2' in
    Completion.value s2' (Completion.Tracking p1) = None ∧
    Completion.value s2' (Completion.Tracking p2) = None ∧
    Forall (λ l, Completion.promise l ≠ p1 ∧ Completion.promise l ≠ p2)
      (Completion.listeners s3) ∧
    ∀ after,
      Completion.value (Completion.dispatch_all Completion.decimal after s3)
        (Completion.Tracking p1) = Some sample_info ∧
      Completion.value (Completion.dispatch_all Completion.decimal after s3)
        (Completion.Tracking p2) = Some sample_info.
Proof.
  destruct (completion_pending_calls Completion.decimal (Completion.Num 0)
              Completion.initial) as (s1 & p1 & s2 & p2 & E1 & E2 & Hne & H).
  - split; [constructor|]. intros. reflexivity.
  - reflexivity.
  - exists s1, p1, s2, p2. split; [exact E1|]. split; [exact E2|].
    split; [exact Hne|].
    apply (H [Completion.mkEmit (Completion.Num 1) other_info;
              Completion.mkEmit (Completion.Str "a") other_info]
             (Completion.mkEmit (Completion.Num 0) sample_info)).
    + repeat constructor; vm_compute; discriminate.
    + reflexivity.
Defined.

(** X17: for a file without id, [getDecryptionInfo] adds a listener that
    no event satisfies: the promise it returns stays pending whatever
    events follow, and the listener is never removed. *)
Theorem completion_without_id Number_toString s :
  Completion.promises_ok s →
  ∃ s1 p,
    Completion.getDecryptionInfo None s = (s1, Completion.Tracking p) ∧
    ∀ es,
      Completion.value (Completion.dispatch_all Number_toString es s1)
        (Completion.Tracking p)
      = None ∧
      Completion.mkListener p None
      ∈ Completion.listeners (Completion.dispatch_all Number_toString es s1).
Proof.
  intros Hok.
  exists (Completion.trackJobCompletion None s).1, (Completion.promises s).
  split; [done|]. intros es.
  destruct (CompletionMoreFacts.dispatch_all_stuck
              (Number_toString := Number_toString) es _ _
              (CompletionMoreFacts.track_stuck s Hok)) as (Hin & Hres & _).
  done.
Qed.

Lemma completion_without_id_witness :
  ∃ s1 p,
    Completion.getDecryptionInfo None Completion.initial
    = (s1, Completion.Tracking p) ∧
    ∀ es,
      Completion.value (Completion.dispatch_all Completion.decimal es s1)
        (Completion.Tracking p)
      = None ∧
      Completion.mkListener p None
      ∈ Completion.listeners (Completion.dispatch_all Completion.decimal es s1).
Proof.
  apply (completion_without_id Completion.decimal Completion.initial).
  split; [constructor|]. intros. reflexivity.
Defined.

Module CompletionReachFacts.
Import Completion CompletionFacts CompletionReach.
Implicit Types (s : State) (e : JobCompletionEmit) (l : Listener).

Section WithNumber.
Context {Number_toString : N → string}.
Local Abbreviation template := (Completion.template Number_toString).
Local Abbreviation listener := (Completion.listener Number_toString).
Local Abbreviation dispatch := (Completion.dispatch Number_toString).
Local Abbreviation dispatch_all := (Completion.dispatch_all Number_toString).
Local Abbreviation matches := (Completion.matches Number_toString).

Lemma tidy_track id s :
  promises_ok s → tidy s → tidy (trackJobCompletion id s).1.
Proof.
  intros [Hl Hr] [Hnd Hp]. unfold tidy. simpl. split.
  - rewrite fmap_app. simpl. apply NoDup_app. split; [done|]. split.
    + intros p Hin [->|[]%elem_of_nil]%elem_of_cons.
      apply list_elem_of_fmap in Hin as (l & E & Hin).
      pose proof (proj1 (Forall_forall _ _) Hl l Hin). simpl in *. lia.
    + apply NoDup_singleton.
  - apply Forall_app. split; [done|]. constructor; [|constructor].
    simpl. by apply Hr.
Qed.

Lemma NoDup_fmap_filter {X Y} (f : X → Y) (P : X → Prop)
    `{!∀ x, Decision (P x)} (xs : list X) :
  NoDup (f <$> xs) → NoDup (f <$> filter P xs).
Proof.
  induction xs as [|x xs IH]; simpl; [done|].
  intros [Hx Hnd]%NoDup_cons. rewrite filter_cons.
  destruct (decide (P x)); [|by apply IH]. simpl. apply NoDup_cons.
  split; [|by apply IH]. intros Hin. apply Hx.
  apply list_elem_of_fmap in Hin as (y & E & [_ Hy]%list_elem_of_filter).
  apply list_elem_of_fmap. eauto.
Qed.

Lemma tidy_listener l e s : tidy s → tidy (listener l e s).
Proof.
  intros [Hnd Hp]. unfold Completion.listener, tidy.
  destruct (searchForID l); [|done]. case_decide; [|done]. simpl. split.
  - by apply NoDup_fmap_filter.
  - apply Forall_forall. intros l' [Hne Hl']%list_elem_of_filter.
    rewrite complete_lookup_ne by done.
    by apply (proj1 (Forall_forall _ _) Hp).
Qed.

Lemma tidy_foldl ls e s : tidy s → tidy (foldl (λ s l, listener l e s) s ls).
Proof.
  revert s. induction ls as [|l ls IH]; intros s Hs; [done|].
  simpl. by apply IH, tidy_listener.
Qed.
End WithNumber.
End CompletionReachFacts.

(** X24: in every state that calls of [getDecryptionInfo] and completion
    events lead to, the promises handed out are exactly those counted,
    every registered listener has a promise of its own, and that promise
    is still pending: a listener never outlives the resolution of its
    promise. *)
Theorem completion_invariant Number_toString s :
  CompletionReach.reachable Number_toString s →
  Completion.promises_ok s ∧ CompletionReach.tidy s.
Proof.
  induction 1 as [|id s _ [IH1 IH2]|e s _ [IH1 IH2]].
  - split; [apply CompletionFacts.promises_ok_initial|].
    split; [apply NoDup_nil_2|constructor].
  - split; [by apply CompletionFacts.promises_ok_get|].
    unfold Completion.getDecryptionInfo.
    destruct (id ≫= _); [done|]. by apply CompletionReachFacts.tidy_track.
  - split; [by apply CompletionFacts.promises_ok_dispatch|].
    by apply CompletionReachFacts.tidy_foldl.
Qed.

Lemma completion_invariant_witness :
  CompletionReach.tidy
    (Completion.dispatch Completion.decimal
       (Completion.mkEmit (Completion.Num 0) sample_info)
       (Completion.getDecryptionInfo (Some (Completion.Num 0))
          Completion.initial).1).
Proof.
  apply (completion_invariant Completion.decimal
           (Completion.dispatch Completion.decimal
              (Completion.mkEmit (Completion.Num 0) sample_info)
              (Completion.getDecryptionInfo (Some (Completion.Num 0))
                 Completion.initial).1)).
  apply CompletionReach.reachable_dispatch, CompletionReach.reachable_get,
    CompletionReach.reachable_initial.
Defined.

(** ** [save] and [getBlob] *)

Module SaveFacts.
Import Save.

Lemma sum_sizes_inexact isNumber files :
  isNumber None = false →
  sum_sizes isNumber files Inexact
  = if forallb (λ file, isNumber (PenumbraFile.size file)) files
    then Some Inexact else None.
Proof.
  intros Hu. induction files as [|file files IH]; [done|].
  cbn [sum_sizes forallb].
  destruct (isNumber (PenumbraFile.size file)) eqn:E; [|done]. cbn [negb andb].
  destruct (PenumbraFile.size file) as [b|] eqn:Es; [|congruence].
  exact IH.
Qed.

Lemma sum_sizes_numbers isNumber files a :
  isNumber None = false → (a ≤ MAX_EXACT)%N →
  sum_sizes isNumber files (Num a)
  = if forallb (λ file, isNumber (PenumbraFile.size file)) files
    then Some (if (a + total_size files <=? MAX_EXACT)%N
               then Num (a + total_size files) else Inexact)
    else None.
Proof.
  intros Hu. revert a. induction files as [|file files IH]; intros a Ha.
  - cbn [sum_sizes forallb]. change (total_size []) with 0%N.
    rewrite N.add_0_r. by destruct (N.leb_spec a MAX_EXACT); [|lia].
  - cbn [sum_sizes forallb].
    destruct (isNumber (PenumbraFile.size file)) eqn:E; [|done]. cbn [negb andb].
    destruct (PenumbraFile.size file) as [b|] eqn:Es; [|congruence].
    change (total_size (file :: files))
      with (default 0 (PenumbraFile.size file) + total_size files)%N.
    rewrite Es. cbn [plus default from_option id].
    destruct (N.leb_spec (a + b) MAX_EXACT) as [Hle|Hgt].
    + rewrite IH by done. by rewrite N.add_assoc.
    + rewrite sum_sizes_inexact by done.
      destruct (forallb _ files); [|done].
      destruct (N.leb_spec (a + (b + total_size files)) MAX_EXACT);
        [exfalso; lia|done].
Qed.
End SaveFacts.




(** ** [PenumbraError] *)

Module PenumbraErrorFacts.
Import PenumbraError.

Lemma copy_message error this : message (copy error this) = message this.
Proof.
  unfold copy. revert this.
  induction (keys error) as [|kv l IH]; intros this; simpl; [done|].
  rewrite IH. by case_decide.
Qed.

Lemma foldl_copy_absent l this key :
  key ∉ l.*1 →
  props (foldl (λ this kv, if decide (kv.1 = "message") then this
                           else set kv.1 kv.2 this) this l) !! key
  = props this !! key.
Proof.
  revert this. induction l as [|kv l IH]; intros this Hk; simpl; [done|].
  apply not_elem_of_cons in Hk as [Hne Hk]. rewrite IH by done.
  case_decide; [done|]. simpl. by rewrite lookup_insert_ne.
Qed.

Lemma foldl_copy_present l this key v :
  NoDup l.*1 → (key, v) ∈ l → key ≠ "message" →
  props (foldl (λ this kv, if decide (kv.1 = "message") then this
                           else set kv.1 kv.2 this) this l) !! key
  = Some v.
Proof.
  revert this. induction l as [|kv l IH]; intros this Hnd Hin Hne; simpl.
  - by apply elem_of_nil in Hin.
  - apply NoDup_cons in Hnd as [Hk Hnd].
    apply elem_of_cons in Hin as [<-|Hin].
    + rewrite foldl_copy_absent by done. simpl.
      rewrite decide_False by done. simpl. by rewrite lookup_insert_eq.
    + by apply IH.
Qed.
End PenumbraErrorFacts.

(** X20: a [PenumbraError] has the message of what it wraps, the id it
    was constructed with, the id of the worker, and the name
    [PenumbraError], which is also its string tag, even when the wrapped
    error has properties of its own called [id], [worker], [name] or
    [message].  Every other enumerable property of the wrapped error is
    carried over with its value, and no other property is added. *)
Theorem PenumbraError_fields getWorkerID error id :
  let this := PenumbraError.new getWorkerID error id in
  PenumbraError.message this
  = match error with
    | PenumbraError.Message s => s
    | PenumbraError.Wrapped e => PenumbraError.thrown_message e
    end ∧
  PenumbraError.props this !! "id" = Some (PenumbraError.value_of id) ∧
  PenumbraError.props this !! "worker"
  = Some (from_option PenumbraError.VNumber PenumbraError.VNull getWorkerID) ∧
  PenumbraError.toStringTag this
  = Some (PenumbraError.VString "PenumbraError") ∧
  ∀ key, key ∉ PenumbraError.reserved →
    match error with
    | PenumbraError.Message _ => PenumbraError.props this !! key = None
    | PenumbraError.Wrapped e =>
        (key ∉ (PenumbraError.keys e).*1 →
         PenumbraError.props this !! key = None) ∧
        (∀ v, NoDup (PenumbraError.keys e).*1 →
              (key, v) ∈ PenumbraError.keys e →
              PenumbraError.props this !! key = Some v)
    end.
Proof.
  intros this. subst this. unfold PenumbraError.new, PenumbraError.toStringTag.
  split; [|split; [|split; [|split]]].
  - destruct error as [s|e]; simpl; [done|].
    apply PenumbraErrorFacts.copy_message.
  - simpl. rewrite !lookup_insert_ne by done. by rewrite lookup_insert_eq.
  - simpl. rewrite lookup_insert_ne by done. by rewrite lookup_insert_eq.
  - simpl. by rewrite lookup_insert_eq.
  - intros key Hk. unfold PenumbraError.reserved in Hk.
    apply not_elem_of_cons in Hk as [H1 Hk].
    apply not_elem_of_cons in Hk as [H2 Hk].
    apply not_elem_of_cons in Hk as [H3 Hk].
    apply not_elem_of_cons in Hk as [H4 _].
    destruct error as [s|e]; simpl; rewrite !lookup_insert_ne by done.
    + done.
    + split.
      * intros Ha. unfold PenumbraError.copy.
        by rewrite PenumbraErrorFacts.foldl_copy_absent.
      * intros v Hnd Hin. unfold PenumbraError.copy.
        by apply PenumbraErrorFacts.foldl_copy_present.
Qed.

Lemma PenumbraError_fields_witness :
  let this :=
    PenumbraError.new (Some 3%N)
      (PenumbraError.Wrapped
         (PenumbraError.mkThrown "boom"
            [("id", PenumbraError.VString "spoofed");
             ("status", PenumbraError.VNumber 404)]))
      (PenumbraError.Num 7) in
  PenumbraError.message this = "boom" ∧
  PenumbraError.props this !! "id" = Some (PenumbraError.VNumber 7) ∧
  PenumbraError.props this !! "status" = Some (PenumbraError.VNumber 404).
Proof.
  destruct (PenumbraError_fields (Some 3%N)
              (PenumbraError.Wrapped
                 (PenumbraError.mkThrown "boom"
                    [("id", PenumbraError.VString "spoofed");
                     ("status", PenumbraError.VNumber 404)]))
              (PenumbraError.Num 7)) as (Hm & Hi & _ & _ & Hk).
  split; [exact Hm|]. split; [exact Hi|].
  apply (Hk "status").
  - unfold PenumbraError.reserved. intros H.
    repeat (apply elem_of_cons in H as [H|H]; [discriminate H|]).
    by apply elem_of_nil in H.
  - simpl. apply NoDup_cons. split.
    + intros H. apply elem_of_cons in H as [H|H]; [discriminate H|].
      by apply elem_of_nil in H.
    + apply NoDup_singleton.
  - right. left.
Defined.

(** ** Results by position *)

(** *** What promises deliver *)

Section Delivery.
Context {St X A : Type} (G : St → St → Prop) `{!PreOrder G}.
Context (Ψ : X → A → St → Prop).
Hypothesis stable : ∀ x a s s', Ψ x a s → G s s' → Ψ x a s'.

Lemma delivers_mono x (t : Task A) s s' :
  delivers G (Ψ x) t s → G s s' → delivers G (Ψ x) t s'.
Proof.
  destruct t as [a|e|k]; simpl; [by eauto|done|].
  intros H Hs s1 H1. apply H. by etrans.
Qed.

Lemma delivers_resume x (t : Task A) s :
  delivers G (Ψ x) t s →
  G s (resume t s).1 ∧ delivers G (Ψ x) (resume t s).2 (resume t s).1.
Proof.
  destruct t as [a|e|k]; simpl; [done|done|]. intros H. by apply H.
Qed.

Lemma round_delivers xs (ts : list (Task A)) s :
  Forall2 (λ x t, delivers G (Ψ x) t s) xs ts →
  G s (round ts s).1 ∧
  Forall2 (λ x t, delivers G (Ψ x) t (round ts s).1) xs (round ts s).2.
Proof.
  intros H. revert s H. revert xs.
  induction ts as [|t ts IH]; intros xs s H.
  - inversion H; subst. simpl. split; [reflexivity|constructor].
  - inversion H as [|x t' xs' ts' Hx Hxs]; subst. simpl.
    destruct (delivers_resume x t s Hx) as [G1 D1].
    destruct (resume t s) as [s1 t1]. simpl in *.
    destruct (IH xs' s1) as [G2 D2].
    { eapply Forall2_impl; [exact Hxs|]. intros y u Hu.
      eapply delivers_mono; [exact Hu|exact G1]. }
    destruct (round ts s1) as [s2 ts2]. simpl in *.
    split; [by etrans|]. constructor; [|done].
    eapply delivers_mono; [exact D1|exact G2].
Qed.

Lemma event_loop_delivers ticks xs (ts : list (Task A)) rej s :
  Forall2 (λ x t, delivers G (Ψ x) t s) xs ts →
  G s (event_loop ticks ts rej s).1 ∧
  Forall2 (λ x t, delivers G (Ψ x) t (event_loop ticks ts rej s).1) xs
    (event_loop ticks ts rej s).2.1.
Proof.
  revert ts rej s. induction ticks as [|n IH]; intros ts rej s H; simpl.
  - split; [reflexivity|done].
  - destruct (round_delivers xs ts s H) as [G1 D1].
    destruct (round ts s) as [s1 ts1]. simpl in *.
    destruct (IH ts1 (match rej with Some e => Some e
                      | None => first_rejected ts1 end) s1 D1) as [G2 D2].
    split; [by etrans|done].
Qed.

Lemma spawn_all_delivers (f : X → Async (St:=St) A) xs s0 s :
  (∀ x s1, x ∈ xs → G s0 s1 →
     G s1 (f x s1).1 ∧ delivers G (Ψ x) (f x s1).2 (f x s1).1) →
  G s0 s →
  G s (spawn_all f xs s).1 ∧
  Forall2 (λ x t, delivers G (Ψ x) t (spawn_all f xs s).1) xs
    (spawn_all f xs s).2.
Proof.
  revert s. induction xs as [|x xs IH]; intros s Hf Hs; simpl.
  - split; [reflexivity|constructor].
  - destruct (Hf x s) as [G1 D1]; [by left|done|].
    destruct (f x s) as [s1 t]. simpl in *.
    destruct (IH s1) as [G2 D2].
    { intros y s2 Hy. apply Hf. by right. }
    { by etrans. }
    destruct (spawn_all f xs s1) as [s2 ts]. simpl in *.
    split; [by etrans|]. constructor; [|done].
    eapply delivers_mono; [exact D1|exact G2].
Qed.

Lemma values_delivers xs (ts : list (Task A)) vs s :
  Forall2 (λ x t, delivers G (Ψ x) t s) xs ts →
  values ts = Some vs → Forall2 (λ x v, Ψ x v s) xs vs.
Proof.
  intros H. revert vs. induction H as [|x t xs ts Hx _ IH]; intros vs.
  - simpl. intros [= <-]. constructor.
  - destruct t as [a|e|k]; simpl; [|done|done].
    destruct (values ts) as [vs'|]; simpl; [|done].
    intros [= <-]. constructor; [done|]. by apply IH.
Qed.

Lemma Promise_all_delivers ticks (f : X → Async (St:=St) A) xs s s' vs :
  (∀ x s1, x ∈ xs → G s s1 →
     G s1 (f x s1).1 ∧ delivers G (Ψ x) (f x s1).2 (f x s1).1) →
  Promise_all ticks f xs s = (s', Resolves vs) →
  G s s' ∧ Forall2 (λ x v, Ψ x v s') xs vs.
Proof.
  intros Hf. unfold Promise_all.
  destruct (spawn_all_delivers f xs s s Hf) as [G1 D1]; [reflexivity|].
  destruct (spawn_all f xs s) as [s1 ts]. simpl in *.
  destruct (event_loop_delivers ticks xs ts (first_rejected ts) s1 D1)
    as [G2 D2].
  destruct (event_loop ticks ts (first_rejected ts) s1) as [s2 [ts' rej]].
  simpl in *. unfold outcome. destruct rej; [done|].
  destruct (values ts') as [vs'|] eqn:E; [|done].
  intros [= <- <-]. split; [by etrans|]. by eapply values_delivers.
Qed.
End Delivery.

(** *** The log of the calling context *)

#[global] Instance grows_preorder : PreOrder grows.
Proof.
  split.
  - intros s. unfold grows. reflexivity.
  - intros s1 s2 s3. unfold grows. apply transitivity.
Qed.

Lemma since_grows s0 s s' e :
  grows s s' → e ∈ log_since s0 s → e ∈ log_since s0 s'.
Proof.
  unfold grows, log_since. intros [k ->] He. rewrite drop_app.
  apply elem_of_app. by left.
Qed.

Lemma subseteq_since_grows s0 s s' (l : list Event) :
  grows s s' → l ⊆ log_since s0 s → l ⊆ log_since s0 s'.
Proof. intros Hg Hl e He. eapply since_grows; [done|]. by apply Hl. Qed.

Local Ltac grows_goal :=
  unfold grows; cbn [log]; repeat apply prefix_app_r; reflexivity.

Local Ltac since_goal :=
  unfold log_since, grows in *; cbn [log] in *;
  repeat match goal with H : _ `prefix_of` _ |- _ => destruct H as [? H] end;
  repeat match goal with
         | H : log ?s = _ |- context [log ?s] => rewrite H
         end;
  rewrite <- ?app_assoc, drop_app_length; set_unfold; intuition.

Local Ltac deliver :=
  repeat first [ split; [grows_goal|] | intros ?s ?G; cbn ].

Lemma get_one_delivers w pathname s0 resource s1 :
  valid_resource resource → grows s0 s1 →
  grows s1 (get_one w pathname resource s1).1 ∧
  delivers grows
    (λ r s', ∃ c, r = Some (get_handle w pathname resource c) ∧
                  get_footprint w resource c ⊆ log_since s0 s')
    (get_one w pathname resource s1).2 (get_one w pathname resource s1).1.
Proof.
  intros [u Hu] G0.
  unfold get_one, getJob, getJob_buffer, Promise_all_of.
  destruct w; cbn.
  - deliver. exists (streams s2). split; [done|].
    intros e He. cbn in He. since_goal.
  - rewrite Hu. cbn. deliver. exists 0. split; [done|].
    intros e He. cbn in He. since_goal.
Qed.

Lemma encrypt_one_delivers w options s0 file s1 :
  valid_file w file → grows s0 s1 →
  grows s1 (encrypt_one w options file s1).1 ∧
  delivers grows
    (λ r s', ∃ n c, r = Some (encrypt_handle w options file n c) ∧
                    encrypt_footprint w options file n c ⊆ log_since s0 s')
    (encrypt_one w options file s1).2 (encrypt_one w options file s1).1.
Proof.
  intros (Hb & Hs & Hm) G0.
  unfold encrypt_one, encryptJob, collect_encrypt.
  destruct w; cbn; rewrite Hb; cbn; rewrite Hs; cbn.
  - deliver. exists (jobID s1), (streams s2). split.
    + rewrite (with_size_same _ Hs). by destruct file.
    + intros e He. cbn in He. since_goal.
  - unfold sum_encrypt. cbn. rewrite (within_ceiling_ltb _ (Hm eq_refl)). cbn.
    deliver. exists (jobID s1), 0. split; [done|].
    intros e He. cbn in He. since_goal.
Qed.

Lemma decrypt_one_delivers w decryptFile options s0 file s1 :
  valid_file w file → grows s0 s1 →
  grows s1 (decrypt_one w decryptFile options file s1).1 ∧
  delivers grows
    (λ r s', ∃ n c,
       r = Some (decrypt_handle w decryptFile options file n c) ∧
       decrypt_footprint w options file n c ⊆ log_since s0 s')
    (decrypt_one w decryptFile options file s1).2
    (decrypt_one w decryptFile options file s1).1.
Proof.
  intros (Hb & Hs & Hm) G0.
  unfold decrypt_one, decryptJob, collect_decrypt, id_or_next, check_decrypt,
    Promise_all_of.
  destruct w; cbn.
  - split; [grows_goal|]. intros s2 G2. cbn.
    destruct (truthy (PenumbraFile.id file)); cbn; rewrite Hs; cbn; deliver.
    + exists (default 0%N (PenumbraFile.id file)), (streams s2). split.
      * rewrite (with_size_same _ Hs). by destruct file.
      * intros e He. cbn in He. since_goal.
    + exists (jobID s2), (streams s2). split.
      * rewrite (with_size_same _ Hs). by destruct file.
      * intros e He. cbn in He. since_goal.
  - specialize (Hm eq_refl).
    replace (_ <? _)%N with false by (symmetry; apply N.ltb_ge; lia). cbn.
    deliver. exists 0%N, 0. split; [done|].
    intros e He. cbn in He. since_goal.
Qed.

(** *** What promises spend *)

Section Spending.
Context {St X A : Type} (cnt : St → nat) (cost : X → nat).

Lemma spends_resume n (t : Task (St:=St) A) s :
  spends cnt n t →
  ∃ m, m ≤ n ∧ cnt (resume t s).1 = cnt s + m ∧
       spends cnt (n - m) (resume t s).2.
Proof.
  destruct t as [a|e|k]; simpl.
  - intros ->. exists 0. by rewrite Nat.add_0_r.
  - intros _. exists 0. rewrite Nat.add_0_r. split; [lia|done].
  - intros H. apply H.
Qed.

Lemma round_spends ns (ts : list (Task (St:=St) A)) s :
  Forall2 (spends cnt) ns ts →
  ∃ ns', Forall2 (spends cnt) ns' (round ts s).2 ∧
         cnt (round ts s).1 + sum_list ns' = cnt s + sum_list ns.
Proof.
  intros H. revert s. induction H as [|n t ns ts Hn _ IH]; intros s; simpl.
  - by exists [].
  - destruct (spends_resume n t s Hn) as (m & Hm & E & Hn').
    destruct (resume t s) as [s1 t1]. cbn [fst snd] in *.
    destruct (IH s1) as (ns' & HF & E').
    destruct (round ts s1) as [s2 ts2]. cbn [fst snd] in *.
    exists ((n - m) :: ns'). split; [by constructor|].
    change (sum_list ((n - m) :: ns')) with ((n - m) + sum_list ns').
    change (sum_list (n :: ns)) with (n + sum_list ns). lia.
Qed.

Lemma event_loop_spends ticks ns (ts : list (Task (St:=St) A)) rej s :
  Forall2 (spends cnt) ns ts →
  ∃ ns', Forall2 (spends cnt) ns' (event_loop ticks ts rej s).2.1 ∧
         cnt (event_loop ticks ts rej s).1 + sum_list ns'
         = cnt s + sum_list ns.
Proof.
  revert ns ts rej s. induction ticks as [|k IH]; intros ns ts rej s H; simpl.
  - by exists ns.
  - destruct (round_spends ns ts s H) as (ns1 & H1 & E1).
    destruct (round ts s) as [s1 ts1]. cbn [fst snd] in *.
    destruct (IH ns1 ts1 (match rej with Some e => Some e
                          | None => first_rejected ts1 end) s1 H1)
      as (ns2 & H2 & E2).
    exists ns2. split; [done|]. lia.
Qed.

Lemma spawn_all_spends (f : X → Async (St:=St) A) xs s :
  (∀ x s, x ∈ xs →
     ∃ m, m ≤ cost x ∧ cnt (f x s).1 = cnt s + m ∧
          spends cnt (cost x - m) (f x s).2) →
  ∃ ns, Forall2 (spends cnt) ns (spawn_all f xs s).2 ∧
        cnt (spawn_all f xs s).1 + sum_list ns
        = cnt s + sum_list (cost <$> xs).
Proof.
  revert s. induction xs as [|x xs IH]; intros s Hf; cbn [spawn_all].
  - by exists [].
  - destruct (Hf x s) as (m & Hm & E & Hn); [by left|].
    destruct (f x s) as [s1 t]. cbn [fst snd] in *.
    destruct (IH s1) as (ns & HF & E').
    { intros y s2 Hy. apply Hf. by right. }
    destruct (spawn_all f xs s1) as [s2 ts]. cbn [fst snd] in *.
    exists ((cost x - m) :: ns). split; [by constructor|].
    change (sum_list ((cost x - m) :: ns))
      with ((cost x - m) + sum_list ns).
    change (sum_list (cost <$> x :: xs))
      with (cost x + sum_list (cost <$> xs)). lia.
Qed.

Lemma values_spends ns (ts : list (Task (St:=St) A)) vs :
  Forall2 (spends cnt) ns ts → values ts = Some vs → sum_list ns = 0.
Proof.
  intros H. revert vs. induction H as [|n t ns ts Hn _ IH]; intros vs.
  - done.
  - destruct t as [a|e|k]; simpl; [|done|done].
    destruct (values ts) as [vs'|]; simpl; [|done].
    intros _. simpl in Hn. subst n. simpl. by eapply IH.
Qed.

Lemma Promise_all_spends ticks (f : X → Async (St:=St) A) xs s s' vs :
  (∀ x s, x ∈ xs →
     ∃ m, m ≤ cost x ∧ cnt (f x s).1 = cnt s + m ∧
          spends cnt (cost x - m) (f x s).2) →
  Promise_all ticks f xs s = (s', Resolves vs) →
  cnt s' = cnt s + sum_list (cost <$> xs).
Proof.
  intros Hf. unfold Promise_all.
  destruct (spawn_all_spends f xs s Hf) as (ns & H1 & E1).
  destruct (spawn_all f xs s) as [s1 ts]. cbn [fst snd] in *.
  destruct (event_loop_spends ticks ns ts (first_rejected ts) s1 H1)
    as (ns' & H2 & E2).
  destruct (event_loop ticks ts (first_rejected ts) s1) as [s2 [ts' rej]].
  cbn [fst snd] in *. unfold outcome. destruct rej; [done|].
  destruct (values ts') as [vs'|] eqn:E; [|done].
  intros [= <- <-]. rewrite (values_spends ns' ts' vs' H2 E) in E2. lia.
Qed.
End Spending.

Lemma remote_calls_app l1 l2 :
  remote_calls (l1 ++ l2) = remote_calls l1 + remote_calls l2.
Proof. unfold remote_calls. by rewrite omap_app, length_app. Qed.

Local Ltac calls_goal :=
  cbn [log]; rewrite ?remote_calls_app, <- ?Nat.add_assoc;
  first [reflexivity | symmetry; apply Nat.add_0_r].

Local Ltac calls_side := unfold remote_calls; cbn; lia.

Local Ltac spend :=
  repeat first
    [ progress cbn
    | intros ?s
    | eexists; split; [|split; [calls_goal|]]; [calls_side|] ];
  try calls_side.

Lemma get_one_spends (w : bool) pathname resource s :
  valid_resource resource →
  ∃ m, m ≤ (if w then 1 else 0) ∧
    remote_calls (log (get_one w pathname resource s).1)
    = remote_calls (log s) + m ∧
    spends (λ s : State, remote_calls (log s)) ((if w then 1 else 0) - m)
      (get_one w pathname resource s).2.
Proof.
  intros [u Hu].
  unfold get_one, getJob, getJob_buffer, Promise_all_of.
  destruct w; cbn; [|rewrite Hu; cbn]; spend.
Qed.

Lemma encrypt_one_spends (w : bool) options file s :
  valid_file w file →
  ∃ m, m ≤ (if w then 1 else 0) ∧
    remote_calls (log (encrypt_one w options file s).1)
    = remote_calls (log s) + m ∧
    spends (λ s : State, remote_calls (log s)) ((if w then 1 else 0) - m)
      (encrypt_one w options file s).2.
Proof.
  intros (Hb & Hs & Hm).
  unfold encrypt_one, encryptJob, collect_encrypt.
  destruct w; cbn; rewrite Hb; cbn; rewrite Hs; cbn.
  - spend.
  - unfold sum_encrypt. cbn. rewrite (within_ceiling_ltb _ (Hm eq_refl)). cbn.
    spend.
Qed.

Lemma decrypt_one_spends (w : bool) decryptFile options file s :
  valid_file w file →
  ∃ m, m ≤ (if w then 1 else 0) ∧
    remote_calls (log (decrypt_one w decryptFile options file s).1)
    = remote_calls (log s) + m ∧
    spends (λ s : State, remote_calls (log s)) ((if w then 1 else 0) - m)
      (decrypt_one w decryptFile options file s).2.
Proof.
  intros (Hb & Hs & Hm).
  unfold decrypt_one, decryptJob, collect_decrypt, id_or_next, check_decrypt,
    Promise_all_of.
  destruct w; cbn.
  - eexists; split; [|split; [calls_goal|]]; [calls_side|]. intros s1. cbn.
    destruct (truthy (PenumbraFile.id file)); cbn; rewrite Hs; cbn; spend.
  - specialize (Hm eq_refl).
    replace (_ <? _)%N with false by (symmetry; apply N.ltb_ge; lia). cbn.
    spend.
Qed.

(** The channels of the streaming path, by position. *)

Lemma get_channels pathname ticks resources s :
  2 ≤ ticks →
  (get true pathname ticks resources s).2
  = Resolves
      (imap (λ i resource, Some (get_handle true pathname resource
                                   (streams s + i)))
         resources).
Proof.
  intros Ht.
  destruct (Promise_all_first_turn streams (λ _ c, S c)
              (λ resource c r,
                 r = Some (get_handle true pathname resource c))
              1 ticks (get_one true pathname) resources s)
    as (s' & rs & E & HF); [lia| |].
  { intros r s1 _. apply get_one_first_turn. }
  unfold get. rewrite E. simpl. f_equal. apply list_eq. intros i.
  rewrite list_lookup_imap.
  destruct (resources !! i) as [r|] eqn:Hi; simpl.
  - pose proof (lookup_lt_Some _ _ _ Hi) as Hlt.
    destruct (Forall2_zip_lookup _ _ _ _ i r _ HF Hi
                (counter_trace_lookup _ _ _ _ Hlt)) as (v & Hv & ->).
    rewrite Hv. simpl. rewrite foldl_S.
    by replace (i `min` length resources) with i by lia.
  - apply Forall2_length in HF. rewrite length_zip_with in HF.
    rewrite counter_trace_length in HF.
    apply lookup_ge_None in Hi. apply lookup_ge_None. lia.
Qed.

Lemma encrypt_channels ticks options files s s' rs :
  4 ≤ ticks → Forall (valid_file true) files →
  encrypt true ticks options files s = (s', Resolves rs) →
  ∀ i file, files !! i = Some file →
    ∃ h, rs !! i = Some (Some h) ∧
         PenumbraFile.stream h = readable (streams s + 2 * i).
Proof.
  intros Ht Hv E0.
  destruct (Promise_all_first_turn streams (λ _ c, S (S c))
              (λ (file : PenumbraFile.t) c r,
                 ∃ h, r = Some h ∧ PenumbraFile.stream h = readable c)
              3 ticks (encrypt_one true options) files s)
    as (s1 & rs1 & E & HF); [lia| |].
  { intros file s1 Hf. apply encrypt_one_first_turn.
    by apply (proj1 (Forall_forall _ _) Hv). }
  unfold encrypt in E0. rewrite E in E0. injection E0 as <- <-.
  intros i file Hi.
  pose proof (lookup_lt_Some _ _ _ Hi) as Hlt.
  destruct (Forall2_zip_lookup _ _ _ _ i file _ HF Hi
              (counter_trace_lookup _ _ _ _ Hlt)) as (v & Hr & h & -> & Hh).
  exists h. split; [done|]. rewrite Hh, foldl_SS.
  by replace (i `min` length files) with i by lia.
Qed.

Lemma decrypt_channels decryptFile ticks options files s s' rs :
  4 ≤ ticks → Forall (valid_file true) files →
  decrypt true decryptFile ticks options files s = (s', Resolves rs) →
  ∀ i file, files !! i = Some file →
    ∃ h, rs !! i = Some (Some h) ∧
         PenumbraFile.stream h = readable (streams s + 2 * i).
Proof.
  intros Ht Hv E0.
  destruct (Promise_all_first_turn streams (λ _ c, S (S c))
              (λ (file : PenumbraFile.t) c r,
                 ∃ h, r = Some h ∧ PenumbraFile.stream h = readable c)
              3 ticks (decrypt_one true decryptFile options) files s)
    as (s1 & rs1 & E & HF); [lia| |].
  { intros file s1 Hf. apply decrypt_one_first_turn.
    by destruct (proj1 (Forall_forall _ _) Hv file Hf) as (_ & ? & _). }
  unfold decrypt in E0. rewrite E in E0. injection E0 as <- <-.
  intros i file Hi.
  pose proof (lookup_lt_Some _ _ _ Hi) as Hlt.
  destruct (Forall2_zip_lookup _ _ _ _ i file _ HF Hi
              (counter_trace_lookup _ _ _ _ Hlt)) as (v & Hr & h & -> & Hh).
  exists h. split; [done|]. rewrite Hh, foldl_SS.
  by replace (i `min` length files) with i by lia.
Qed.

(** The results and the footprints of whole batches. *)

Lemma get_delivered w pathname ticks resources s :
  5 ≤ ticks → Forall valid_resource resources →
  ∃ s' rs, get w pathname ticks resources s = (s', Resolves rs) ∧
    grows s s' ∧
    length rs = length resources ∧
    ∀ i resource, resources !! i = Some resource →
      rs !! i = Some (Some (get_handle w pathname resource (streams s + i))) ∧
      get_footprint w resource (streams s + i) ⊆ log_since s s'.
Proof.
  intros Ht Hv.
  destruct (get_resolves w pathname ticks resources s Ht Hv)
    as (s' & rs & E & HF).
  destruct (Promise_all_delivers grows
              (λ resource r s',
                 ∃ c, r = Some (get_handle w pathname resource c) ∧
                      get_footprint w resource c ⊆ log_since s s')
              ltac:(intros x a s1 s2 (c & -> & Hsub) Hg; exists c;
                    split; [done|]; by eapply subseteq_since_grows)
              ticks (get_one w pathname) resources s s' rs)
    as [Hg HD]; [|exact E|].
  { intros x s1 Hx Hg. apply get_one_delivers; [|done].
    by apply (proj1 (Forall_forall _ _) Hv). }
  exists s', rs. split; [done|]. split; [done|].
  split; [symmetry; by eapply Forall2_length|].
  intros i resource Hi.
  destruct (Forall2_lookup_l _ _ _ i resource HD Hi)
    as (r & Hr & c & -> & Hsub).
  destruct w; [|done].
  pose proof (get_channels pathname ticks resources s ltac:(lia)) as Hc.
  rewrite E in Hc. simpl in Hc. injection Hc as Hc.
  pose proof Hr as Hr'. rewrite Hc, list_lookup_imap, Hi in Hr'.
  simpl in Hr'. injection Hr' as <-. done.
Qed.

Lemma encrypt_handle_id w options file n c :
  PenumbraFile.id (encrypt_handle w options file n c) = Some n.
Proof. unfold encrypt_handle. destruct w; [done|]. by destruct options. Qed.

Lemma encrypt_delivered w ticks options files s :
  5 ≤ ticks → Forall (valid_file w) files →
  ∃ s' rs, encrypt w ticks options files s = (s', Resolves rs) ∧
    grows s s' ∧
    length rs = length files ∧
    ∀ i file, files !! i = Some file →
      let n := (jobID s + N.of_nat i)%N in
      let c := streams s + 2 * i in
      rs !! i = Some (Some (encrypt_handle w options file n c)) ∧
      encrypt_footprint w options file n c ⊆ log_since s s'.
Proof.
  intros Ht Hv.
  destruct (encrypt_resolves w ticks options files s Ht Hv)
    as (s' & rs & E & HF).
  destruct (Promise_all_delivers grows
              (λ file r s',
                 ∃ n c, r = Some (encrypt_handle w options file n c) ∧
                        encrypt_footprint w options file n c
                        ⊆ log_since s s')
              ltac:(intros x a s1 s2 (n & c & -> & Hsub) Hg; exists n, c;
                    split; [done|]; by eapply subseteq_since_grows)
              ticks (encrypt_one w options) files s s' rs)
    as [Hg HD]; [|exact E|].
  { intros x s1 Hx Hg. apply encrypt_one_delivers; [|done].
    by apply (proj1 (Forall_forall _ _) Hv). }
  exists s', rs. split; [done|]. split; [done|]. split.
  { apply Forall2_length in HD. done. }
  intros i file Hi n c.
  pose proof (lookup_lt_Some _ _ _ Hi) as Hlt.
  destruct (Forall2_lookup_l _ _ _ i file HD Hi)
    as (r & Hr & n' & c' & -> & Hsub).
  destruct (Forall2_zip_lookup _ _ _ _ i file _ HF Hi
              (counter_trace_lookup _ _ _ _ Hlt)) as (r' & Hr' & Hres).
  rewrite Hr in Hr'. injection Hr' as <-. simpl in Hres.
  rewrite foldl_succ in Hres by lia.
  apply encrypt_result_id in Hres as (h & [= <-] & Hid).
  rewrite encrypt_handle_id in Hid. injection Hid as ->. fold n.
  destruct w; [|done].
  destruct (encrypt_channels ticks options files s s' rs ltac:(lia) Hv E
              i file Hi) as (h & Hh & Hst).
  rewrite Hr in Hh. injection Hh as <-. simpl in Hst. injection Hst as ->.
  done.
Qed.

Lemma decrypt_delivered w decryptFile ticks options files s :
  5 ≤ ticks → Forall (valid_file w) files →
  ∃ s' rs, decrypt w decryptFile ticks options files s = (s', Resolves rs) ∧
    grows s s' ∧
    length rs = length files ∧
    ∀ i file, files !! i = Some file →
      let n := id_or_drawn s files i file in
      let c := streams s + 2 * i in
      rs !! i = Some (Some (decrypt_handle w decryptFile options file n c)) ∧
      decrypt_footprint w options file n c ⊆ log_since s s'.
Proof.
  intros Ht Hv.
  destruct (decrypt_resolves w decryptFile ticks options files s Ht Hv)
    as (s' & rs & E & _).
  destruct (Promise_all_delivers grows
              (λ file r s',
                 ∃ n c,
                   r = Some (decrypt_handle w decryptFile options file n c) ∧
                   decrypt_footprint w options file n c ⊆ log_since s s')
              ltac:(intros x a s1 s2 (n & c & -> & Hsub) Hg; exists n, c;
                    split; [done|]; by eapply subseteq_since_grows)
              ticks (decrypt_one w decryptFile options) files s s' rs)
    as [Hg HD]; [|exact E|].
  { intros x s1 Hx Hg. apply decrypt_one_delivers; [|done].
    by apply (proj1 (Forall_forall _ _) Hv). }
  exists s', rs. split; [done|]. split; [done|]. split.
  { apply Forall2_length in HD. done. }
  intros i file Hi n c.
  pose proof (lookup_lt_Some _ _ _ Hi) as Hlt.
  destruct (Forall2_lookup_l _ _ _ i file HD Hi)
    as (r & Hr & n' & c' & -> & Hsub).
  destruct w; [|done].
  destruct (decrypt_stream_resolves true decryptFile ticks options files s
              eq_refl Ht Hv) as (s1 & rs1 & E1 & HF).
  rewrite E in E1. injection E1 as <- <-.
  destruct (Forall2_zip_lookup _ _ _ _ i file _ HF Hi
              (counter_trace_lookup _ _ _ _ Hlt)) as (r' & Hr' & c'' & Hres).
  rewrite Hr in Hr'. injection Hr' as <-. simpl in Hres.
  rewrite foldl_drawn_before in Hres. injection Hres as Hid _.
  fold (id_or_drawn s files i file) in Hid. fold n in Hid.
  destruct (decrypt_channels decryptFile ticks options files s s' rs
              ltac:(lia) Hv E i file Hi) as (h & Hh & Hst).
  rewrite Hr in Hh. injection Hh as <-. simpl in Hst. injection Hst as ->.
  by rewrite Hid in *.
Qed.

Lemma sum_list_fmap_const {X} (k : nat) (xs : list X) :
  sum_list ((λ _, k) <$> xs) = length xs * k.
Proof.
  induction xs as [|x xs IH]; [done|].
  change (sum_list ((λ _, k) <$> x :: xs))
    with (k + sum_list ((λ _ : X, k) <$> xs)).
  rewrite IH. simpl. lia.
Qed.

Lemma remote_calls_since s s' :
  grows s s' →
  remote_calls (log s') = remote_calls (log s) + remote_calls (log_since s s').
Proof.
  unfold grows, log_since. intros [k ->].
  by rewrite drop_app_length, remote_calls_app.
Qed.

Lemma get_remote_calls pathname ticks resources s :
  5 ≤ ticks → Forall valid_resource resources →
  remote_calls (log_since s (get true pathname ticks resources s).1)
  = length resources.
Proof.
  intros Ht Hv.
  destruct (get_delivered true pathname ticks resources s Ht Hv)
    as (s' & rs & E & Hg & _).
  pose proof (Promise_all_spends (λ s : State, remote_calls (log s))
                (λ _, 1) ticks (get_one true pathname) resources s s' rs) as H.
  rewrite E. simpl.
  rewrite sum_list_fmap_const, (remote_calls_since s s' Hg) in H.
  rewrite Nat.mul_1_r in H. apply Nat.add_cancel_l in H; [done| |done].
  intros x s1 Hx. apply (get_one_spends true).
  by apply (proj1 (Forall_forall _ _) Hv).
Qed.

Lemma encrypt_remote_calls ticks options files s :
  5 ≤ ticks → Forall (valid_file true) files →
  remote_calls (log_since s (encrypt true ticks options files s).1)
  = length files.
Proof.
  intros Ht Hv.
  destruct (encrypt_delivered true ticks options files s Ht Hv)
    as (s' & rs & E & Hg & _).
  pose proof (Promise_all_spends (λ s : State, remote_calls (log s))
                (λ _, 1) ticks (encrypt_one true options) files s s' rs) as H.
  rewrite E. simpl.
  rewrite sum_list_fmap_const, (remote_calls_since s s' Hg) in H.
  rewrite Nat.mul_1_r in H. apply Nat.add_cancel_l in H; [done| |done].
  intros x s1 Hx. apply (encrypt_one_spends true).
  by apply (proj1 (Forall_forall _ _) Hv).
Qed.

Lemma decrypt_remote_calls decryptFile ticks options files s :
  5 ≤ ticks → Forall (valid_file true) files →
  remote_calls (log_since s (decrypt true decryptFile ticks options files s).1)
  = length files.
Proof.
  intros Ht Hv.
  destruct (decrypt_delivered true decryptFile ticks options files s Ht Hv)
    as (s' & rs & E & Hg & _).
  pose proof (Promise_all_spends (λ s : State, remote_calls (log s))
                (λ _, 1) ticks (decrypt_one true decryptFile options) files
                s s' rs) as H.
  rewrite E. simpl.
  rewrite sum_list_fmap_const, (remote_calls_since s s' Hg) in H.
  rewrite Nat.mul_1_r in H. apply Nat.add_cancel_l in H; [done| |done].
  intros x s1 Hx. apply (decrypt_one_spends true).
  by apply (proj1 (Forall_forall _ _) Hv).
Qed.



(** X8: whatever the batch, every remote call that [get], [encrypt] or
    [decrypt] issues carries exactly one job: one resource or file with
    one identifier, one size and one port for each direction; run by the
    worker, such a call starts one callback and writes no count-mismatch
    warning.  On the streaming path a valid batch of N items makes exactly
    N remote calls. *)
Theorem one_remote_call_per_item pathname decryptFile ticks options info s :
  (∀ w resources files e,
     e ∈ log_since s (get w pathname ticks resources s).1 ∨
     e ∈ log_since s (encrypt w ticks options files s).1 ∨
     e ∈ log_since s (decrypt w decryptFile ticks info files s).1 →
     single_job e ∧
     ∀ m, worker_call e = Some m →
       ∀ ticks' ws,
         ∃ ws' ts, PenumbraWorker.run ticks' m ws = (ws', Fulfilled ts) ∧
           length ts = 1 ∧
           PenumbraWorker.warnings ws' = PenumbraWorker.warnings ws) ∧
  (5 ≤ ticks →
   (∀ resources,
      Forall valid_resource resources →
      remote_calls (log_since s (get true pathname ticks resources s).1)
      = length resources) ∧
   (∀ files,
      Forall (valid_file true) files →
      remote_calls (log_since s (encrypt true ticks options files s).1)
      = length files) ∧
   (∀ files,
      Forall (valid_file true) files →
      remote_calls
        (log_since s (decrypt true decryptFile ticks info files s).1)
      = length files)).
Proof.
  split.
  - intros w resources files e He.
    assert (match e with JobIDpp _ => True | _ => single_job e end) as Hs.
    { destruct He as [He|[He|He]]; (eapply steps_since; [|exact He]);
        apply (Promise_all_runs (steps single_job)); intros x _.
      - apply get_one_single.
      - apply encrypt_one_single.
      - apply decrypt_one_single. }
    assert (single_job e) as Hs' by by destruct e.
    split; [done|]. intros m Hm ticks' ws. by eapply single_job_quiet.
  - intros Ht. split; [|split].
    + intros resources Hv. by apply get_remote_calls.
    + intros files Hv. by apply encrypt_remote_calls.
    + intros files Hv. by apply decrypt_remote_calls.
Qed.

Lemma one_remote_call_per_item_witness :
  (single_job (ThreadEncrypt None [1%N] [2048%N] [3] [2]) ∧
   ∃ ws' ts,
     PenumbraWorker.run 1
       (PenumbraWorker.encrypt None [1%N] [2048%N] [3] [2]) []
     = (ws', Fulfilled ts) ∧
     length ts = 1 ∧ PenumbraWorker.warnings ws' = []) ∧
  remote_calls
    (log_since initial
       (encrypt true 5 None
          [sample_file 0 (Some 1024%N); sample_file 1 (Some 2048%N)]
          initial).1)
  = 2.
Proof.
  destruct (one_remote_call_per_item sample_pathname sample_decryptFile
              5 None sample_info initial) as [H1 H2].
  split.
  - destruct (H1 true []
                [sample_file 0 (Some 1024%N); sample_file 1 (Some 2048%N)]
                (ThreadEncrypt None [1%N] [2048%N] [3] [2]))
      as [Hs Hw].
    + right. left. vm_compute. do 11 right. left.
    + split; [exact Hs|]. exact (Hw _ eq_refl 1 []).
  - destruct (H2 (le_n 5)) as (_ & He & _).
    apply (He [sample_file 0 (Some 1024%N); sample_file 1 (Some 2048%N)]).
    repeat constructor; done.
Defined.
